(** * An indexed binary min-heap of integers (z3's [util/heap.h])

    Shallow embedding of the class template [heap<LT>] and proofs of the
    properties stated in the specification.

    Modelling conventions.
    - [int] values (keys, slots, sizes) are integers of [Z].  The only
      arithmetic performed on them is [i << 1], [(i << 1) + 1], [i >> 1],
      [size - 1] and [n / 2]; the model coincides with machine arithmetic as
      long as [m_keys] holds at most [2^30] entries, which a capacity below
      [2^30] ensures (lemma [keys_size_le_capacity]).
    - [int_vector] is a [list Z].  [operator[]] outside the bounds and
      [pop_back]/[back] on an empty vector are assertion failures of the
      vector class (undefined behaviour in release builds); they are failures
      of the model.
    - [SASSERT] is modelled as a checked assertion.  [CASSERT("heap", ...)] is
      only active when the debug tag "heap" is switched on; it is modelled as
      switched off, and what it checks is proved instead.
    - [const] member functions are functions of the heap; the other member
      functions run in a state-and-failure monad over the two vectors.
    - [while (true)] loops carry a fuel argument; running out of fuel is a
      failure, and the theorems show that the fuel supplied always suffices.
    - The comparator base class [LT] is a function [lt : Z -> Z -> bool]. *)

From Stdlib Require Import ZArith List Lia Bool Sorted Permutation.
From stdpp Require Import base option list numbers.

Local Open Scope Z_scope.

(** ** Vectors *)

Module Vec.

Definition size (v : list Z) : Z := Z.of_nat (length v).

(** [v[i]] *)
Definition get (v : list Z) (i : Z) : option Z :=
  if decide (0 ≤ i) then v !! Z.to_nat i else None.

(** [v[i] = x] *)
Definition set (v : list Z) (i x : Z) : option (list Z) :=
  if decide (0 ≤ i < size v) then Some (<[Z.to_nat i := x]> v) else None.

Definition push_back (v : list Z) (x : Z) : list Z := v ++ [x].

Definition back (v : list Z) : option Z := list.last v.

Definition pop_back (v : list Z) : option (list Z) :=
  match v with
  | [] => None
  | _ => Some (removelast v)
  end.

(** [v.resize(s, x)], the argument being converted to [unsigned]. *)
Definition resize (v : list Z) (s x : Z) : list Z :=
  let n := Z.to_nat (s mod 2 ^ 32) in
  take n v ++ replicate (n - length v) x.

End Vec.

(** ** The heap object and its monad *)

Record heap : Type := Heap { m_keys : list Z; m_indices : list Z }.

Definition M (A : Type) : Type := heap → option (A * heap).

#[global] Instance M_ret : MRet M := λ A x h, Some (x, h).
#[global] Instance M_bind : MBind M := λ A B f m h,
  match m h with
  | Some (x, h') => f x h'
  | None => None
  end.

Definition fail {A} : M A := λ _, None.

Definition lift {A} (o : option A) : M A := λ h,
  match o with
  | Some x => Some (x, h)
  | None => None
  end.

(** Calls of [const] member functions. *)
Definition read {A} (f : heap → A) : M A := λ h, Some (f h, h).
Definition call {A} (f : heap → option A) : M A := λ h, lift (f h) h.

Definition sassert (b : bool) : M unit := if b then mret tt else fail.

Definition keys_size : M Z := λ h, Some (Vec.size (m_keys h), h).
Definition keys_at (i : Z) : M Z := λ h, lift (Vec.get (m_keys h) i) h.
Definition keys_put (i x : Z) : M unit := λ h,
  match Vec.set (m_keys h) i x with
  | Some v => Some (tt, Heap v (m_indices h))
  | None => None
  end.
Definition keys_push_back (x : Z) : M unit := λ h,
  Some (tt, Heap (Vec.push_back (m_keys h) x) (m_indices h)).
Definition keys_pop_back : M unit := λ h,
  match Vec.pop_back (m_keys h) with
  | Some v => Some (tt, Heap v (m_indices h))
  | None => None
  end.
Definition keys_back : M Z := λ h, lift (Vec.back (m_keys h)) h.
Definition indices_size : M Z := λ h, Some (Vec.size (m_indices h), h).
Definition indices_at (k : Z) : M Z := λ h, lift (Vec.get (m_indices h) k) h.
Definition indices_put (k i : Z) : M unit := λ h,
  match Vec.set (m_indices h) k i with
  | Some v => Some (tt, Heap (m_keys h) v)
  | None => None
  end.

(** ** Slot arithmetic *)

Definition left (i : Z) : Z := Z.shiftl i 1.
Definition right (i : Z) : Z := Z.shiftl i 1 + 1.
Definition parent (i : Z) : Z := Z.shiftr i 1.

(** ** [const] member functions *)

Definition empty (h : heap) : bool := Vec.size (m_keys h) =? 1.

Definition size (h : heap) : Z := Vec.size (m_indices h).

Definition get_bounds (h : heap) : Z := Vec.size (m_indices h).

Definition contains (h : heap) (key : Z) : option bool :=
  if key <? Vec.size (m_indices h)
  then i ← Vec.get (m_indices h) key; Some (negb (i =? 0))
  else Some false.

(** [is_valid_value] asserts that the value is in range and returns [true]. *)
Definition is_valid_value (h : heap) (v : Z) : option bool :=
  if (0 <=? v) && (v <? Vec.size (m_indices h)) then Some true else None.

Definition get_key (h : heap) (index : Z) : option Z :=
  Vec.get (m_keys h) index.

Definition get_index (h : heap) (key : Z) : option Z :=
  Vec.get (m_indices h) key.

Definition min_value (h : heap) : option Z :=
  if empty h then None else Vec.get (m_keys h) 1.

(** ** Member functions that depend on the comparator *)

Section Heap.

Variable lt : Z → Z → bool.

Definition less_than (v1 v2 : Z) : bool := lt v1 v2.

(** [check_invariant_core]: [true] when no assertion fires.  The fuel bounds
    the depth of the recursion. *)
Fixpoint check_invariant_core (fuel : nat) (h : heap) (idx : Z) : bool :=
  if idx <? Vec.size (m_keys h) then
    match fuel with
    | O => false
    | S f =>
        match Vec.get (m_keys h) idx with
        | Some k =>
            match Vec.get (m_indices h) k with
            | Some i => i =? idx
            | None => false
            end
            && ((parent idx =? 0)
                || match Vec.get (m_keys h) (parent idx) with
                   | Some pk => negb (less_than k pk)
                   | None => false
                   end)
            && check_invariant_core f h (left idx)
            && check_invariant_core f h (right idx)
        | None => false
        end
    end
  else true.

Definition check_invariant (h : heap) : bool :=
  check_invariant_core (length (m_keys h)) h 1.

(** The loop of [move_up]; returns the slot where the loop stops. *)
Fixpoint move_up_loop (fuel : nat) (key idx : Z) : M Z :=
  match fuel with
  | O => fail
  | S f =>
      let parent_idx := parent idx in
      parent_key ← keys_at parent_idx;
      if (parent_idx =? 0) || negb (less_than key parent_key)
      then mret idx
      else
        keys_put idx parent_key;;
        indices_put parent_key idx;;
        move_up_loop f key parent_idx
  end.

Definition move_up (idx : Z) : M unit :=
  key ← keys_at idx;
  idx' ← move_up_loop (S (Z.to_nat idx)) key idx;
  keys_put idx' key;;
  indices_put key idx'.

(** The loop of [move_down]; returns the slot where the loop stops. *)
Fixpoint move_down_loop (fuel : nat) (key sz idx : Z) : M Z :=
  match fuel with
  | O => fail
  | S f =>
      let left_idx := left idx in
      if sz <=? left_idx then mret idx
      else
        left_key ← keys_at left_idx;
        let right_idx := right idx in
        min_idx ←
          (if right_idx <? sz
           then right_key ← keys_at right_idx;
                mret (if less_than right_key left_key
                      then right_idx else left_idx)
           else mret left_idx);
        sassert (parent min_idx =? idx);;
        min_key ← keys_at min_idx;
        if less_than key min_key then mret idx
        else
          keys_put idx min_key;;
          indices_put min_key idx;;
          move_down_loop f key sz min_idx
  end.

Definition move_down (idx : Z) : M unit :=
  key ← keys_at idx;
  sz ← keys_size;
  idx' ← move_down_loop (S (Z.to_nat sz)) key sz idx;
  keys_put idx' key;;
  indices_put key idx'.

Definition set_bounds (s : Z) : M unit := λ h,
  Some (tt, Heap (m_keys h) (Vec.resize (m_indices h) s 0)).

(** The constructor [heap(int s, const LT & lt)]. *)
Definition mk_heap (s : Z) : heap :=
  Heap (Vec.push_back [] (-1)) (Vec.resize [] s 0).

Definition reset : M unit := λ h,
  if empty h then Some (tt, h)
  else Some (tt, Heap (Vec.push_back [] (-1))
                      (replicate (length (m_indices h)) 0)).

Definition clear : M unit := reset.

(** [for (int i = n / 2; i > 0; --i) move_down(i)], by recursion on the
    number of iterations left. *)
Fixpoint heapify_loop (i : nat) : M unit :=
  match i with
  | O => mret tt
  | S i' => move_down (Z.of_nat i);; heapify_loop i'
  end.

Definition heapify : M unit :=
  sz ← keys_size;
  let n := sz - 1 in
  heapify_loop (Z.to_nat (Z.quot n 2)).

Definition reserve (s : Z) : M unit :=
  sz ← indices_size;
  if sz <? s then set_bounds s else mret tt.

Definition erase_min : M Z :=
  e ← read empty;
  sassert (negb e);;
  sz ← keys_size;
  sassert (2 <=? sz);;
  result ← keys_at 1;
  (if sz =? 2 then
     indices_put result 0;;
     keys_pop_back;;
     e' ← read empty;
     sassert e'
   else
     last_key ← keys_back;
     keys_put 1 last_key;;
     indices_put last_key 1;;
     indices_put result 0;;
     keys_pop_back;;
     move_down 1);;
  mret result.

Definition erase (key : Z) : M unit :=
  c ← call (λ h, contains h key);
  sassert c;;
  idx ← indices_at key;
  sz ← keys_size;
  if idx =? sz - 1 then
    indices_put key 0;;
    keys_pop_back
  else
    last_key ← keys_back;
    keys_put idx last_key;;
    indices_put last_key idx;;
    indices_put key 0;;
    keys_pop_back;;
    let parent_idx := parent idx in
    if parent_idx =? 0 then move_down idx
    else
      parent_key ← keys_at (parent idx);
      if less_than last_key parent_key then move_up idx else move_down idx.

Definition decreased (key : Z) : M unit :=
  c ← call (λ h, contains h key);
  sassert c;;
  idx ← indices_at key;
  move_up idx.

Definition increased (key : Z) : M unit :=
  c ← call (λ h, contains h key);
  sassert c;;
  idx ← indices_at key;
  move_down idx.

Definition insert (key : Z) : M unit :=
  v ← call (λ h, is_valid_value h key);
  sassert v;;
  idx ← keys_size;
  indices_put key idx;;
  keys_push_back key;;
  sz ← keys_size;
  sassert (idx =? sz - 1);;
  move_up idx.

(** The loop of [find_le]; [todo] is the local stack, [result] the vector
    passed by reference. *)
Fixpoint find_le_loop (fuel : nat) (key : Z) (todo result : list Z)
  : M (list Z) :=
  match todo with
  | [] => mret result
  | _ =>
      match fuel with
      | O => fail
      | S f =>
          index ← lift (Vec.back todo);
          todo' ← lift (Vec.pop_back todo);
          sz ← keys_size;
          if index <? sz then
            k ← keys_at index;
            if negb (less_than key k) then
              find_le_loop f key
                (Vec.push_back (Vec.push_back todo' (left index)) (right index))
                (Vec.push_back result k)
            else find_le_loop f key todo' result
          else find_le_loop f key todo' result
      end
  end.

Definition find_le (key : Z) (result : list Z) : M (list Z) :=
  sz ← keys_size;
  find_le_loop (Z.to_nat (4 * sz + 1)) key (Vec.push_back [] 1) result.

End Heap.

(** [swap]: the two vectors are exchanged, the comparators stay. *)
Definition swap (this other : heap) : heap * heap := (other, this).

(** [begin()] and [end()] point into the data of [m_keys]; they are modelled
    as the offsets of the elements they point at. *)
Definition begin (h : heap) : Z := 1.
Definition end_ (h : heap) : Z := Vec.size (m_keys h).

(** ** Specification vocabulary *)

(** The key stored in a slot, and the slot recorded for a key. *)
Definition key_at (h : heap) (i : Z) : option Z := Vec.get (m_keys h) i.
Definition index_of (h : heap) (k : Z) : option Z := Vec.get (m_indices h) k.

(** The two vectors are inverse to each other on the occupied slots: slot 0
    is the sentinel, every slot [i >= 1] holds a key whose index entry is
    [i], and every non-zero index entry points at the slot holding the key. *)
Definition well_formed (h : heap) : Prop :=
  1 ≤ Vec.size (m_keys h)
  ∧ (∀ i k, 1 ≤ i → key_at h i = Some k → index_of h k = Some i)
  ∧ (∀ k i, index_of h k = Some i → i ≠ 0 → key_at h i = Some k).

(** Min-heap order: no key sorts before the key of its parent slot. *)
Definition ordered (lt : Z → Z → bool) (h : heap) : Prop :=
  ∀ c a b, 2 ≤ c → key_at h c = Some a → key_at h (parent c) = Some b →
           lt a b = false.

Definition heap_inv (lt : Z → Z → bool) (h : heap) : Prop :=
  well_formed h ∧ ordered lt h.

(** What the data model asks of the comparator: [not (lt b a)] is a total
    preorder, that is, [lt] is a strict weak order. *)
Definition strict_weak_order (lt : Z → Z → bool) : Prop :=
  (∀ a b, lt a b = true → lt b a = false)
  ∧ (∀ a b c, lt a b = false → lt b c = false → lt a c = false).

(** Two keys are tied when neither sorts before the other. *)
Definition tied (lt : Z → Z → bool) (a b : Z) : Prop :=
  lt a b = false ∧ lt b a = false.

(** A comparator without ties between distinct keys. *)
Definition no_ties (lt : Z → Z → bool) : Prop :=
  ∀ a b, a ≠ b → lt a b = false → lt b a = true.

(** The comparator reads priorities that the caller may change before it
    calls [decreased] or [increased]: [lt] is the order before the change,
    [lt'] the order after it. *)
Definition priority_decreased (lt lt' : Z → Z → bool) (k : Z) : Prop :=
  (∀ x y, x ≠ k → y ≠ k → lt' x y = lt x y)
  ∧ (∀ x, lt x k = false → lt' x k = false)
  ∧ (∀ x, lt k x = true → lt' k x = true).

Definition priority_increased (lt lt' : Z → Z → bool) (k : Z) : Prop :=
  (∀ x y, x ≠ k → y ≠ k → lt' x y = lt x y)
  ∧ (∀ x, lt k x = false → lt' k x = false)
  ∧ (∀ x, lt x k = true → lt' x k = true).

(** *** Histories *)

(** What a sequence of calls did to the membership of keys, newest event
    first.  [ERemove] records both [erase(k)] and an [erase_min] that
    returned [k]. *)
Inductive event : Type :=
  | EInsert (k : Z)
  | ERemove (k : Z)
  | EReset.

(** [k] was inserted and not removed since, after the last reset. *)
Fixpoint live (log : list event) (k : Z) : bool :=
  match log with
  | [] => false
  | EInsert k' :: log' => if decide (k' = k) then true else live log' k
  | ERemove k' :: log' => if decide (k' = k) then false else live log' k
  | EReset :: _ => false
  end.

(** The heaps that valid calls produce.  [reachable lt log h]: [h] is the
    state of a heap whose comparator currently behaves as [lt] and whose
    membership history is [log]. *)
Inductive reachable : (Z → Z → bool) → list event → heap → Prop :=
  | reach_new lt s :
      strict_weak_order lt → 0 ≤ s < 2 ^ 31 →
      reachable lt [] (mk_heap s)
  | reach_insert lt log h k h' :
      reachable lt log h →
      0 ≤ k < size h → contains h k = Some false →
      insert lt k h = Some (tt, h') →
      reachable lt (EInsert k :: log) h'
  | reach_erase_min lt log h k h' :
      reachable lt log h →
      empty h = false →
      erase_min lt h = Some (k, h') →
      reachable lt (ERemove k :: log) h'
  | reach_erase lt log h k h' :
      reachable lt log h →
      contains h k = Some true →
      erase lt k h = Some (tt, h') →
      reachable lt (ERemove k :: log) h'
  | reach_decreased lt lt' log h k h' :
      reachable lt log h →
      contains h k = Some true →
      strict_weak_order lt' → priority_decreased lt lt' k →
      decreased lt' k h = Some (tt, h') →
      reachable lt' log h'
  | reach_increased lt lt' log h k h' :
      reachable lt log h →
      contains h k = Some true →
      strict_weak_order lt' → priority_increased lt lt' k →
      increased lt' k h = Some (tt, h') →
      reachable lt' log h'
  | reach_heapify lt lt' log h h' :
      reachable lt log h →
      strict_weak_order lt' →
      heapify lt' h = Some (tt, h') →
      reachable lt' log h'
  | reach_reserve lt log h s h' :
      reachable lt log h →
      s < 2 ^ 31 →
      reserve s h = Some (tt, h') →
      reachable lt log h'
  | reach_reset lt log h h' :
      reachable lt log h →
      reset h = Some (tt, h') →
      reachable lt (EReset :: log) h'
  | reach_swap lt log log' h other :
      reachable lt log h →
      reachable lt log' other →
      reachable lt log' (fst (swap h other)).

(** *** Clients *)

(** The caller's loop [while (!h.empty()) out.push_back(h.erase_min())]. *)
Fixpoint erase_all (lt : Z → Z → bool) (fuel : nat) : M (list Z) :=
  e ← read empty;
  if (e : bool) then mret []
  else
    match fuel with
    | O => fail
    | S f =>
        x ← erase_min lt;
        rest ← erase_all lt f;
        mret (x :: rest)
    end.

(** Membership as a boolean, and the number of keys present. *)
Definition present (h : heap) (k : Z) : bool :=
  match contains h k with
  | Some b => b
  | None => false
  end.

Definition element_count (h : heap) : Z :=
  Z.of_nat (length (filter (λ k, present h k = true) (seqZ 0 (size h)))).

(** *** Ghost views used by the proofs of the sift loops *)

(** While a sift loop runs, the moving key is held in a local variable and
    the slot [idx] is a hole.  [hole h idx key] is [well_formed] around the
    hole. *)
Definition hole (h : heap) (idx key : Z) : Prop :=
  1 ≤ idx < Vec.size (m_keys h)
  ∧ (∃ x, x ≠ 0 ∧ index_of h key = Some x)
  ∧ (∀ i k, 1 ≤ i → i ≠ idx → key_at h i = Some k →
            k ≠ key ∧ index_of h k = Some i)
  ∧ (∀ k i, k ≠ key → index_of h k = Some i → i ≠ 0 →
            i ≠ idx ∧ key_at h i = Some k).

(** The paired assignment [m_keys[idx] = x; m_indices[x] = idx]. *)
Definition store (h : heap) (idx x : Z) : heap :=
  Heap (<[Z.to_nat idx := x]> (m_keys h)) (<[Z.to_nat x := idx]> (m_indices h)).

(** The position array with the moving key put back in the hole. *)
Definition filled (h : heap) (idx key : Z) (i : Z) : option Z :=
  if decide (i = idx) then Some key else key_at h i.

(** The sift loops keep the sizes of both vectors and the set of absent
    keys. *)
Definition same_frame (h h' : heap) : Prop :=
  length (m_keys h') = length (m_keys h)
  ∧ length (m_indices h') = length (m_indices h)
  ∧ (∀ k, index_of h' k = Some 0 ↔ index_of h k = Some 0).

(** Heap order of a view for the slot pairs whose parent slot is at least
    [i0]. *)
Definition ord_from (lt : Z → Z → bool) (i0 : Z) (g : Z → option Z) : Prop :=
  ∀ c a b, 2 ≤ c → i0 ≤ parent c → g c = Some a → g (parent c) = Some b →
           lt a b = false.

(** Heap order everywhere except between [idx] and its parent, the children
    of [idx] being in order with that parent. *)
Definition up_inv (lt : Z → Z → bool) (g : Z → option Z) (idx : Z) : Prop :=
  (∀ c a b, 2 ≤ c → c ≠ idx → g c = Some a → g (parent c) = Some b →
            lt a b = false)
  ∧ (∀ c a b, 2 ≤ idx → parent c = idx → g c = Some a →
              g (parent idx) = Some b → lt a b = false).

(** Heap order from [i0] on except between [idx] and its children, those
    children being in order with the parent of [idx]. *)
Definition down_inv (lt : Z → Z → bool) (i0 : Z) (g : Z → option Z) (idx : Z)
  : Prop :=
  (∀ c a b, 2 ≤ c → i0 ≤ parent c → parent c ≠ idx →
            g c = Some a → g (parent c) = Some b → lt a b = false)
  ∧ (∀ c a b, 2 ≤ idx → i0 ≤ parent idx → parent c = idx → g c = Some a →
              g (parent idx) = Some b → lt a b = false).

(** The smaller child as the loop of [move_down] selects it: the slot and
    its key. *)
Definition min_child (lt : Z → Z → bool) (h : heap) (sz idx : Z)
  : option (Z * Z) :=
  left_key ← key_at h (left idx);
  if right idx <? sz then
    right_key ← key_at h (right idx);
    if lt right_key left_key then Some (right idx, right_key)
    else Some (left idx, left_key)
  else Some (left idx, left_key).

(** What an operation that keeps the capacity does to the membership of
    keys: [add] and [del] are the keys that become present and absent. *)
Definition absent_after (h h' : heap) (add del : Z → Prop) : Prop :=
  ∀ k, index_of h' k = Some 0
       ↔ ¬ add k ∧ (del k ∨ index_of h k = Some 0).

(** The [d]-th ancestor of a slot, and the slots of the subtree rooted at
    [i]. *)
Fixpoint anc (d : nat) (j : Z) : Z :=
  match d with
  | O => j
  | S d' => anc d' (parent j)
  end.

Definition desc (i j : Z) : Prop := ∃ d, anc d j = i.

(** What the traversal of the subtree rooted at [i] appends to the result of
    [find_le]: the keys of the subtree that do not sort after [key], each
    once. *)
Definition visited (lt : Z → Z → bool) (key : Z) (h : heap) (i : Z)
    (out : list Z) : Prop :=
  well_formed h → ordered lt h → strict_weak_order lt →
  NoDup out
  ∧ ∀ k, k ∈ out ↔ ∃ j, desc i j ∧ key_at h j = Some k ∧ lt key k = false.

(** [m] keeps the length of the index array, whatever the heap it runs on. *)
Definition keeps_capacity {A} (m : M A) : Prop :=
  ∀ h x h', m h = Some (x, h') → length (m_indices h') = length (m_indices h).


(** *** A decision procedure for the invariant *)

(** Every non-zero index entry points at the slot that holds its key. *)
Definition indices_back (h : heap) : bool :=
  forallb
    (λ k, match index_of h k with
          | Some i =>
              (i =? 0)
              || match key_at h i with
                 | Some k' => k' =? k
                 | None => false
                 end
          | None => true
          end)
    (seqZ 0 (Vec.size (m_indices h))).

Definition heap_inv_b (lt : Z → Z → bool) (h : heap) : bool :=
  (1 <=? Vec.size (m_keys h)) && check_invariant lt h && indices_back h.

(** *** Comparators and heaps used as examples *)

(** Ascending integer order. *)
Definition int_lt : Z → Z → bool := Z.ltb.

(** An order with ties: [2 * k] and [2 * k + 1] have the same priority. *)
Definition half_lt (a b : Z) : bool := a / 2 <? b / 2.

(** Capacity 5 after [insert(4); insert(1); insert(3)]. *)
Definition heap_413 : heap := Heap [-1; 1; 4; 3] [0; 1; 0; 3; 2].

(** Capacity 5 after the insertion of 0, 1, 2, 3, 4. *)
Definition heap_01234 : heap := Heap [-1; 0; 1; 2; 3; 4] [1; 2; 3; 4; 5].

(** Capacity 4 after [insert(2); insert(3)] under [half_lt]: the two keys
    are tied. *)
Definition heap_tie : heap := Heap [-1; 2; 3] [0; 0; 1; 2].

(** The scenario of the specification up to [erase(3)], with the values
    observed on the way. *)
Definition scenario : M (Z * Z * Z * Z) :=
  insert int_lt 4;;
  insert int_lt 1;;
  insert int_lt 3;;
  m1 ← call min_value;
  r1 ← erase_min int_lt;
  m2 ← call min_value;
  insert int_lt 0;;
  m3 ← call min_value;
  erase int_lt 3;;
  mret (m1, r1, m2, m3).

(** *** More clients *)

(** The caller's loop [for (int k : l) h.insert(k)]. *)
Fixpoint insert_all (lt : Z → Z → bool) (l : list Z) : M unit :=
  match l with
  | [] => mret tt
  | k :: l' => insert lt k;; insert_all lt l'
  end.

(** The caller's loop
    [for (it = h.begin(); it != h.end(); ++it) out.push_back( *it)]. *)
Definition elements (h : heap) : option (list Z) :=
  mapM (Vec.get (m_keys h)) (seqZ (begin h) (end_ h - begin h)).

(** A comparator that reads the priority of a key from a table. *)
Definition by_priority (p : Z → Z) (a b : Z) : bool := p a <? p b.

(** The priorities of ascending integer order, except that key 4 has been
    given the priority -1. *)
Definition bumped_4 (k : Z) : Z := if k =? 4 then -1 else k.

(** Capacity 5 with the keys 4, 3 and 1 in the slots 1, 2 and 3: the two
    vectors are consistent, the keys are not in heap order for [int_lt]. *)
Definition heap_431 : heap := Heap [-1; 4; 3; 1] [0; 3; 0; 2; 1].

(** A comparator under which all keys are tied. *)
Definition all_tied (a b : Z) : bool := false.

(** The priorities of ascending integer order, except that key 1 has been
    given the priority 9. *)
Definition sunk_1 (k : Z) : Z := if k =? 1 then 9 else k.

(** * Proofs *)

(** ** Slot arithmetic *)

Lemma left_eq i : left i = 2 * i.
Proof. unfold left. rewrite Z.shiftl_mul_pow2 by lia. lia. Qed.

Lemma right_eq i : right i = 2 * i + 1.
Proof. unfold right. rewrite Z.shiftl_mul_pow2 by lia. lia. Qed.

Lemma parent_eq i : parent i = i / 2.
Proof. unfold parent. rewrite Z.shiftr_div_pow2 by lia. reflexivity. Qed.

(** Linear arithmetic over slot numbers. *)
Ltac slots_norm :=
  repeat match goal with
  | H : context [left ?i] |- _ => rewrite (left_eq i) in H
  | H : context [right ?i] |- _ => rewrite (right_eq i) in H
  | H : context [parent ?i] |- _ => rewrite (parent_eq i) in H
  | |- context [left ?i] => rewrite (left_eq i)
  | |- context [right ?i] => rewrite (right_eq i)
  | |- context [parent ?i] => rewrite (parent_eq i)
  end.

Ltac slots := slots_norm; Z.div_mod_to_equations; lia.

Lemma parent_left i : parent (left i) = i.
Proof. slots. Qed.

Lemma parent_right i : parent (right i) = i.
Proof. slots. Qed.

Lemma parent_child c i : parent c = i → c = left i ∨ c = right i.
Proof. intros. slots. Qed.

(** ** Vectors *)

Lemma get_Some v i x : Vec.get v i = Some x → 0 ≤ i < Vec.size v.
Proof.
  unfold Vec.get, Vec.size. destruct (decide (0 ≤ i)); [|done].
  intros Hl%lookup_lt_Some. lia.
Qed.

Lemma get_is_Some v i : 0 ≤ i < Vec.size v → ∃ x, Vec.get v i = Some x.
Proof.
  unfold Vec.get, Vec.size. intros Hi. rewrite decide_True by lia.
  destruct (lookup_lt_is_Some_2 v (Z.to_nat i)) as [x Hx]; [lia|eauto].
Qed.

Lemma get_None v i : ¬ (0 ≤ i < Vec.size v) → Vec.get v i = None.
Proof.
  unfold Vec.get, Vec.size. intros Hi. destruct (decide (0 ≤ i)); [|done].
  apply lookup_ge_None_2. lia.
Qed.

Lemma set_Some v i x :
  0 ≤ i < Vec.size v → Vec.set v i x = Some (<[Z.to_nat i := x]> v).
Proof. unfold Vec.set. intros Hi. by rewrite decide_True. Qed.

Lemma set_None v i x : ¬ (0 ≤ i < Vec.size v) → Vec.set v i x = None.
Proof. unfold Vec.set. intros Hi. by rewrite decide_False. Qed.

Lemma size_insert v (i : nat) x : Vec.size (<[i := x]> v) = Vec.size v.
Proof. unfold Vec.size. by rewrite length_insert. Qed.

Lemma get_insert v i j x :
  0 ≤ i < Vec.size v →
  Vec.get (<[Z.to_nat i := x]> v) j
  = if decide (j = i) then Some x else Vec.get v j.
Proof.
  unfold Vec.get, Vec.size. intros Hi. destruct (decide (j = i)) as [->|Hj].
  - rewrite decide_True by lia. apply list_lookup_insert_eq. lia.
  - destruct (decide (0 ≤ j)); [|done]. apply list_lookup_insert_ne. lia.
Qed.

Lemma size_push_back v x : Vec.size (Vec.push_back v x) = Vec.size v + 1.
Proof. unfold Vec.size, Vec.push_back. rewrite length_app. simpl. lia. Qed.

Lemma get_push_back v x j :
  Vec.get (Vec.push_back v x) j
  = if decide (j = Vec.size v) then Some x else Vec.get v j.
Proof.
  unfold Vec.get, Vec.size, Vec.push_back.
  destruct (decide (j = Z.of_nat (length v))) as [->|Hj].
  - rewrite decide_True by lia. rewrite Nat2Z.id. by apply list_lookup_middle.
  - destruct (decide (0 ≤ j)); [|done].
    destruct (decide (Z.to_nat j < length v)%nat).
    + by rewrite lookup_app_l.
    + rewrite !lookup_ge_None_2; [done|lia|]. rewrite length_app. simpl. lia.
Qed.

Lemma removelast_snoc (v : list Z) x : removelast (v ++ [x]) = v.
Proof. rewrite removelast_app by done. simpl. apply app_nil_r. Qed.

Lemma vec_snoc (v : list Z) :
  1 ≤ Vec.size v → ∃ v' x, v = v' ++ [x] ∧ Vec.size v' = Vec.size v - 1.
Proof.
  unfold Vec.size. destruct v as [|a v] using rev_ind; simpl; [lia|].
  intros _. eexists _, _. split; [done|]. rewrite length_app. simpl. lia.
Qed.

Lemma pop_back_snoc (v : list Z) x : Vec.pop_back (v ++ [x]) = Some v.
Proof.
  unfold Vec.pop_back. rewrite removelast_snoc. by destruct v.
Qed.

Lemma back_snoc (v : list Z) x : Vec.back (v ++ [x]) = Some x.
Proof. apply last_snoc. Qed.

Lemma get_snoc_l (v : list Z) x j :
  j ≠ Vec.size v → Vec.get (v ++ [x]) j = Vec.get v j.
Proof.
  intros Hj. change (v ++ [x]) with (Vec.push_back v x).
  rewrite get_push_back. by rewrite decide_False.
Qed.

Lemma get_snoc_r (v : list Z) x : Vec.get (v ++ [x]) (Vec.size v) = Some x.
Proof.
  change (v ++ [x]) with (Vec.push_back v x).
  rewrite get_push_back. by rewrite decide_True.
Qed.

Lemma get_replicate n (x : Z) i y :
  Vec.get (replicate n x) i = Some y → y = x.
Proof.
  unfold Vec.get. destruct (decide (0 ≤ i)); [|done].
  intros [-> _]%lookup_replicate. done.
Qed.

Lemma resize_grow (v : list Z) s x :
  Vec.size v ≤ s < 2 ^ 32 →
  Vec.resize v s x = v ++ replicate (Z.to_nat s - length v) x.
Proof.
  unfold Vec.resize, Vec.size. intros Hs.
  rewrite Z.mod_small by lia. rewrite take_ge by lia. done.
Qed.

Lemma get_app_replicate (v : list Z) n i y :
  Vec.get (v ++ replicate n 0) i = Some y →
  Vec.get v i = Some y ∨ (Vec.size v ≤ i ∧ y = 0).
Proof.
  unfold Vec.get, Vec.size. destruct (decide (0 ≤ i)); [|done].
  intros Hy. destruct (decide (Z.to_nat i < length v)%nat).
  - left. by rewrite lookup_app_l in Hy.
  - right. rewrite lookup_app_r in Hy by lia.
    apply lookup_replicate in Hy as [-> _]. lia.
Qed.

Lemma get_app_l (v w : list Z) i y :
  Vec.get v i = Some y → Vec.get (v ++ w) i = Some y.
Proof.
  unfold Vec.get. destruct (decide (0 ≤ i)); [|done].
  intros Hy. rewrite lookup_app_l; [done|]. by eapply lookup_lt_Some.
Qed.

(** ** The monad *)

Lemma bind_Some {A B} (m : M A) (f : A → M B) h r :
  (m ≫= f) h = Some r ↔ ∃ x h', m h = Some (x, h') ∧ f x h' = Some r.
Proof.
  unfold mbind, M_bind. destruct (m h) as [[x h']|]; split.
  - eauto.
  - by intros (? & ? & [= <- <-] & ?).
  - done.
  - by intros (? & ? & ? & ?).
Qed.

Lemma bind_run {A B} (m : M A) (f : A → M B) h x h' :
  m h = Some (x, h') → (m ≫= f) h = f x h'.
Proof. unfold mbind, M_bind. by intros ->. Qed.

Lemma bind_ret {A B} (x : A) (f : A → M B) h : (mret x ≫= f) h = f x h.
Proof. done. Qed.

Lemma bind_assoc {A B C} (m : M A) (f : A → M B) (g : B → M C) h :
  ((m ≫= f) ≫= g) h = (m ≫= (λ x, f x ≫= g)) h.
Proof. unfold mbind, M_bind. by destruct (m h) as [[x h']|]. Qed.

Lemma keys_at_run h i k : key_at h i = Some k → keys_at i h = Some (k, h).
Proof. unfold key_at, keys_at, lift. by intros ->. Qed.

Lemma indices_at_run h k i :
  index_of h k = Some i → indices_at k h = Some (i, h).
Proof. unfold index_of, indices_at, lift. by intros ->. Qed.

Lemma store_run h idx x :
  0 ≤ idx < Vec.size (m_keys h) → 0 ≤ x < Vec.size (m_indices h) →
  (keys_put idx x;; indices_put x idx) h = Some (tt, store h idx x).
Proof.
  intros Hi Hx. unfold mbind, M_bind, keys_put, indices_put, store.
  rewrite set_Some by done. simpl. by rewrite set_Some.
Qed.

Lemma key_at_store h idx x i :
  0 ≤ idx < Vec.size (m_keys h) →
  key_at (store h idx x) i = if decide (i = idx) then Some x else key_at h i.
Proof. intros. unfold key_at, store. simpl. by apply get_insert. Qed.

Lemma index_of_store h idx x k :
  0 ≤ x < Vec.size (m_indices h) →
  index_of (store h idx x) k
  = if decide (k = x) then Some idx else index_of h k.
Proof. intros. unfold index_of, store. simpl. by apply get_insert. Qed.

Lemma keys_size_store h idx x :
  Vec.size (m_keys (store h idx x)) = Vec.size (m_keys h).
Proof. apply size_insert. Qed.

Lemma indices_size_store h idx x :
  Vec.size (m_indices (store h idx x)) = Vec.size (m_indices h).
Proof. apply size_insert. Qed.

Lemma key_at_Some h i k : key_at h i = Some k → 0 ≤ i < Vec.size (m_keys h).
Proof. apply get_Some. Qed.

Lemma index_of_Some h k i :
  index_of h k = Some i → 0 ≤ k < Vec.size (m_indices h).
Proof. apply get_Some. Qed.

(** ** Frames *)

Lemma same_frame_refl h : same_frame h h.
Proof. by repeat split. Qed.

Lemma same_frame_trans h1 h2 h3 :
  same_frame h1 h2 → same_frame h2 h3 → same_frame h1 h3.
Proof.
  intros (Hk1 & Hi1 & Hz1) (Hk2 & Hi2 & Hz2). repeat split; try congruence.
  - intros ?%Hz2. by apply Hz1.
  - intros ?%Hz1. by apply Hz2.
Qed.

Lemma same_frame_keys_size h h' :
  same_frame h h' → Vec.size (m_keys h') = Vec.size (m_keys h).
Proof. intros (Hk & _). unfold Vec.size. by rewrite Hk. Qed.

Lemma same_frame_indices_size h h' :
  same_frame h h' → Vec.size (m_indices h') = Vec.size (m_indices h).
Proof. intros (_ & Hi & _). unfold Vec.size. by rewrite Hi. Qed.

Lemma same_frame_store h idx x i :
  index_of h x = Some i → i ≠ 0 → idx ≠ 0 → same_frame h (store h idx x).
Proof.
  intros Hx Hi Hidx. pose proof (index_of_Some _ _ _ Hx) as Hr.
  repeat split.
  - unfold store. simpl. by rewrite length_insert.
  - unfold store. simpl. by rewrite length_insert.
  - rewrite index_of_store by done. destruct (decide (k = x)) as [->|]; [|done].
    intros [= ->]. done.
  - rewrite index_of_store by done. destruct (decide (k = x)) as [->|]; [|done].
    congruence.
Qed.

(** ** Well-formedness around a hole *)

Lemma hole_open h idx key :
  well_formed h → 1 ≤ idx → key_at h idx = Some key → hole h idx key.
Proof.
  intros (Hsz & Hki & Hik) Hidx Hkey.
  pose proof (key_at_Some _ _ _ Hkey) as Hr.
  split; [lia|]. split; [|split].
  - exists idx. split; [lia|]. by apply Hki.
  - intros i k Hi Hne Hk. split; [|by apply Hki].
    intros ->. apply Hki in Hkey; [|done]. apply Hki in Hk; [|done]. congruence.
  - intros k i Hne Hk Hi. split; [|by apply Hik].
    intros ->. apply Hik in Hk; [|done]. congruence.
Qed.

Lemma hole_shift h idx key j x :
  hole h idx key → 1 ≤ j → j ≠ idx → key_at h j = Some x →
  hole (store h idx x) j key ∧ same_frame h (store h idx x).
Proof.
  intros (Hidx & (x0 & Hx0 & Hkey) & Hki & Hik) Hj Hne Hx.
  destruct (Hki _ _ Hj Hne Hx) as [Hxk Hxi].
  pose proof (key_at_Some _ _ _ Hx) as Hjr.
  pose proof (index_of_Some _ _ _ Hxi) as Hxr.
  split; [|eapply same_frame_store; eauto; lia].
  split; [rewrite keys_size_store; lia|]. split; [|split].
  - exists x0. split; [done|]. rewrite index_of_store by done.
    by rewrite decide_False.
  - intros i k Hi Hij. rewrite key_at_store by lia.
    rewrite index_of_store by done.
    destruct (decide (i = idx)) as [->|Hii].
    + intros [= <-]. by rewrite decide_True.
    + intros Hk. destruct (Hki _ _ Hi Hii Hk) as [Hkk Hi'].
      split; [done|]. rewrite decide_False; [done|]. congruence.
  - intros k i Hkk. rewrite key_at_store by lia.
    rewrite index_of_store by done.
    destruct (decide (k = x)) as [->|Hkx].
    + intros [= <-] _. by rewrite decide_True.
    + intros Hk Hi. destruct (Hik _ _ Hkk Hk Hi) as [Hi' Hk'].
      rewrite decide_False by done. split; [congruence|done].
Qed.

Lemma hole_close h idx key :
  hole h idx key →
  well_formed (store h idx key) ∧ same_frame h (store h idx key).
Proof.
  intros (Hidx & (x0 & Hx0 & Hkey) & Hki & Hik).
  pose proof (index_of_Some _ _ _ Hkey) as Hkr.
  split; [|eapply same_frame_store; eauto; lia].
  repeat split.
  - rewrite keys_size_store. lia.
  - intros i k Hi. rewrite key_at_store by lia. rewrite index_of_store by done.
    destruct (decide (i = idx)) as [->|Hne].
    + intros [= <-]. by rewrite decide_True.
    + intros Hk. destruct (Hki _ _ Hi Hne Hk) as [Hkk Hii].
      by rewrite decide_False.
  - intros k i. rewrite key_at_store by lia. rewrite index_of_store by done.
    destruct (decide (k = key)) as [->|Hne].
    + intros [= <-] _. by rewrite decide_True.
    + intros Hk Hi. destruct (Hik _ _ Hne Hk Hi) as [Hii Hkk].
      by rewrite decide_False.
Qed.

(** ** The comparator *)

Section Order.

Variable lt : Z → Z → bool.
Hypothesis Hlt : strict_weak_order lt.

Lemma lt_asym a b : lt a b = true → lt b a = false.
Proof. apply Hlt. Qed.

Lemma lt_irrefl a : lt a a = false.
Proof.
  destruct (lt a a) eqn:E; [|done]. pose proof (lt_asym _ _ E). congruence.
Qed.

Lemma lt_negtrans a b c : lt a b = false → lt b c = false → lt a c = false.
Proof. apply Hlt. Qed.

Lemma lt_trans a b c : lt a b = true → lt b c = true → lt a c = true.
Proof.
  intros Hab Hbc. destruct (lt a c) eqn:E; [done|].
  pose proof (lt_negtrans _ _ _ E (lt_asym _ _ Hbc)). congruence.
Qed.

(** [a] not before [b], [c] before [b]: then [a] is not before [c]. *)
Lemma lt_below a b c : lt a b = false → lt c b = true → lt a c = false.
Proof.
  intros Hab Hcb. destruct (lt a c) eqn:E; [|done].
  pose proof (lt_trans _ _ _ E Hcb). congruence.
Qed.

End Order.

(** ** Heap order under one exchange *)

Section Views.

Variable lt : Z → Z → bool.

Lemma ordered_ord_from h : ordered lt h ↔ ord_from lt 1 (key_at h).
Proof.
  unfold ordered, ord_from. split; intros H c a b Hc.
  - intros _. by apply H.
  - apply H; [done|]. slots.
Qed.

Lemma ord_from_ext i0 g g' :
  (∀ i, g' i = g i) → ord_from lt i0 g → ord_from lt i0 g'.
Proof. intros E H c a b. rewrite !E. apply H. Qed.

Lemma up_inv_ext g g' idx :
  (∀ i, g' i = g i) → up_inv lt g idx → up_inv lt g' idx.
Proof.
  intros E [H1 H2]. split; intros c a b; rewrite !E; [apply H1|apply H2].
Qed.

Lemma down_inv_ext i0 g g' idx :
  (∀ i, g' i = g i) → down_inv lt i0 g idx → down_inv lt i0 g' idx.
Proof.
  intros E [H1 H2]. split; intros c a b; rewrite !E; [apply H1|apply H2].
Qed.

Hypothesis Hlt : strict_weak_order lt.

(** The sift-up loop stops: the view is in heap order. *)
Lemma up_inv_stop g idx key pk :
  up_inv lt g idx → g idx = Some key → g (parent idx) = Some pk →
  (parent idx =? 0) || negb (lt key pk) = true →
  ord_from lt 1 g.
Proof.
  intros [H1 _] Hk Hp Hc c a b Hc2 Hpc Ha Hb.
  destruct (decide (c = idx)) as [->|Hne]; [|by eapply H1].
  apply orb_true_iff in Hc as [Hc|Hc]; [apply Z.eqb_eq in Hc; lia|].
  apply negb_true_iff in Hc. congruence.
Qed.

(** The sift-up loop moves the parent's key down. *)
Lemma up_inv_step g g' idx key pk :
  up_inv lt g idx → 2 ≤ idx → g idx = Some key → g (parent idx) = Some pk →
  lt key pk = true →
  (∀ i, g' i = if decide (i = parent idx) then Some key
               else if decide (i = idx) then Some pk else g i) →
  up_inv lt g' (parent idx).
Proof.
  intros [H1 H2] Hidx Hk Hp Hc E.
  assert (parent idx ≠ idx) as Hpi by slots.
  split.
  - intros c a b Hc2 Hcp. rewrite !E. rewrite (decide_False _ _ Hcp).
    destruct (decide (c = idx)) as [->|Hci].
    + rewrite decide_True by done. intros [= <-] [= <-].
      by apply (lt_asym lt Hlt).
    + destruct (decide (parent c = parent idx)) as [Hpp|Hpp].
      * intros Ha [= <-]. apply (lt_below lt Hlt _ pk); [|done].
        apply (H1 c a pk); [done|done|done|]. by rewrite Hpp.
      * destruct (decide (parent c = idx)) as [Hpc|Hpc].
        -- intros Ha [= <-]. eapply H2; eauto.
        -- intros Ha Hb. eapply H1; eauto.
  - intros c a b Hp2 Hcp. rewrite !E.
    assert (parent (parent idx) ≠ parent idx) as Hn1 by slots.
    assert (parent (parent idx) ≠ idx) as Hn2 by slots.
    rewrite (decide_False _ _ Hn1), (decide_False _ _ Hn2).
    assert (c ≠ parent idx) as Hn3 by slots.
    rewrite (decide_False _ _ Hn3).
    destruct (decide (c = idx)) as [->|Hci].
    + intros [= <-] Hb. by apply (H1 (parent idx) pk b).
    + intros Ha Hb. apply (lt_negtrans lt Hlt _ pk).
      * apply (H1 c a pk); [slots|done|done|by rewrite Hcp].
      * by apply (H1 (parent idx) pk b).
Qed.

(** The sift-down loop stops at a slot without children. *)
Lemma down_inv_leaf i0 g idx :
  down_inv lt i0 g idx →
  (∀ c, parent c = idx → c ≠ idx → g c = None) →
  1 ≤ idx →
  ord_from lt i0 g.
Proof.
  intros [H1 _] Hleaf Hidx c a b Hc Hi0 Ha Hb.
  destruct (decide (parent c = idx)) as [Hp|Hp]; [|by eapply H1].
  rewrite Hleaf in Ha; [done|done|slots].
Qed.

(** The sift-down loop stops above a smallest child that sorts after the
    moving key. *)
Lemma down_inv_stop i0 g idx key mk :
  down_inv lt i0 g idx → g idx = Some key →
  (∀ c a, parent c = idx → 2 ≤ c → g c = Some a → lt a mk = false) →
  lt key mk = true →
  ord_from lt i0 g.
Proof.
  intros [H1 _] Hk Hmin Hc c a b Hc2 Hi0 Ha Hb.
  destruct (decide (parent c = idx)) as [Hp|Hp]; [|by eapply H1].
  rewrite Hp, Hk in Hb. injection Hb as <-.
  eapply (lt_below lt Hlt); eauto.
Qed.

(** The sift-down loop moves the smallest child up. *)
Lemma down_inv_step i0 g g' idx key m mk :
  down_inv lt i0 g idx → 1 ≤ idx → i0 ≤ idx →
  g idx = Some key → parent m = idx → 2 ≤ m → g m = Some mk →
  (∀ c a, parent c = idx → 2 ≤ c → g c = Some a → lt a mk = false) →
  lt key mk = false →
  (∀ i, g' i = if decide (i = m) then Some key
               else if decide (i = idx) then Some mk else g i) →
  down_inv lt i0 g' m.
Proof.
  intros [H1 H2] Hidx Hi0 Hk Hpm Hm Hmk Hmin Hc E.
  assert (m ≠ idx) as Hmi by slots.
  split.
  - intros c a b Hc2 Hpc Hcm. rewrite !E. rewrite (decide_False _ _ Hcm).
    destruct (decide (c = m)) as [->|Hne].
    + rewrite Hpm, decide_True by done. by intros [= <-] [= <-].
    + destruct (decide (parent c = idx)) as [Hp|Hp].
      * rewrite decide_False by slots. intros Ha [= <-]. by eapply Hmin.
      * destruct (decide (c = idx)) as [->|Hci].
        -- intros [= <-] Hb. by apply (H2 m mk b).
        -- intros Ha Hb. by apply (H1 c a b).
  - intros c a b Hm2 Hpm' Hcm. rewrite !E. rewrite Hpm.
    destruct (decide (idx = m)); [done|].
    destruct (decide (idx = idx)); [|done].
    destruct (decide (c = m)); [slots|].
    destruct (decide (c = idx)); [slots|].
    intros Ha [= <-]. apply (H1 c a mk); [slots|slots|slots|done|].
    by rewrite Hcm.
Qed.

End Views.

(** ** The sift loops *)

Section Sift.

Variable lt : Z → Z → bool.

Lemma filled_store h idx key j x i :
  0 ≤ idx < Vec.size (m_keys h) → key_at h j = Some x → j ≠ idx →
  filled (store h idx x) j key i
  = if decide (i = j) then Some key
    else if decide (i = idx) then Some x else filled h idx key i.
Proof.
  intros Hidx Hx Hne. unfold filled. rewrite key_at_store by done.
  destruct (decide (i = j)); [done|]. by destruct (decide (i = idx)).
Qed.

Lemma filled_self h idx key i :
  key_at h idx = Some key → filled h idx key i = key_at h i.
Proof. intros Hk. unfold filled. by destruct (decide (i = idx)) as [->|]. Qed.

Lemma key_at_store_filled h idx key i :
  0 ≤ idx < Vec.size (m_keys h) →
  key_at (store h idx key) i = filled h idx key i.
Proof. intros. by rewrite key_at_store. Qed.

(** One iteration of the loop of [move_up], by cases on its test. *)
Lemma move_up_loop_stop f key idx h pk :
  key_at h (parent idx) = Some pk →
  (parent idx =? 0) || negb (lt key pk) = true →
  move_up_loop lt (S f) key idx h = Some (idx, h).
Proof.
  intros Hp Hc. cbn [move_up_loop].
  rewrite (bind_run _ _ _ _ _ (keys_at_run _ _ _ Hp)).
  unfold less_than. by rewrite Hc.
Qed.

Lemma move_up_loop_step f key idx h pk :
  key_at h (parent idx) = Some pk →
  (parent idx =? 0) || negb (lt key pk) = false →
  0 ≤ idx < Vec.size (m_keys h) → 0 ≤ pk < Vec.size (m_indices h) →
  move_up_loop lt (S f) key idx h
  = move_up_loop lt f key (parent idx) (store h idx pk).
Proof.
  intros Hp Hc Hidx Hpk. cbn [move_up_loop].
  rewrite (bind_run _ _ _ _ _ (keys_at_run _ _ _ Hp)).
  unfold less_than. rewrite Hc.
  pose proof (store_run h idx pk Hidx Hpk) as Hs.
  unfold mbind, M_bind in *.
  destruct (keys_put idx pk h) as [[[] h1]|]; [|done].
  destruct (indices_put pk idx h1) as [[[] h2]|]; [|done].
  by injection Hs as ->.
Qed.

Lemma move_up_loop_spec fuel : ∀ h idx key,
  hole h idx key → (Z.to_nat idx < fuel)%nat →
  ∃ idx' h',
    move_up_loop lt fuel key idx h = Some (idx', h')
    ∧ hole h' idx' key ∧ same_frame h h' ∧ 1 ≤ idx' ≤ idx
    ∧ (strict_weak_order lt → up_inv lt (filled h idx key) idx →
       ord_from lt 1 (filled h' idx' key)).
Proof.
  induction fuel as [|f IH]; intros h idx key Hh Hf; [lia|].
  pose proof Hh as (Hidx & _ & Hki & _).
  destruct (get_is_Some (m_keys h) (parent idx)) as [pk Hp]; [slots|].
  fold (key_at h (parent idx)) in Hp.
  destruct ((parent idx =? 0) || negb (lt key pk)) eqn:Hc.
  - exists idx, h. rewrite (move_up_loop_stop _ _ _ _ _ Hp Hc).
    split; [done|]. split; [done|]. split; [apply same_frame_refl|].
    split; [lia|]. intros Hlt Hup.
    eapply (up_inv_stop lt _ idx key pk); eauto.
    + unfold filled. by rewrite decide_True.
    + unfold filled. rewrite decide_False; [done|]. slots.
  - apply orb_false_iff in Hc as Hc'. destruct Hc' as [Hp0 Hlt'].
    apply Z.eqb_neq in Hp0. apply negb_false_iff in Hlt'.
    assert (1 ≤ parent idx ∧ parent idx ≠ idx ∧ 2 ≤ idx) as (Hp1 & Hpi & Hi2)
      by slots.
    destruct (Hki _ _ Hp1 Hpi Hp) as [_ Hpki].
    pose proof (index_of_Some _ _ _ Hpki) as Hpkr.
    rewrite (move_up_loop_step _ _ _ _ _ Hp Hc); [|lia|done].
    destruct (hole_shift _ _ _ _ _ Hh Hp1 Hpi Hp) as [Hh1 Hfr1].
    destruct (IH _ _ _ Hh1) as (idx' & h' & Hrun & Hh' & Hfr' & Hle & Hord);
      [slots|].
    exists idx', h'. split; [done|]. split; [done|].
    split; [by eapply same_frame_trans|]. split; [slots|].
    intros Hlt Hup. apply Hord; [done|].
    eapply (up_inv_step lt Hlt _ _ idx key pk); eauto.
    + unfold filled. by rewrite decide_True.
    + unfold filled. by rewrite decide_False.
    + intros i. apply filled_store; [lia|done|done].
Qed.

Lemma move_up_spec h idx :
  well_formed h → 1 ≤ idx < Vec.size (m_keys h) →
  ∃ h',
    move_up lt idx h = Some (tt, h')
    ∧ well_formed h' ∧ same_frame h h'
    ∧ (strict_weak_order lt → up_inv lt (key_at h) idx → ordered lt h').
Proof.
  intros Hwf Hidx.
  destruct (get_is_Some (m_keys h) idx) as [key Hk]; [lia|].
  fold (key_at h idx) in Hk.
  pose proof (hole_open _ _ _ Hwf (proj1 Hidx) Hk) as Hh.
  destruct (move_up_loop_spec (S (Z.to_nat idx)) _ _ _ Hh)
    as (idx' & h1 & Hrun & Hh1 & Hfr1 & Hle & Hord); [lia|].
  destruct (hole_close _ _ _ Hh1) as [Hwf' Hfr'].
  pose proof Hh1 as (Hidx' & (x0 & _ & Hx0) & _).
  exists (store h1 idx' key). unfold move_up.
  rewrite (bind_run _ _ _ _ _ (keys_at_run _ _ _ Hk)).
  rewrite (bind_run _ _ _ _ _ Hrun).
  rewrite store_run; [|lia|by eapply index_of_Some].
  split; [done|]. split; [done|]. split; [by eapply same_frame_trans|].
  intros Hlt Hup. apply ordered_ord_from.
  eapply ord_from_ext; [|apply Hord; [done|]].
  - intros i. apply key_at_store_filled. lia.
  - eapply up_inv_ext; [|done]. intros i. by apply filled_self.
Qed.

Lemma move_down_loop_leaf f key sz idx h :
  sz ≤ left idx → move_down_loop lt (S f) key sz idx h = Some (idx, h).
Proof.
  intros Hl. cbn [move_down_loop]. by rewrite (proj2 (Z.leb_le _ _) Hl).
Qed.

Lemma move_down_loop_body f key sz idx h m mk :
  left idx < sz → min_child lt h sz idx = Some (m, mk) →
  move_down_loop lt (S f) key sz idx h
  = if lt key mk then Some (idx, h)
    else (keys_put idx mk;; indices_put mk idx;;
          move_down_loop lt f key sz m) h.
Proof.
  intros Hl Hm. cbn [move_down_loop].
  rewrite (proj2 (Z.leb_gt _ _) Hl).
  unfold min_child in Hm.
  destruct (key_at h (left idx)) as [lk|] eqn:Hlk; [|done]. simpl in Hm.
  rewrite (bind_run _ _ _ _ _ (keys_at_run _ _ _ Hlk)).
  unfold less_than.
  assert (∀ B (k : Z → M B),
    ((if right idx <? sz
      then right_key ← keys_at (right idx);
           mret (if lt right_key lk then right idx else left idx)
      else mret (left idx)) ≫= k) h = k m h
    ∧ key_at h m = Some mk ∧ parent m = idx) as Hsel.
  { intros B k. destruct (right idx <? sz).
    - destruct (key_at h (right idx)) as [rk|] eqn:Hrk; [|done]. simpl in Hm.
      rewrite bind_assoc, (bind_run _ _ _ _ _ (keys_at_run _ _ _ Hrk)).
      rewrite bind_ret.
      destruct (lt rk lk); injection Hm as <- <-;
        (split; [done|]); (split; [done|]);
        [apply parent_right|apply parent_left].
    - injection Hm as <- <-. rewrite bind_ret.
      split; [done|]. split; [done|apply parent_left]. }
  destruct (Hsel _ (λ min_idx, sassert (parent min_idx =? idx);;
        min_key ← keys_at min_idx;
        if lt key min_key then mret idx
        else keys_put idx min_key;; indices_put min_key idx;;
             move_down_loop lt f key sz min_idx)) as (-> & Hmk & Hpm).
  rewrite Hpm, Z.eqb_refl. unfold sassert. rewrite bind_ret.
  rewrite (bind_run _ _ _ _ _ (keys_at_run _ _ _ Hmk)).
  by destruct (lt key mk).
Qed.

Lemma min_child_spec h sz idx :
  sz = Vec.size (m_keys h) → 1 ≤ idx → left idx < sz →
  ∃ m mk,
    min_child lt h sz idx = Some (m, mk)
    ∧ parent m = idx ∧ 2 ≤ m < sz ∧ idx < m ∧ key_at h m = Some mk
    ∧ (strict_weak_order lt →
       ∀ c a, parent c = idx → 2 ≤ c → key_at h c = Some a → lt a mk = false).
Proof.
  intros -> Hidx Hl. unfold min_child.
  destruct (get_is_Some (m_keys h) (left idx)) as [lk Hlk]; [slots|].
  fold (key_at h (left idx)) in Hlk. rewrite Hlk. simpl.
  assert (∀ c a, parent c = idx → 2 ≤ c → key_at h c = Some a →
                 (c = left idx ∧ a = lk)
                 ∨ (c = right idx ∧ right idx < Vec.size (m_keys h)))
    as Hch.
  { intros c a Hp Hc Ha. apply parent_child in Hp as [->| ->].
    - left. split; [done|congruence].
    - right. split; [done|]. apply key_at_Some in Ha. lia. }
  destruct (right idx <? Vec.size (m_keys h)) eqn:Hr.
  - apply Z.ltb_lt in Hr.
    destruct (get_is_Some (m_keys h) (right idx)) as [rk Hrk]; [slots|].
    fold (key_at h (right idx)) in Hrk. rewrite Hrk. simpl.
    destruct (lt rk lk) eqn:Hc.
    + exists (right idx), rk. split; [done|]. split; [apply parent_right|].
      split; [slots|]. split; [slots|]. split; [done|].
      intros Hlt c a Hp Hc2 Ha.
      destruct (Hch _ _ Hp Hc2 Ha) as [[-> ->]|[-> _]].
      * by apply (lt_asym lt Hlt).
      * rewrite Hrk in Ha. injection Ha as <-. by apply (lt_irrefl lt Hlt).
    + exists (left idx), lk. split; [done|]. split; [apply parent_left|].
      split; [slots|]. split; [slots|]. split; [done|].
      intros Hlt c a Hp Hc2 Ha.
      destruct (Hch _ _ Hp Hc2 Ha) as [[-> ->]|[-> _]].
      * by apply (lt_irrefl lt Hlt).
      * rewrite Hrk in Ha. by injection Ha as <-.
  - apply Z.ltb_ge in Hr.
    exists (left idx), lk. split; [done|]. split; [apply parent_left|].
    split; [slots|]. split; [slots|]. split; [done|].
    intros Hlt c a Hp Hc2 Ha.
    destruct (Hch _ _ Hp Hc2 Ha) as [[-> ->]|[-> ?]]; [|lia].
    by apply (lt_irrefl lt Hlt).
Qed.

Lemma move_down_loop_spec fuel : ∀ h idx key sz,
  sz = Vec.size (m_keys h) →
  hole h idx key → (Z.to_nat (sz - idx) < fuel)%nat →
  ∃ idx' h',
    move_down_loop lt fuel key sz idx h = Some (idx', h')
    ∧ hole h' idx' key ∧ same_frame h h' ∧ idx ≤ idx'
    ∧ (∀ i, i < idx → key_at h' i = key_at h i)
    ∧ (∀ i0, strict_weak_order lt → i0 ≤ idx →
             down_inv lt i0 (filled h idx key) idx →
             ord_from lt i0 (filled h' idx' key)).
Proof.
  induction fuel as [|f IH]; intros h idx key sz Hsz Hh Hf; [lia|].
  pose proof Hh as (Hidx & _ & Hki & _).
  destruct (decide (sz ≤ left idx)) as [Hl|Hl].
  - exists idx, h. rewrite move_down_loop_leaf by done.
    split; [done|]. split; [done|]. split; [apply same_frame_refl|].
    split; [lia|]. split; [done|]. intros i0 Hlt Hi0 Hd.
    eapply down_inv_leaf; eauto; [|lia].
    intros c Hp Hci. unfold filled. rewrite decide_False by done.
    apply get_None. subst sz. slots.
  - destruct (min_child_spec h sz idx) as (m & mk & Hm & Hpm & Hmr & Him & Hmk & Hmin);
      [done|lia|lia|].
    assert (left idx < sz) as Hl' by lia.
    rewrite (move_down_loop_body _ _ _ _ _ _ _ Hl' Hm).
    destruct (lt key mk) eqn:Hc.
    + exists idx, h.
      split; [done|]. split; [done|]. split; [apply same_frame_refl|].
      split; [lia|]. split; [done|]. intros i0 Hlt Hi0 Hd.
      eapply (down_inv_stop lt Hlt _ _ idx key mk); eauto.
      * unfold filled. by rewrite decide_True.
      * intros c a Hp Hc2. unfold filled. rewrite decide_False by slots.
        by apply Hmin.
    + assert (1 ≤ m ∧ m ≠ idx) as [Hm1 Hmi] by lia.
      destruct (Hki _ _ Hm1 Hmi Hmk) as [_ Hmki].
      pose proof (index_of_Some _ _ _ Hmki) as Hmkr.
      destruct (hole_shift _ _ _ _ _ Hh Hm1 Hmi Hmk) as [Hh1 Hfr1].
      pose proof (store_run h idx mk ltac:(lia) Hmkr) as Hs.
      destruct (IH (store h idx mk) m key sz)
        as (idx' & h' & Hrun & Hh' & Hfr' & Hle & Hbelow & Hord);
        [by rewrite keys_size_store|done|lia|].
      exists idx', h'. split.
      { unfold mbind, M_bind in *.
        destruct (keys_put idx mk h) as [[[] h1]|]; [|done].
        destruct (indices_put mk idx h1) as [[[] h2]|]; [|done].
        by injection Hs as ->. }
      split; [done|]. split; [by eapply same_frame_trans|]. split; [lia|].
      split.
      { intros i Hi. rewrite Hbelow by lia. rewrite key_at_store by lia.
        by rewrite decide_False by lia. }
      intros i0 Hlt Hi0 Hd. apply Hord; [done|lia|].
      eapply (down_inv_step lt _ _ _ idx key m mk); eauto; try lia.
      * unfold filled. by rewrite decide_True.
      * unfold filled. by rewrite decide_False.
      * intros c a Hp Hc2. unfold filled. rewrite decide_False by slots.
        by apply Hmin.
      * intros i. apply filled_store; [lia|done|done].
Qed.

Lemma move_down_spec h idx :
  well_formed h → 1 ≤ idx < Vec.size (m_keys h) →
  ∃ h',
    move_down lt idx h = Some (tt, h')
    ∧ well_formed h' ∧ same_frame h h'
    ∧ (∀ i0, strict_weak_order lt → i0 ≤ idx →
             down_inv lt i0 (key_at h) idx → ord_from lt i0 (key_at h')).
Proof.
  intros Hwf Hidx.
  destruct (get_is_Some (m_keys h) idx) as [key Hk]; [lia|].
  fold (key_at h idx) in Hk.
  pose proof (hole_open _ _ _ Hwf (proj1 Hidx) Hk) as Hh.
  destruct (move_down_loop_spec (S (Z.to_nat (Vec.size (m_keys h)))) h idx key
              (Vec.size (m_keys h)) eq_refl Hh)
    as (idx' & h1 & Hrun & Hh1 & Hfr1 & Hle & _ & Hord); [lia|].
  destruct (hole_close _ _ _ Hh1) as [Hwf' Hfr'].
  pose proof Hh1 as (Hidx' & (x0 & _ & Hx0) & _).
  exists (store h1 idx' key). unfold move_down.
  rewrite (bind_run _ _ _ _ _ (keys_at_run _ _ _ Hk)).
  unfold keys_size at 1. unfold mbind at 1, M_bind at 1.
  rewrite (bind_run _ _ _ _ _ Hrun).
  rewrite store_run; [|lia|by eapply index_of_Some].
  split; [done|]. split; [done|]. split; [by eapply same_frame_trans|].
  intros i0 Hlt Hi0 Hd.
  eapply ord_from_ext; [|apply Hord; [done|done|]].
  - intros i. apply key_at_store_filled. lia.
  - eapply down_inv_ext; [|done]. intros i. by apply filled_self.
Qed.

End Sift.

(** ** Consequences of well-formedness *)

Lemma wf_key_inj h i j k :
  well_formed h → 1 ≤ i → 1 ≤ j →
  key_at h i = Some k → key_at h j = Some k → i = j.
Proof.
  intros (_ & Hki & _) Hi Hj Hik Hjk.
  apply Hki in Hik; [|done]. apply Hki in Hjk; [|done]. congruence.
Qed.

Lemma wf_slot h k i :
  well_formed h → index_of h k = Some i → i ≠ 0 →
  1 ≤ i < Vec.size (m_keys h) ∧ key_at h i = Some k.
Proof.
  intros (_ & _ & Hik) Hk Hi. pose proof (Hik _ _ Hk Hi) as Hs.
  split; [|done]. apply key_at_Some in Hs. lia.
Qed.

Lemma contains_true h k :
  contains h k = Some true ↔ ∃ i, i ≠ 0 ∧ index_of h k = Some i.
Proof.
  unfold contains, index_of. split.
  - destruct (k <? Vec.size (m_indices h)); [|done].
    destruct (Vec.get (m_indices h) k) as [i|]; [|done]. simpl.
    intros [= Hi]. exists i. split; [|done].
    apply negb_true_iff in Hi. by apply Z.eqb_neq in Hi.
  - intros (i & Hi & Hk). pose proof (get_Some _ _ _ Hk) as Hr.
    rewrite (proj2 (Z.ltb_lt _ _)) by lia. rewrite Hk. simpl.
    by rewrite (proj2 (Z.eqb_neq _ _) Hi).
Qed.

Lemma contains_false h k :
  0 ≤ k →
  contains h k = Some false
  ↔ (Vec.size (m_indices h) ≤ k ∨ index_of h k = Some 0).
Proof.
  intros Hk. unfold contains, index_of.
  destruct (k <? Vec.size (m_indices h)) eqn:Hlt.
  - apply Z.ltb_lt in Hlt.
    destruct (get_is_Some (m_indices h) k) as [i Hi]; [lia|]. rewrite Hi. simpl.
    split.
    + intros [= Hz]. apply negb_false_iff, Z.eqb_eq in Hz. right. by subst.
    + intros [?|[= ->]]; [lia|done].
  - apply Z.ltb_ge in Hlt. split; [by left|done].
Qed.

(** ** The states between the vector updates of the operations *)

(** After [m_indices[key] = idx; m_keys.push_back(key)] in [insert]. *)
Lemma pushed_wf h key :
  well_formed h → index_of h key = Some 0 →
  let n := Vec.size (m_keys h) in
  let h1 := Heap (Vec.push_back (m_keys h) key)
                 (<[Z.to_nat key := n]> (m_indices h)) in
  well_formed h1
  ∧ (∀ i, key_at h1 i = if decide (i = n) then Some key else key_at h i)
  ∧ (∀ k, index_of h1 k = if decide (k = key) then Some n else index_of h k).
Proof.
  intros Hwf Hk n h1. pose proof Hwf as (Hsz & Hki & Hik).
  pose proof (index_of_Some _ _ _ Hk) as Hkr.
  assert (∀ i, key_at h1 i = if decide (i = n) then Some key else key_at h i)
    as Hkey by (intros i; apply get_push_back).
  assert (∀ k, index_of h1 k = if decide (k = key) then Some n
                               else index_of h k)
    as Hidx by (intros k; by apply get_insert).
  split; [|done]. split; [|split].
  - unfold h1. simpl. rewrite size_push_back. lia.
  - intros i k Hi. rewrite Hkey, Hidx.
    destruct (decide (i = n)) as [->|Hne].
    + intros [= <-]. by rewrite decide_True.
    + intros Hik'. rewrite decide_False; [by apply Hki|].
      intros ->. apply Hki in Hik'; [|done]. rewrite Hk in Hik'.
      injection Hik' as <-. lia.
  - intros k i. rewrite Hkey, Hidx.
    destruct (decide (k = key)) as [->|Hne].
    + intros [= <-] _. by rewrite decide_True.
    + intros Hk' Hi. pose proof (Hik _ _ Hk' Hi) as Hs.
      rewrite decide_False; [done|]. apply key_at_Some in Hs. lia.
Qed.

(** After [m_indices[key] = 0; m_keys.pop_back()] when [key] sits in the
    last slot. *)
Lemma popped_wf h key :
  well_formed h →
  let n := Vec.size (m_keys h) in
  2 ≤ n → key_at h (n - 1) = Some key →
  ∃ h1,
    (indices_put key 0;; keys_pop_back) h = Some (tt, h1)
    ∧ well_formed h1
    ∧ Vec.size (m_keys h1) = n - 1
    ∧ length (m_indices h1) = length (m_indices h)
    ∧ (∀ i, key_at h1 i = if decide (i = n - 1) then None else key_at h i)
    ∧ (∀ k, index_of h1 k = if decide (k = key) then Some 0
                            else index_of h k).
Proof.
  intros Hwf n Hn Hlast. pose proof Hwf as (Hsz & Hki & Hik).
  pose proof (Hki (n - 1) key ltac:(lia) Hlast) as Hkidx.
  pose proof (index_of_Some _ _ _ Hkidx) as Hkr.
  destruct (vec_snoc (m_keys h)) as (ks & x & Hks & Hkss); [lia|].
  exists (Heap ks (<[Z.to_nat key := 0]> (m_indices h))).
  assert (∀ i, Vec.get ks i
               = if decide (i = n - 1) then None else key_at h i) as Hkey.
  { intros i. unfold key_at. rewrite Hks.
    destruct (decide (i = n - 1)) as [->|Hne].
    - apply get_None. fold n in Hkss. lia.
    - rewrite get_snoc_l; [done|]. fold n in Hkss. lia. }
  assert (∀ k, Vec.get (<[Z.to_nat key := 0]> (m_indices h)) k
               = if decide (k = key) then Some 0 else index_of h k) as Hidx
    by (intros k; by apply get_insert).
  split.
  { unfold mbind, M_bind, indices_put, keys_pop_back.
    rewrite set_Some by done. simpl. rewrite Hks, pop_back_snoc. done. }
  split; [|split; [|split; [|done]]].
  - split; [|split].
    + simpl. fold n in Hkss. lia.
    + intros i k Hi. unfold key_at, index_of. simpl. rewrite Hkey, Hidx.
      destruct (decide (i = n - 1)); [done|]. intros Hik'.
      rewrite decide_False; [by apply Hki|].
      intros ->. pose proof (wf_key_inj h i (n - 1) _ Hwf Hi ltac:(lia) Hik' Hlast).
      lia.
    + intros k i. unfold key_at, index_of. simpl. rewrite Hkey, Hidx.
      destruct (decide (k = key)) as [->|Hne]; [by intros [= <-]|].
      intros Hk' Hi. pose proof (Hik _ _ Hk' Hi) as Hs.
      rewrite decide_False; [done|].
      intros ->. fold n in Hs. rewrite Hlast in Hs. congruence.
  - simpl. fold n in Hkss. lia.
  - simpl. by rewrite length_insert.
Qed.

(** After [m_keys[idx] = last_key; m_indices[last_key] = idx;
    m_indices[key] = 0; m_keys.pop_back()] when [key] sits in slot [idx],
    which is not the last one. *)
Lemma detached_wf h idx key last :
  well_formed h →
  let n := Vec.size (m_keys h) in
  1 ≤ idx < n - 1 → key_at h idx = Some key → key_at h (n - 1) = Some last →
  ∃ h1,
    (keys_put idx last;; indices_put last idx;; indices_put key 0;;
     keys_pop_back) h = Some (tt, h1)
    ∧ well_formed h1
    ∧ Vec.size (m_keys h1) = n - 1
    ∧ length (m_indices h1) = length (m_indices h)
    ∧ (∀ i, key_at h1 i = if decide (i = idx) then Some last
                          else if decide (i = n - 1) then None
                          else key_at h i)
    ∧ (∀ k, index_of h1 k = if decide (k = key) then Some 0
                            else if decide (k = last) then Some idx
                            else index_of h k).
Proof.
  intros Hwf n Hidx Hkey Hlast. pose proof Hwf as (Hsz & Hki & Hik).
  pose proof (Hki (n - 1) last ltac:(lia) Hlast) as Hlidx.
  pose proof (Hki idx key ltac:(lia) Hkey) as Hkidx.
  pose proof (index_of_Some _ _ _ Hkidx) as Hkr.
  pose proof (index_of_Some _ _ _ Hlidx) as Hlr.
  assert (key ≠ last) as Hkl.
  { intros ->. pose proof (wf_key_inj h idx (n - 1) _ Hwf ltac:(lia) ltac:(lia)
                             Hkey Hlast). lia. }
  destruct (vec_snoc (m_keys h)) as (ks & x & Hks & Hkss); [lia|].
  fold n in Hkss.
  set (ks1 := <[Z.to_nat idx := last]> ks).
  set (is1 := <[Z.to_nat key := 0]> (<[Z.to_nat last := idx]> (m_indices h))).
  exists (Heap ks1 is1).
  assert (∀ i, Vec.get ks1 i
               = if decide (i = idx) then Some last
                 else if decide (i = n - 1) then None else key_at h i)
    as Hkey1.
  { intros i. unfold ks1. rewrite get_insert by lia.
    destruct (decide (i = idx)); [done|]. unfold key_at. rewrite Hks.
    destruct (decide (i = n - 1)) as [->|Hne].
    - apply get_None. lia.
    - rewrite get_snoc_l; [done|]. lia. }
  assert (∀ k, Vec.get is1 k
               = if decide (k = key) then Some 0
                 else if decide (k = last) then Some idx else index_of h k)
    as Hidx1.
  { intros k. unfold is1. rewrite get_insert by (by rewrite size_insert).
    destruct (decide (k = key)); [done|]. by rewrite get_insert. }
  split.
  { unfold mbind, M_bind, indices_put, keys_put, keys_pop_back.
    rewrite set_Some by (fold n; lia). simpl.
    rewrite set_Some by done. simpl.
    rewrite set_Some by (by rewrite size_insert). simpl.
    rewrite Hks. rewrite insert_app_l by (unfold Vec.size in Hkss; lia).
    rewrite pop_back_snoc. done. }
  split; [|split; [|split; [|done]]].
  - split; [|split].
    + simpl. unfold ks1. rewrite size_insert. lia.
    + intros i k Hi. unfold key_at, index_of. simpl. rewrite Hkey1, Hidx1.
      destruct (decide (i = idx)) as [->|Hne].
      * intros [= <-]. rewrite decide_False by done. by rewrite decide_True.
      * destruct (decide (i = n - 1)); [done|]. intros Hik'.
        rewrite decide_False.
        -- rewrite decide_False; [by apply Hki|]. intros ->.
           pose proof (wf_key_inj h i (n - 1) _ Hwf Hi ltac:(lia) Hik' Hlast). lia.
        -- intros ->.
           pose proof (wf_key_inj h i idx _ Hwf Hi ltac:(lia) Hik' Hkey). lia.
    + intros k i. unfold key_at, index_of. simpl. rewrite Hkey1, Hidx1.
      destruct (decide (k = key)) as [->|Hne]; [by intros [= <-]|].
      destruct (decide (k = last)) as [->|Hne'].
      * intros [= <-] _. by rewrite decide_True.
      * intros Hk' Hi. pose proof (Hik _ _ Hk' Hi) as Hs.
        rewrite decide_False; [rewrite decide_False; [done|]|].
        -- intros ->. fold n in Hs. rewrite Hlast in Hs. congruence.
        -- intros ->. rewrite Hkey in Hs. congruence.
  - simpl. unfold ks1. rewrite size_insert. lia.
  - simpl. unfold is1. by rewrite !length_insert.
Qed.

Lemma key_at_back h :
  1 ≤ Vec.size (m_keys h) →
  ∃ x, keys_back h = Some (x, h)
       ∧ key_at h (Vec.size (m_keys h) - 1) = Some x.
Proof.
  intros Hsz. destruct (vec_snoc (m_keys h)) as (ks & x & Hks & Hkss); [lia|].
  exists x. split.
  - unfold keys_back. by rewrite Hks, back_snoc.
  - unfold key_at. rewrite <- Hkss, Hks. apply get_snoc_r.
Qed.

(** ** The operations *)

Ltac run_with H := rewrite (bind_run _ _ _ _ _ H).
Ltac run := erewrite bind_run by reflexivity.

Lemma indices_put_run h k i :
  0 ≤ k < Vec.size (m_indices h) →
  indices_put k i h = Some (tt, Heap (m_keys h) (<[Z.to_nat k := i]> (m_indices h))).
Proof. intros Hk. unfold indices_put. by rewrite set_Some. Qed.

Lemma call_run {A} (f : heap → option A) h x :
  f h = Some x → call f h = Some (x, h).
Proof. unfold call, lift. by intros ->. Qed.

Lemma seq2_run {B} (m1 m2 : M unit) (k : unit → M B) h (x : unit) h1 :
  (m1;; m2) h = Some (x, h1) → (m1;; (m2 ≫= k)) h = k x h1.
Proof.
  unfold mbind, M_bind. destruct (m1 h) as [[[] h2]|]; [|done].
  by intros ->.
Qed.

Lemma seq4_run {B} (m1 m2 m3 m4 : M unit) (k : unit → M B) h (x : unit) h1 :
  (m1;; m2;; m3;; m4) h = Some (x, h1) →
  (m1;; m2;; m3;; (m4 ≫= k)) h = k x h1.
Proof.
  unfold mbind, M_bind. destruct (m1 h) as [[[] h2]|]; [|done].
  destruct (m2 h2) as [[[] h3]|]; [|done].
  destruct (m3 h3) as [[[] h4]|]; [|done].
  by intros ->.
Qed.

Section Operations.

Variable lt : Z → Z → bool.

Lemma same_frame_absent h h' :
  same_frame h h' → absent_after h h' (λ _, False) (λ _, False).
Proof. intros (_ & _ & Hz) k. rewrite Hz. tauto. Qed.

Lemma insert_unfold h key :
  index_of h key = Some 0 →
  insert lt key h
  = move_up lt (Vec.size (m_keys h))
      (Heap (Vec.push_back (m_keys h) key)
            (<[Z.to_nat key := Vec.size (m_keys h)]> (m_indices h))).
Proof.
  intros Hk. pose proof (index_of_Some _ _ _ Hk) as Hkr.
  assert (is_valid_value h key = Some true) as Hv.
  { unfold is_valid_value. rewrite (proj2 (Z.leb_le _ _)) by lia.
    by rewrite (proj2 (Z.ltb_lt _ _)) by lia. }
  unfold insert. run_with (call_run (λ h, is_valid_value h key) h _ Hv).
  run. run.
  run_with (indices_put_run h key (Vec.size (m_keys h)) Hkr). run. run. simpl.
  rewrite size_push_back. rewrite Z.add_simpl_r, Z.eqb_refl.
  by run.
Qed.

Lemma erase_unfold h key idx :
  contains h key = Some true → index_of h key = Some idx →
  erase lt key h
  = (if idx =? Vec.size (m_keys h) - 1 then
       indices_put key 0;; keys_pop_back
     else
       last_key ← keys_back;
       keys_put idx last_key;; indices_put last_key idx;;
       indices_put key 0;; keys_pop_back;;
       if parent idx =? 0 then move_down lt idx
       else
         parent_key ← keys_at (parent idx);
         if lt last_key parent_key then move_up lt idx
         else move_down lt idx) h.
Proof.
  intros Hc Hidx. unfold erase.
  run_with (call_run (λ h, contains h key) h _ Hc). run.
  run_with (indices_at_run _ _ _ Hidx). by run.
Qed.

Lemma insert_spec h key :
  well_formed h → index_of h key = Some 0 →
  ∃ h',
    insert lt key h = Some (tt, h')
    ∧ well_formed h'
    ∧ Vec.size (m_keys h') = Vec.size (m_keys h) + 1
    ∧ length (m_indices h') = length (m_indices h)
    ∧ absent_after h h' (λ k, k = key) (λ _, False)
    ∧ (strict_weak_order lt → ordered lt h → ordered lt h').
Proof.
  intros Hwf Hk. pose proof (index_of_Some _ _ _ Hk) as Hkr.
  destruct (pushed_wf h key Hwf Hk) as (Hwf1 & Hkey1 & Hidx1).
  set (n := Vec.size (m_keys h)) in *.
  set (h1 := Heap (Vec.push_back (m_keys h) key)
                  (<[Z.to_nat key := n]> (m_indices h))) in *.
  assert (1 ≤ n) as Hn by apply Hwf.
  destruct (move_up_spec lt h1 n Hwf1) as (h' & Hrun & Hwf' & Hfr & Hord).
  { unfold h1. simpl. rewrite size_push_back. fold n. lia. }
  exists h'. split.
  { rewrite insert_unfold by done. exact Hrun. }
  split; [done|]. split.
  { rewrite (same_frame_keys_size _ _ Hfr). unfold h1. simpl.
    by rewrite size_push_back. }
  split.
  { destruct Hfr as (_ & -> & _). unfold h1. simpl. by rewrite length_insert. }
  split.
  { intros k. destruct Hfr as (_ & _ & ->). rewrite Hidx1.
    destruct (decide (k = key)) as [->|Hne].
    - split; [intros [= ?]; lia|tauto].
    - tauto. }
  intros Hlt Ho. apply Hord; [done|]. split.
  - intros c a b Hc Hcn. rewrite !Hkey1.
    rewrite (decide_False _ _ Hcn).
    destruct (decide (parent c = n)) as [Hp|Hp].
    + intros Ha. apply key_at_Some in Ha. fold n in Ha. slots.
    + by apply Ho.
  - intros c a b _ Hp. rewrite Hkey1.
    destruct (decide (c = n)) as [->|Hne]; [slots|].
    intros Ha. apply key_at_Some in Ha. fold n in Ha. slots.
Qed.

(** Heap order around the slot that received the last key. *)
Lemma detached_down h g1 idx key last :
  strict_weak_order lt → ordered lt h →
  (∀ i, g1 i = if decide (i = idx) then Some last
               else if decide (i = Vec.size (m_keys h) - 1) then None
               else key_at h i) →
  key_at h idx = Some key →
  (∀ pk, 2 ≤ idx → key_at h (parent idx) = Some pk → lt last pk = false) →
  down_inv lt 1 g1 idx.
Proof.
  intros Hlt Ho Hg Hkey Hpk. split.
  - intros c a b Hc _ Hp. rewrite !Hg. rewrite (decide_False _ _ Hp).
    destruct (decide (parent c = Vec.size (m_keys h) - 1)); [done|].
    destruct (decide (c = idx)) as [->|Hne].
    + intros [= <-] Hb. by apply Hpk.
    + destruct (decide (c = Vec.size (m_keys h) - 1)); [done|]. by apply Ho.
  - intros c a b Hidx _ Hp. rewrite !Hg.
    destruct (decide (c = idx)); [slots|].
    destruct (decide (c = Vec.size (m_keys h) - 1)); [done|].
    destruct (decide (parent idx = idx)); [slots|].
    destruct (decide (parent idx = Vec.size (m_keys h) - 1)); [done|].
    intros Ha Hb. apply (lt_negtrans lt Hlt _ key).
    + apply (Ho c); [slots|done|by rewrite Hp].
    + by apply (Ho idx).
Qed.

Lemma detached_up h g1 idx key last pk :
  strict_weak_order lt → ordered lt h →
  (∀ i, g1 i = if decide (i = idx) then Some last
               else if decide (i = Vec.size (m_keys h) - 1) then None
               else key_at h i) →
  key_at h idx = Some key → 2 ≤ idx →
  key_at h (parent idx) = Some pk → lt last pk = true →
  up_inv lt g1 idx.
Proof.
  intros Hlt Ho Hg Hkey Hidx Hpk Hc.
  assert (∀ c a, parent c = idx → key_at h c = Some a → lt a pk = false)
    as Hgrand.
  { intros c a Hp Ha. apply (lt_negtrans lt Hlt _ key).
    - apply (Ho c); [slots|done|by rewrite Hp].
    - by apply (Ho idx). }
  split.
  - intros c a b Hc2 Hne. rewrite !Hg. rewrite (decide_False _ _ Hne).
    destruct (decide (c = Vec.size (m_keys h) - 1)); [done|].
    destruct (decide (parent c = idx)) as [Hp|Hp].
    + intros Ha [= <-]. apply (lt_below lt Hlt _ pk); [|done].
      by apply (Hgrand c).
    + destruct (decide (parent c = Vec.size (m_keys h) - 1)); [done|].
      by apply Ho.
  - intros c a b _ Hp. rewrite !Hg.
    destruct (decide (c = idx)); [slots|].
    destruct (decide (c = Vec.size (m_keys h) - 1)); [done|].
    destruct (decide (parent idx = idx)); [slots|].
    destruct (decide (parent idx = Vec.size (m_keys h) - 1)); [done|].
    rewrite Hpk. intros Ha [= <-]. by apply (Hgrand c).
Qed.

(** Heap order survives the removal of the last slot. *)
Lemma popped_ordered h h1 :
  ordered lt h →
  (∀ i, key_at h1 i = if decide (i = Vec.size (m_keys h) - 1) then None
                      else key_at h i) →
  ordered lt h1.
Proof.
  intros Ho Hg c a b Hc. rewrite !Hg.
  destruct (decide (c = Vec.size (m_keys h) - 1)); [done|].
  destruct (decide (parent c = Vec.size (m_keys h) - 1)); [done|].
  by apply Ho.
Qed.

Lemma erase_min_spec h :
  well_formed h → empty h = false →
  ∃ r h',
    erase_min lt h = Some (r, h')
    ∧ key_at h 1 = Some r
    ∧ well_formed h'
    ∧ Vec.size (m_keys h') = Vec.size (m_keys h) - 1
    ∧ length (m_indices h') = length (m_indices h)
    ∧ absent_after h h' (λ _, False) (λ k, k = r)
    ∧ (strict_weak_order lt → ordered lt h → ordered lt h').
Proof.
  intros Hwf He'. pose proof He' as He. unfold empty in He.
  apply Z.eqb_neq in He.
  assert (2 ≤ Vec.size (m_keys h)) as Hn by (pose proof (proj1 Hwf); lia).
  destruct (get_is_Some (m_keys h) 1) as [r Hr]; [lia|].
  fold (key_at h 1) in Hr. exists r.
  assert (erase_min lt h
    = ((if Vec.size (m_keys h) =? 2 then
          indices_put r 0;; keys_pop_back;; e' ← read empty; sassert e'
        else
          last_key ← keys_back;
          keys_put 1 last_key;; indices_put last_key 1;;
          indices_put r 0;; keys_pop_back;; move_down lt 1);; mret r) h)
    as Hstart.
  { unfold erase_min. run. rewrite He'. simpl. run. run.
    rewrite (proj2 (Z.leb_le _ _) Hn). run.
    by run_with (keys_at_run _ _ _ Hr). }
  rewrite Hstart. clear Hstart.
  destruct (Vec.size (m_keys h) =? 2) eqn:Hn2.
  - apply Z.eqb_eq in Hn2.
    destruct (popped_wf h r Hwf) as (h1 & Hrun & Hwf1 & Hsz1 & Hlen1 & Hk1 & Hi1);
      [lia|by rewrite Hn2|].
    exists h1. split.
    { apply bind_Some in Hrun as ([] & h2 & Hr1 & Hr2).
      rewrite bind_assoc. run_with Hr1. rewrite bind_assoc. run_with Hr2.
      rewrite bind_assoc. run. unfold empty. rewrite Hsz1, Hn2. simpl.
      by run. }
    split; [done|]. split; [done|]. split; [done|]. split; [done|]. split.
    { intros k. rewrite Hi1. destruct (decide (k = r)); [tauto|]. tauto. }
    intros _ Ho. by eapply popped_ordered.
  - apply Z.eqb_neq in Hn2.
    destruct (key_at_back h) as (last & Hback & Hlast); [lia|].
    destruct (detached_wf h 1 r last Hwf)
      as (h1 & Hrun & Hwf1 & Hsz1 & Hlen1 & Hk1 & Hi1);
      [lia|done|done|].
    destruct (move_down_spec lt h1 1 Hwf1) as (h' & Hrun' & Hwf' & Hfr & Hord);
      [lia|].
    exists h'. split.
    { apply bind_Some in Hrun as ([] & h2 & Hr1 & Hrun).
      apply bind_Some in Hrun as ([] & h3 & Hr2 & Hrun).
      apply bind_Some in Hrun as ([] & h4 & Hr3 & Hr4).
      rewrite bind_assoc. run_with Hback.
      rewrite bind_assoc. run_with Hr1. rewrite bind_assoc. run_with Hr2.
      rewrite bind_assoc. run_with Hr3. rewrite bind_assoc. run_with Hr4.
      by run_with Hrun'. }
    split; [done|]. split; [done|].
    split; [by rewrite (same_frame_keys_size _ _ Hfr)|].
    split; [destruct Hfr as (_ & -> & _); done|].
    split.
    { intros k. destruct Hfr as (_ & _ & ->). rewrite Hi1.
      destruct (decide (k = r)) as [->|Hne]; [tauto|].
      destruct (decide (k = last)) as [->|Hne'].
      - destruct Hwf as (_ & Hki & _).
        rewrite (Hki (Vec.size (m_keys h) - 1) last ltac:(lia) Hlast).
        split; [intros [= ?]; lia|intros [_ [?|[= ?]]]; [done|lia]].
      - tauto. }
    intros Hlt Ho. apply ordered_ord_from. apply Hord; [done|lia|].
    eapply detached_down; eauto. intros pk ?. lia.
Qed.

Lemma erase_spec h key :
  well_formed h → contains h key = Some true →
  ∃ h',
    erase lt key h = Some (tt, h')
    ∧ well_formed h'
    ∧ Vec.size (m_keys h') = Vec.size (m_keys h) - 1
    ∧ length (m_indices h') = length (m_indices h)
    ∧ absent_after h h' (λ _, False) (λ k, k = key)
    ∧ (strict_weak_order lt → ordered lt h → ordered lt h').
Proof.
  intros Hwf Hc. pose proof Hc as (idx & Hidx0 & Hidx)%contains_true.
  destruct (wf_slot _ _ _ Hwf Hidx Hidx0) as [Hir Hkey].
  assert (erase lt key h
    = (if idx =? Vec.size (m_keys h) - 1 then
         indices_put key 0;; keys_pop_back
       else
         last_key ← keys_back;
         keys_put idx last_key;; indices_put last_key idx;;
         indices_put key 0;; keys_pop_back;;
         if parent idx =? 0 then move_down lt idx
         else
           parent_key ← keys_at (parent idx);
           if lt last_key parent_key then move_up lt idx
           else move_down lt idx) h)
    as Hstart.
  { unfold erase. run_with (call_run (λ h, contains h key) h _ Hc). run.
    run_with (indices_at_run _ _ _ Hidx). by run. }
  rewrite Hstart. clear Hstart.
  destruct (idx =? Vec.size (m_keys h) - 1) eqn:Hlast.
  - apply Z.eqb_eq in Hlast.
    destruct (popped_wf h key Hwf) as (h1 & Hrun & Hwf1 & Hsz1 & Hlen1 & Hk1 & Hi1);
      [lia|by rewrite <- Hlast|].
    exists h1. split; [done|]. split; [done|]. split; [done|].
    split; [done|]. split.
    { intros k. rewrite Hi1. destruct (decide (k = key)); tauto. }
    intros _ Ho. by eapply popped_ordered.
  - apply Z.eqb_neq in Hlast.
    destruct (key_at_back h) as (last & Hback & Hlk); [lia|].
    destruct (detached_wf h idx key last Hwf)
      as (h1 & Hrun & Hwf1 & Hsz1 & Hlen1 & Hk1 & Hi1);
      [lia|done|done|].
    assert (absent_after h h1 (λ _, False) (λ k, k = key)) as Habs.
    { intros k. rewrite Hi1.
      destruct (decide (k = key)) as [->|Hne]; [tauto|].
      destruct (decide (k = last)) as [->|Hne'].
      - destruct Hwf as (_ & Hki & _).
        rewrite (Hki (Vec.size (m_keys h) - 1) last ltac:(lia) Hlk).
        split; [intros [= ?]; lia|intros [_ [?|[= ?]]]; [done|lia]].
      - tauto. }
    assert (∀ h', same_frame h1 h' →
              absent_after h h' (λ _, False) (λ k, k = key)) as Habs'.
    { intros h' (_ & _ & Hz) k. rewrite Hz. apply Habs. }
    assert (∀ (m : Z → M unit) h',
      m last h1 = Some (tt, h') →
      (last_key ← keys_back;
       keys_put idx last_key;; indices_put last_key idx;;
       indices_put key 0;; keys_pop_back;; m last_key) h = Some (tt, h'))
      as Hpre.
    { intros m h' Hm.
      apply bind_Some in Hrun as ([] & h2 & Hr1 & Hrun).
      apply bind_Some in Hrun as ([] & h3 & Hr2 & Hrun).
      apply bind_Some in Hrun as ([] & h4 & Hr3 & Hr4).
      run_with Hback. run_with Hr1. run_with Hr2. run_with Hr3.
      by run_with Hr4. }
    destruct (move_down_spec lt h1 idx Hwf1)
      as (hd & Hrund & Hwfd & Hfrd & Hordd); [lia|].
    destruct (move_up_spec lt h1 idx Hwf1)
      as (hu & Hrunu & Hwfu & Hfru & Hordu); [lia|].
    destruct (parent idx =? 0) eqn:Hp0.
    + apply Z.eqb_eq in Hp0. exists hd.
      split; [by apply (Hpre (λ _, move_down lt idx))|].
      split; [done|]. split; [by rewrite (same_frame_keys_size _ _ Hfrd)|].
      split; [destruct Hfrd as (_ & -> & _); done|]. split; [by apply Habs'|].
      intros Hlt Ho. apply ordered_ord_from. apply Hordd; [done|lia|].
      eapply detached_down; eauto. intros pk ?. slots.
    + apply Z.eqb_neq in Hp0.
      destruct (get_is_Some (m_keys h) (parent idx)) as [pk Hpk]; [slots|].
      fold (key_at h (parent idx)) in Hpk.
      assert (key_at h1 (parent idx) = Some pk) as Hpk1.
      { rewrite Hk1. rewrite decide_False by slots.
        rewrite decide_False by slots. done. }
      destruct (lt last pk) eqn:Hcmp.
      * exists hu. split.
        { apply Hpre. run_with (keys_at_run _ _ _ Hpk1). unfold less_than.
          by rewrite Hcmp. }
        split; [done|]. split; [by rewrite (same_frame_keys_size _ _ Hfru)|].
        split; [destruct Hfru as (_ & -> & _); done|].
        split; [by apply Habs'|].
        intros Hlt Ho. apply Hordu; [done|].
        eapply (detached_up h _ idx key last pk); eauto. slots.
      * exists hd. split.
        { apply Hpre. run_with (keys_at_run _ _ _ Hpk1). unfold less_than.
          by rewrite Hcmp. }
        split; [done|]. split; [by rewrite (same_frame_keys_size _ _ Hfrd)|].
        split; [destruct Hfrd as (_ & -> & _); done|].
        split; [by apply Habs'|].
        intros Hlt Ho. apply ordered_ord_from. apply Hordd; [done|lia|].
        eapply detached_down; eauto. intros pk' _ Hpk'. congruence.
Qed.

(** Keys at different occupied slots differ. *)
Lemma wf_key_ne h i j a b :
  well_formed h → 1 ≤ i → 1 ≤ j → i ≠ j →
  key_at h i = Some a → key_at h j = Some b → a ≠ b.
Proof.
  intros Hwf Hi Hj Hne Ha Hb ->. by apply Hne, (wf_key_inj h i j b).
Qed.

Lemma decreased_spec lt0 h key :
  well_formed h → contains h key = Some true →
  ∃ h',
    decreased lt key h = Some (tt, h')
    ∧ well_formed h' ∧ same_frame h h'
    ∧ (strict_weak_order lt0 → strict_weak_order lt →
       priority_decreased lt0 lt key → ordered lt0 h → ordered lt h').
Proof.
  intros Hwf Hc. pose proof Hc as (idx & Hidx0 & Hidx)%contains_true.
  destruct (wf_slot _ _ _ Hwf Hidx Hidx0) as [Hir Hkey].
  destruct (move_up_spec lt h idx Hwf Hir) as (h' & Hrun & Hwf' & Hfr & Hord).
  exists h'. split.
  { unfold decreased. run_with (call_run (λ h, contains h key) h _ Hc). run.
    by run_with (indices_at_run _ _ _ Hidx). }
  split; [done|]. split; [done|].
  intros Hlt0 Hlt (Hsame & Hdec & _) Ho. apply Hord; [done|]. split.
  - intros c a b Hc2 Hne Ha Hb.
    assert (a ≠ key) as Hak
      by (apply (wf_key_ne h c idx); (done || lia)).
    destruct (decide (parent c = idx)) as [Hp|Hp].
    + rewrite Hp, Hkey in Hb. injection Hb as <-. apply Hdec.
      apply (Ho c); [done|done|by rewrite Hp].
    + assert (b ≠ key) as Hbk
        by (apply (wf_key_ne h (parent c) idx); (done || slots)).
      rewrite Hsame by done. by apply (Ho c).
  - intros c a b Hi2 Hp Ha Hb.
    assert (a ≠ key) as Hak
      by (apply (wf_key_ne h c idx); (done || slots)).
    assert (b ≠ key) as Hbk
      by (apply (wf_key_ne h (parent idx) idx); (done || slots)).
    rewrite Hsame by done. apply (lt_negtrans lt0 Hlt0 _ key).
    + apply (Ho c); [slots|done|by rewrite Hp].
    + by apply (Ho idx).
Qed.

Lemma increased_spec lt0 h key :
  well_formed h → contains h key = Some true →
  ∃ h',
    increased lt key h = Some (tt, h')
    ∧ well_formed h' ∧ same_frame h h'
    ∧ (strict_weak_order lt0 → strict_weak_order lt →
       priority_increased lt0 lt key → ordered lt0 h → ordered lt h').
Proof.
  intros Hwf Hc. pose proof Hc as (idx & Hidx0 & Hidx)%contains_true.
  destruct (wf_slot _ _ _ Hwf Hidx Hidx0) as [Hir Hkey].
  destruct (move_down_spec lt h idx Hwf Hir) as (h' & Hrun & Hwf' & Hfr & Hord).
  exists h'. split.
  { unfold increased. run_with (call_run (λ h, contains h key) h _ Hc). run.
    by run_with (indices_at_run _ _ _ Hidx). }
  split; [done|]. split; [done|].
  intros Hlt0 Hlt (Hsame & Hinc & _) Ho. apply ordered_ord_from.
  apply Hord; [done|lia|]. split.
  - intros c a b Hc2 _ Hp Ha Hb.
    assert (b ≠ key) as Hbk
      by (apply (wf_key_ne h (parent c) idx); (done || slots)).
    destruct (decide (c = idx)) as [->|Hne].
    + rewrite Hkey in Ha. injection Ha as <-. apply Hinc. by apply (Ho idx).
    + assert (a ≠ key) as Hak
        by (apply (wf_key_ne h c idx); (done || lia)).
      rewrite Hsame by done. by apply (Ho c).
  - intros c a b Hi2 _ Hp Ha Hb.
    assert (a ≠ key) as Hak
      by (apply (wf_key_ne h c idx); (done || slots)).
    assert (b ≠ key) as Hbk
      by (apply (wf_key_ne h (parent idx) idx); (done || slots)).
    rewrite Hsame by done. apply (lt_negtrans lt0 Hlt0 _ key).
    + apply (Ho c); [slots|done|by rewrite Hp].
    + by apply (Ho idx).
Qed.

Lemma heapify_loop_spec (i : nat) : ∀ h,
  well_formed h → Z.of_nat i < Vec.size (m_keys h) →
  ∃ h',
    heapify_loop lt i h = Some (tt, h')
    ∧ well_formed h' ∧ same_frame h h'
    ∧ (strict_weak_order lt → ord_from lt (Z.of_nat i + 1) (key_at h) →
       ord_from lt 1 (key_at h')).
Proof.
  induction i as [|i IH]; intros h Hwf Hi.
  - exists h. split; [done|]. split; [done|]. split; [apply same_frame_refl|].
    by intros _ Ho.
  - destruct (move_down_spec lt h (Z.of_nat (S i)) Hwf)
      as (h1 & Hrun & Hwf1 & Hfr1 & Hord1); [lia|].
    destruct (IH h1 Hwf1) as (h' & Hrun' & Hwf' & Hfr' & Hord').
    { rewrite (same_frame_keys_size _ _ Hfr1). lia. }
    exists h'. split.
    { cbn [heapify_loop]. by run_with Hrun. }
    split; [done|]. split; [by eapply same_frame_trans|].
    intros Hlt Ho. apply Hord'; [done|].
    replace (Z.of_nat i + 1) with (Z.of_nat (S i)) by lia.
    apply Hord1; [done|lia|]. split.
    + intros c a b Hc Hp Hne. apply Ho; [done|lia].
    + intros c a b Hi2 Hp. slots.
Qed.

Lemma heapify_spec h :
  well_formed h →
  ∃ h',
    heapify lt h = Some (tt, h')
    ∧ well_formed h' ∧ same_frame h h'
    ∧ (strict_weak_order lt → ordered lt h').
Proof.
  intros Hwf. pose proof (proj1 Hwf) as Hsz.
  assert (Z.quot (Vec.size (m_keys h) - 1) 2 = (Vec.size (m_keys h) - 1) / 2)
    as Hq by (apply Z.quot_div_nonneg; lia).
  destruct (heapify_loop_spec
              (Z.to_nat (Z.quot (Vec.size (m_keys h) - 1) 2)) h Hwf)
    as (h' & Hrun & Hwf' & Hfr & Hord).
  { rewrite Hq. Z.div_mod_to_equations. lia. }
  exists h'. split; [unfold heapify; by run|].
  split; [done|]. split; [done|].
  intros Hlt. apply ordered_ord_from. apply Hord; [done|].
  intros c a b Hc Hp Ha. apply key_at_Some in Ha. rewrite Hq in Hp. slots.
Qed.

Lemma reserve_spec h s :
  well_formed h → s < 2 ^ 31 →
  ∃ h',
    reserve s h = Some (tt, h')
    ∧ well_formed h'
    ∧ m_keys h' = m_keys h
    ∧ Vec.size (m_indices h) ≤ Vec.size (m_indices h')
    ∧ (∀ k i, i ≠ 0 → index_of h' k = Some i ↔ index_of h k = Some i).
Proof.
  intros Hwf Hs. unfold reserve. run. unfold indices_size.
  destruct (Vec.size (m_indices h) <? s) eqn:Hlt.
  - apply Z.ltb_lt in Hlt. unfold set_bounds.
    rewrite resize_grow by (unfold Vec.size in *; lia).
    eexists. split; [done|]. simpl.
    assert (∀ k i, i ≠ 0 →
      Vec.get (m_indices h ++ replicate (Z.to_nat s - length (m_indices h)) 0) k
      = Some i ↔ index_of h k = Some i) as Hidx.
    { intros k i Hi. split.
      - intros [?|[_ ->]]%get_app_replicate; done.
      - apply get_app_l. }
    split; [|split; [done|split; [|done]]].
    + destruct Hwf as (Hsz & Hki & Hik). split; [done|]. split.
      * intros i k Hi Hk. unfold index_of. simpl. apply Hidx; [lia|].
        by apply Hki.
      * intros k i Hk Hi. unfold index_of in Hk. simpl in Hk.
        apply Hidx in Hk; [|done]. by apply Hik.
    + unfold Vec.size. rewrite length_app. lia.
  - exists h. split; [done|]. split; [done|]. split; [done|].
    split; [lia|done].
Qed.

Lemma reset_spec h :
  well_formed h →
  ∃ h',
    reset h = Some (tt, h')
    ∧ well_formed h'
    ∧ Vec.size (m_keys h') = 1
    ∧ length (m_indices h') = length (m_indices h)
    ∧ (∀ k i, index_of h' k = Some i → i = 0).
Proof.
  intros Hwf. unfold reset. destruct (empty h) eqn:He.
  - unfold empty in He. apply Z.eqb_eq in He.
    exists h. split; [done|]. split; [done|]. split; [done|]. split; [done|].
    intros k i Hk. destruct (decide (i = 0)) as [|Hi]; [done|].
    destruct (wf_slot _ _ _ Hwf Hk Hi) as [? _]. lia.
  - eexists. split; [done|]. simpl. split; [|split; [done|split]].
    + split; [done|]. split.
      * intros i k Hi Hk. apply key_at_Some in Hk. simpl in Hk.
        unfold Vec.size in Hk. simpl in Hk. lia.
      * intros k i Hk Hi. by apply get_replicate in Hk.
    + by rewrite length_replicate.
    + intros k i Hk. by apply get_replicate in Hk.
Qed.

Lemma mk_heap_spec s :
  0 ≤ s < 2 ^ 31 →
  well_formed (mk_heap s) ∧ ordered lt (mk_heap s)
  ∧ size (mk_heap s) = s
  ∧ (∀ k i, index_of (mk_heap s) k = Some i → i = 0).
Proof.
  intros Hs. unfold mk_heap.
  rewrite resize_grow by (unfold Vec.size; simpl; lia). simpl.
  assert (∀ i k, 1 ≤ i → key_at (Heap (Vec.push_back [] (-1))
                   (replicate (Z.to_nat s - 0) 0)) i = Some k → False) as Hno.
  { intros i k Hi Hk. apply key_at_Some in Hk. unfold Vec.size in Hk.
    simpl in Hk. lia. }
  split; [|split; [|split]].
  - split; [done|]. split.
    + intros i k Hi Hk. destruct (Hno _ _ Hi Hk).
    + intros k i Hk Hi. by apply get_replicate in Hk.
  - intros c a b Hc Ha. destruct (Hno c a ltac:(lia) Ha).
  - unfold size, Vec.size. simpl. rewrite length_replicate. lia.
  - intros k i Hk. by apply get_replicate in Hk.
Qed.

End Operations.

(** ** Reachable heaps *)

Lemma present_iff h k :
  contains h k = Some true
  ↔ 0 ≤ k < Vec.size (m_indices h) ∧ index_of h k ≠ Some 0.
Proof.
  rewrite contains_true. split.
  - intros (i & Hi & Hk). split; [by eapply index_of_Some|]. congruence.
  - intros [Hr Hz]. destruct (get_is_Some _ _ Hr) as [i Hi].
    exists i. split; [|done]. intros ->. done.
Qed.

Lemma absent_after_contains h h' add del k :
  absent_after h h' add del →
  length (m_indices h') = length (m_indices h) →
  (∀ k, add k → 0 ≤ k < Vec.size (m_indices h)) →
  (∀ k, Decision (add k)) → (∀ k, Decision (del k)) →
  contains h' k = Some true
  ↔ add k ∨ (¬ del k ∧ contains h k = Some true).
Proof.
  intros Habs Hlen Hadd Hdadd Hddel. rewrite !present_iff.
  unfold Vec.size. rewrite Hlen. rewrite (Habs k).
  destruct (Hdadd k) as [Ha|Ha], (Hddel k) as [Hd|Hd];
    try (pose proof (Hadd _ Ha)); unfold Vec.size in *;
    destruct (decide (index_of h k = Some 0)); intuition.
Qed.

Lemma same_frame_contains h h' k :
  same_frame h h' → contains h' k = contains h k.
Proof.
  intros (_ & Hlen & Hz). unfold contains, Vec.size. rewrite Hlen.
  destruct (k <? Z.of_nat (length (m_indices h))) eqn:E; [|done].
  apply Z.ltb_lt in E. destruct (decide (0 ≤ k)) as [Hk|Hk].
  - specialize (Hz k). unfold index_of in Hz.
    destruct (get_is_Some (m_indices h) k) as [i Hi]; [unfold Vec.size; lia|].
    destruct (get_is_Some (m_indices h') k) as [i' Hi'];
      [unfold Vec.size; lia|].
    rewrite Hi, Hi' in *. simpl. do 2 f_equal.
    destruct (Z.eqb_spec i' 0) as [->|], (Z.eqb_spec i 0) as [->|];
      try done; exfalso.
    + destruct Hz as [Hz _]. specialize (Hz eq_refl). congruence.
    + destruct Hz as [_ Hz]. specialize (Hz eq_refl). congruence.
  - rewrite !get_None by lia. done.
Qed.

Lemma reachable_inv lt log h :
  reachable lt log h →
  strict_weak_order lt ∧ well_formed h ∧ ordered lt h
  ∧ (∀ k, contains h k = Some true ↔ live log k = true).
Proof.
  induction 1 as
    [ lt s Hlt Hs
    | lt log h k h' _ (Hlt & Hwf & Ho & Hc) Hk Hck Hrun
    | lt log h k h' _ (Hlt & Hwf & Ho & Hc) He Hrun
    | lt log h k h' _ (Hlt & Hwf & Ho & Hc) Hck Hrun
    | lt lt' log h k h' _ (Hlt & Hwf & Ho & Hc) Hck Hlt' Hdec Hrun
    | lt lt' log h k h' _ (Hlt & Hwf & Ho & Hc) Hck Hlt' Hinc Hrun
    | lt lt' log h h' _ (Hlt & Hwf & Ho & Hc) Hlt' Hrun
    | lt log h s h' _ (Hlt & Hwf & Ho & Hc) Hs Hrun
    | lt log h h' _ (Hlt & Hwf & Ho & Hc) Hrun
    | lt log log' h other _ _ _ IH ].
  - destruct (mk_heap_spec lt s Hs) as (Hwf & Ho & _ & Hz).
    split; [done|]. split; [done|]. split; [done|].
    intros k. rewrite contains_true. simpl. split; [|done].
    intros (i & Hi & Hk). by apply Hz in Hk.
  - apply contains_false in Hck; [|lia]. unfold size in Hk.
    destruct Hck as [?|Hz]; [lia|].
    destruct (insert_spec lt h k Hwf Hz)
      as (h1 & Hrun1 & Hwf1 & _ & Hlen & Habs & Ho1).
    rewrite Hrun in Hrun1. injection Hrun1 as <-.
    split; [done|]. split; [done|]. split; [by apply Ho1|].
    intros k'. rewrite (absent_after_contains _ _ _ _ k' Habs Hlen);
      [|intros ? ->; done|intros; apply _|intros; right; tauto].
    simpl. rewrite Hc. destruct (decide (k = k')) as [->|Hne].
    + tauto.
    + split; [intros [->|[_ ?]]; done|tauto].
  - destruct (erase_min_spec lt h Hwf He)
      as (r & h1 & Hrun1 & _ & Hwf1 & _ & Hlen & Habs & Ho1).
    rewrite Hrun in Hrun1. injection Hrun1 as <- <-.
    split; [done|]. split; [done|]. split; [by apply Ho1|].
    intros k'. rewrite (absent_after_contains _ _ _ _ k' Habs Hlen);
      [|done|intros; right; tauto|intros; apply _].
    simpl. rewrite Hc. destruct (decide (k = k')) as [->|Hne].
    + split; [intros [[]|[? _]]; done|done].
    + split; [intros [[]|[_ ?]]; done|]. intros ?. right. split; congruence.
  - destruct (erase_spec lt h k Hwf Hck)
      as (h1 & Hrun1 & Hwf1 & _ & Hlen & Habs & Ho1).
    rewrite Hrun in Hrun1. injection Hrun1 as <-.
    split; [done|]. split; [done|]. split; [by apply Ho1|].
    intros k'. rewrite (absent_after_contains _ _ _ _ k' Habs Hlen);
      [|done|intros; right; tauto|intros; apply _].
    simpl. rewrite Hc. destruct (decide (k = k')) as [->|Hne].
    + split; [intros [[]|[? _]]; done|done].
    + split; [intros [[]|[_ ?]]; done|]. intros ?. right. split; congruence.
  - destruct (decreased_spec lt' lt h k Hwf Hck)
      as (h1 & Hrun1 & Hwf1 & Hfr & Ho1).
    rewrite Hrun in Hrun1. injection Hrun1 as <-.
    split; [done|]. split; [done|]. split; [by apply Ho1|].
    intros k'. by rewrite (same_frame_contains _ _ _ Hfr).
  - destruct (increased_spec lt' lt h k Hwf Hck)
      as (h1 & Hrun1 & Hwf1 & Hfr & Ho1).
    rewrite Hrun in Hrun1. injection Hrun1 as <-.
    split; [done|]. split; [done|]. split; [by apply Ho1|].
    intros k'. by rewrite (same_frame_contains _ _ _ Hfr).
  - destruct (heapify_spec lt' h Hwf) as (h1 & Hrun1 & Hwf1 & Hfr & Ho1).
    rewrite Hrun in Hrun1. injection Hrun1 as <-.
    split; [done|]. split; [done|]. split; [by apply Ho1|].
    intros k'. by rewrite (same_frame_contains _ _ _ Hfr).
  - destruct (reserve_spec h s Hwf Hs) as (h1 & Hrun1 & Hwf1 & Hk & _ & Hi).
    rewrite Hrun in Hrun1. injection Hrun1 as <-.
    split; [done|]. split; [done|]. split.
    { intros c a b. unfold key_at. rewrite Hk. apply Ho. }
    intros k'. rewrite <- Hc, !contains_true.
    split; intros (i & Hi0 & Hi'); exists i; (split; [done|]); by apply Hi.
  - destruct (reset_spec h Hwf) as (h1 & Hrun1 & Hwf1 & Hsz & _ & Hz).
    rewrite Hrun in Hrun1. injection Hrun1 as <-.
    split; [done|]. split; [done|]. split.
    { intros c a b Hc2 Ha. apply key_at_Some in Ha. lia. }
    intros k'. rewrite contains_true. simpl. split; [|done].
    intros (i & Hi & Hk). by apply Hz in Hk.
  - done.
Qed.

(** ** Extraction in sorted order *)

Section Extraction.

Variable lt : Z → Z → bool.
Hypothesis Hlt : strict_weak_order lt.

(** The root sorts before or with every key of the heap. *)
Lemma root_minimal h r :
  ordered lt h → key_at h 1 = Some r →
  ∀ i k, 1 ≤ i → key_at h i = Some k → lt k r = false.
Proof.
  intros Ho Hr i k Hi. revert k. assert (0 ≤ i) as Hi0 by lia. revert i Hi0 Hi.
  apply (Z_lt_induction
           (λ i, 1 ≤ i → ∀ k, key_at h i = Some k → lt k r = false)).
  intros i IH Hi k Hk. destruct (decide (i = 1)) as [->|Hne].
  - rewrite Hr in Hk. injection Hk as <-. apply (lt_irrefl lt Hlt).
  - destruct (get_is_Some (m_keys h) (parent i)) as [pk Hpk].
    { apply key_at_Some in Hk. slots. }
    fold (key_at h (parent i)) in Hpk.
    apply (lt_negtrans lt Hlt _ pk).
    + apply (Ho i); [lia|done|done].
    + apply (IH (parent i)); [slots|slots|done].
Qed.

Lemma present_slot h k :
  well_formed h →
  contains h k = Some true ↔ ∃ i, 1 ≤ i ∧ key_at h i = Some k.
Proof.
  intros Hwf. rewrite contains_true. split.
  - intros (i & Hi & Hk). destruct (wf_slot _ _ _ Hwf Hk Hi) as [? ?].
    exists i. split; [lia|done].
  - intros (i & Hi & Hk). exists i. split; [lia|].
    destruct Hwf as (_ & Hki & _). by apply Hki.
Qed.

Lemma erase_all_spec (n : nat) : ∀ h (fuel : nat),
  well_formed h → ordered lt h →
  Vec.size (m_keys h) = Z.of_nat n + 1 → (n ≤ fuel)%nat →
  ∃ out h',
    erase_all lt fuel h = Some (out, h')
    ∧ empty h' = true
    ∧ length out = n
    ∧ NoDup out
    ∧ (∀ k, k ∈ out ↔ contains h k = Some true)
    ∧ StronglySorted (λ a b, lt b a = false) out.
Proof.
  induction n as [|n IH]; intros h fuel Hwf Ho Hsz Hf.
  - exists [], h.
    assert (empty h = true) as He by (unfold empty; apply Z.eqb_eq; lia).
    split.
    { destruct fuel; cbn [erase_all]; run; by rewrite He. }
    split; [done|]. split; [done|]. split; [constructor|].
    split; [|constructor].
    intros k. split; [by intros ?%elem_of_nil|].
    intros (i & Hi & Hk)%present_slot; [|done].
    apply key_at_Some in Hk. lia.
  - assert (empty h = false) as He by (unfold empty; apply Z.eqb_neq; lia).
    destruct fuel as [|fuel]; [lia|].
    destruct (erase_min_spec lt h Hwf He)
      as (r & h1 & Hrun & Hr & Hwf1 & Hsz1 & Hlen1 & Habs & Ho1).
    specialize (Ho1 Hlt Ho).
    destruct (IH h1 fuel Hwf1 Ho1) as (out & h' & Hrun' & He' & Hlen & Hnd & Hin & Hs);
      [lia|lia|].
    assert (∀ k, contains h1 k = Some true
                 ↔ k ≠ r ∧ contains h k = Some true) as Hc1.
    { intros k. rewrite (absent_after_contains _ _ _ _ k Habs Hlen1);
        [|done|intros; right; tauto|intros; apply _]. tauto. }
    exists (r :: out), h'. split.
    { cbn [erase_all]. run. rewrite He. run_with Hrun. by run_with Hrun'. }
    split; [done|]. split; [simpl; lia|]. split.
    { constructor; [|done]. rewrite Hin, Hc1. tauto. }
    split.
    { intros k. rewrite elem_of_cons, Hin, Hc1. split.
      - intros [->|[_ ?]]; [|done]. apply present_slot; [done|].
        exists 1. done.
      - intros Hk. destruct (decide (k = r)); [by left|by right]. }
    constructor; [done|]. apply Forall_forall. intros k Hk.
    apply list_elem_of_In, Hin, Hc1 in Hk as [_ Hk].
    apply present_slot in Hk as (i & Hi & Hk); [|done].
    by apply (root_minimal h r Ho Hr i k).
Qed.

(** The keys of a well-formed heap, slot by slot. *)
Lemma keys_NoDup h : well_formed h → NoDup (drop 1 (m_keys h)).
Proof.
  intros Hwf. apply NoDup_alt. intros i j k. rewrite !lookup_drop.
  intros Hi Hj.
  assert (∀ i : nat, m_keys h !! (1 + i)%nat = Some k →
                     key_at h (Z.of_nat (1 + i)) = Some k) as Hget.
  { intros i' Hi'. unfold key_at, Vec.get. rewrite decide_True by lia.
    by rewrite Nat2Z.id. }
  pose proof (wf_key_inj h (Z.of_nat (1 + i)) (Z.of_nat (1 + j)) k Hwf
                ltac:(lia) ltac:(lia) (Hget i Hi) (Hget j Hj)). lia.
Qed.

Lemma keys_elem_of h k :
  well_formed h → k ∈ drop 1 (m_keys h) ↔ contains h k = Some true.
Proof.
  intros Hwf. rewrite present_slot by done. rewrite list_elem_of_lookup.
  split.
  - intros [i Hi]. rewrite lookup_drop in Hi. exists (Z.of_nat (1 + i)).
    split; [lia|]. unfold key_at, Vec.get. rewrite decide_True by lia.
    by rewrite Nat2Z.id.
  - intros (i & Hi & Hk). exists (Z.to_nat i - 1)%nat. rewrite lookup_drop.
    unfold key_at, Vec.get in Hk. rewrite decide_True in Hk by lia.
    by replace (1 + (Z.to_nat i - 1))%nat with (Z.to_nat i) by lia.
Qed.

End Extraction.

(** ** Subtrees *)

Lemma anc_parent d : ∀ j, anc d (parent j) = parent (anc d j).
Proof. induction d as [|d IH]; intros j; [done|]. simpl. by rewrite IH. Qed.

Lemma anc_le d : ∀ j, 0 ≤ j → 0 ≤ anc d j ≤ j.
Proof.
  induction d as [|d IH]; intros j Hj; simpl; [lia|].
  destruct (IH (parent j)) as [? ?]; slots.
Qed.

Lemma anc_neg d : ∀ j, j < 0 → anc d j < 0.
Proof.
  induction d as [|d IH]; intros j Hj; simpl; [lia|]. apply IH. slots.
Qed.

Lemma anc_add a b j : anc (a + b) j = anc a (anc b j).
Proof.
  revert j. induction b as [|b IH]; intros j.
  - by rewrite Nat.add_0_r.
  - rewrite Nat.add_succ_r. simpl. apply IH.
Qed.

Lemma desc_refl i : desc i i.
Proof. by exists O. Qed.

Lemma desc_le i j : 0 ≤ i → desc i j → i ≤ j.
Proof.
  intros Hi [d Hd]. destruct (decide (0 ≤ j)) as [Hj|Hj].
  - pose proof (anc_le d j Hj). lia.
  - pose proof (anc_neg d j ltac:(lia)). lia.
Qed.

Lemma desc_parent i j : desc i j → desc (parent i) j.
Proof. intros [d Hd]. exists (S d). simpl. by rewrite anc_parent, Hd. Qed.

Lemma desc_left i j : desc (left i) j → desc i j.
Proof. intros H%desc_parent. by rewrite parent_left in H. Qed.

Lemma desc_right i j : desc (right i) j → desc i j.
Proof. intros H%desc_parent. by rewrite parent_right in H. Qed.

Lemma desc_cases i j :
  desc i j → j = i ∨ desc (left i) j ∨ desc (right i) j.
Proof.
  intros [[|d] Hd]; [by left|]. right. simpl in Hd. rewrite anc_parent in Hd.
  apply parent_child in Hd as [Hd|Hd]; [left|right]; by exists d.
Qed.

Lemma desc_disjoint i j : 1 ≤ i → desc (left i) j → desc (right i) j → False.
Proof.
  intros Hi Hl Hr. pose proof (desc_le (left i) j ltac:(slots) Hl) as Hj.
  destruct Hl as [d Hd], Hr as [e He].
  assert (∀ a b x, anc (S a + b) j = x → 2 * x ≤ anc b j) as Hhalf.
  { intros a b x Hx. rewrite anc_add in Hx. simpl in Hx.
    pose proof (anc_le b j ltac:(slots)).
    pose proof (anc_le a (parent (anc b j)) ltac:(slots)). slots. }
  destruct (Nat.lt_trichotomy d e) as [Hlt|[->|Hlt]].
  - replace e with (S (e - d - 1) + d)%nat in He by lia.
    apply Hhalf in He. slots.
  - slots.
  - replace d with (S (d - e - 1) + e)%nat in Hd by lia.
    apply Hhalf in Hd. slots.
Qed.

Lemma desc_root j : 1 ≤ j → desc 1 j.
Proof.
  intros Hj. assert (0 ≤ j) as Hj0 by lia. revert j Hj0 Hj.
  apply (Z_lt_induction (λ j, 1 ≤ j → desc 1 j)).
  intros j IH Hj. destruct (decide (j = 1)) as [->|Hne]; [apply desc_refl|].
  destruct (IH (parent j)) as [d Hd]; [slots|slots|]. by exists (S d).
Qed.

(** ** The range query *)

Lemma pow2_cover (s : nat) :
  (1 ≤ s)%nat → ∃ hgt : nat, (s ≤ 2 ^ hgt ∧ 2 ^ hgt < 2 * s)%nat.
Proof.
  intros Hs. destruct (decide (s = 1%nat)) as [->|Hne].
  - exists O. simpl. lia.
  - pose proof (Nat.log2_up_spec s ltac:(lia)) as [Hlo Hhi].
    pose proof (Nat.log2_up_pos s ltac:(lia)) as Hpos.
    exists (Nat.log2_up s). split; [done|].
    replace (Nat.log2_up s) with (S (Nat.pred (Nat.log2_up s))) by lia.
    rewrite Nat.pow_succ_r'. lia.
Qed.

Section Find.

Variable lt : Z → Z → bool.
Variable key : Z.
Variable h : heap.

Lemma find_le_loop_nil f res : find_le_loop lt f key [] res h = Some (res, h).
Proof. by destruct f. Qed.

(** One iteration of the loop of [find_le]. *)
Lemma find_le_loop_pop f todo i res :
  find_le_loop lt (S f) key (todo ++ [i]) res h
  = if i <? Vec.size (m_keys h) then
      (k ← keys_at i;
       if negb (lt key k)
       then find_le_loop lt f key ((todo ++ [left i]) ++ [right i])
              (res ++ [k])
       else find_le_loop lt f key todo res) h
    else find_le_loop lt f key todo res h.
Proof.
  destruct (todo ++ [i]) as [|z l] eqn:E; [by destruct todo|].
  cbn [find_le_loop]. rewrite <- E. clear E z l.
  assert (lift (Vec.back (todo ++ [i])) h = Some (i, h)) as Hb
    by (by rewrite back_snoc).
  assert (lift (Vec.pop_back (todo ++ [i])) h = Some (todo, h)) as Hp
    by (by rewrite pop_back_snoc).
  run_with Hb. run_with Hp. run. by destruct (i <? Vec.size (m_keys h)).
Qed.

Lemma desc_qualifies i j k :
  ordered lt h → strict_weak_order lt → 1 ≤ i →
  desc i j → key_at h j = Some k → lt key k = false →
  ∃ k', key_at h i = Some k' ∧ lt key k' = false.
Proof.
  intros Ho Hlt Hi [d Hd]. revert j k Hd.
  induction d as [|d IH]; intros j k Hd Hk Hq.
  - simpl in Hd. subst. eauto.
  - simpl in Hd. pose proof (key_at_Some _ _ _ Hk) as Hr.
    assert (i ≤ parent j).
    { destruct (decide (0 ≤ parent j)) as [Hp|Hp].
      - pose proof (anc_le d (parent j) Hp). lia.
      - pose proof (anc_neg d (parent j) ltac:(lia)). lia. }
    destruct (get_is_Some (m_keys h) (parent j)) as [pk Hpk]; [slots|].
    fold (key_at h (parent j)) in Hpk.
    apply (IH (parent j) pk); [done|done|].
    apply (lt_negtrans lt Hlt _ k); [done|].
    apply (Ho j); [slots|done|done].
Qed.

Lemma find_le_visit (hgt : nat) : ∀ i,
  1 ≤ i → Vec.size (m_keys h) ≤ i * 2 ^ Z.of_nat hgt →
  ∃ (n : nat) out,
    (n ≤ 2 ^ S hgt - 1)%nat
    ∧ (∀ m todo res,
         find_le_loop lt (n + m) key (todo ++ [i]) res h
         = find_le_loop lt m key todo (res ++ out) h)
    ∧ visited lt key h i out.
Proof.
  assert (∀ i, 1 ≤ i →
    (Vec.size (m_keys h) ≤ i
     ∨ ∃ k, key_at h i = Some k ∧ lt key k = true) →
    ∃ (n : nat) out,
      (n ≤ 1)%nat
      ∧ (∀ m todo res,
           find_le_loop lt (n + m) key (todo ++ [i]) res h
           = find_le_loop lt m key todo (res ++ out) h)
      ∧ visited lt key h i out) as Hskip.
  { intros i Hi Hcase. exists 1%nat, []. split; [done|]. split.
    - intros m todo res. rewrite app_nil_r. change (1 + m)%nat with (S m).
      rewrite find_le_loop_pop.
      destruct Hcase as [Hge|(k & Hk & Hq)].
      + by rewrite (proj2 (Z.ltb_ge _ _) Hge).
      + pose proof (key_at_Some _ _ _ Hk).
        rewrite (proj2 (Z.ltb_lt _ _)) by lia.
        run_with (keys_at_run _ _ _ Hk). by rewrite Hq.
    - intros Hwf Ho Hlt. split; [constructor|].
      intros k. split; [by intros ?%elem_of_nil|].
      intros (j & Hd & Hk & Hq).
      destruct (desc_qualifies i j k Ho Hlt Hi Hd Hk Hq) as (k' & Hk' & Hq').
      destruct Hcase as [Hge|(k0 & Hk0 & Hq0)].
      + apply key_at_Some in Hk'. lia.
      + congruence. }
  induction hgt as [|hgt IH]; intros i Hi Hsz.
  - destruct (Hskip i Hi) as (n & out & Hn & Hrun & Hv).
    { left. simpl in Hsz. lia. }
    exists n, out. split; [simpl; lia|done].
  - assert (1 ≤ 2 ^ hgt)%nat as Hpow by (apply Nat.neq_0_lt_0; by apply Nat.pow_nonzero).
    destruct (decide (Vec.size (m_keys h) ≤ i)) as [Hge|Hlt'].
    { destruct (Hskip i Hi) as (n & out & Hn & Hrun & Hv); [by left|].
      exists n, out. split; [|done]. rewrite !Nat.pow_succ_r'. lia. }
    destruct (get_is_Some (m_keys h) i) as [k Hk]; [lia|].
    fold (key_at h i) in Hk.
    destruct (lt key k) eqn:Hq.
    { destruct (Hskip i Hi) as (n & out & Hn & Hrun & Hv); [right; eauto|].
      exists n, out. split; [|done]. rewrite !Nat.pow_succ_r'. lia. }
    assert (0 < 2 ^ Z.of_nat hgt) as Hpz by (apply Z.pow_pos_nonneg; lia).
    rewrite Nat2Z.inj_succ, Z.pow_succ_r in Hsz by lia.
    destruct (IH (right i)) as (nr & outr & Hnr & Hrunr & Hvr);
      [slots|rewrite right_eq; lia|].
    destruct (IH (left i)) as (nl & outl & Hnl & Hrunl & Hvl);
      [slots|rewrite left_eq; lia|].
    exists (S (nr + nl)), (k :: outr ++ outl). split.
    { rewrite !Nat.pow_succ_r' in *. lia. }
    split.
    { intros m todo res. change (S (nr + nl) + m)%nat with (S (nr + nl + m)).
      rewrite find_le_loop_pop.
      rewrite (proj2 (Z.ltb_lt _ _)) by lia.
      run_with (keys_at_run _ _ _ Hk). rewrite Hq. simpl.
      rewrite <- Nat.add_assoc, Hrunr, Hrunl.
      by rewrite <- !app_assoc. }
    intros Hwf Ho Hlt. destruct (Hvr Hwf Ho Hlt) as [Hndr Hinr].
    destruct (Hvl Hwf Ho Hlt) as [Hndl Hinl].
    assert (∀ c j x, (c = left i ∨ c = right i) → desc c j →
                     key_at h j = Some x → x ≠ k) as Hfresh.
    { intros c j x Hc Hd Hx. apply (wf_key_ne h j i x k Hwf); try done.
      - assert (0 ≤ c) as Hc0 by (destruct Hc; subst; slots).
        pose proof (desc_le c j Hc0 Hd).
        destruct Hc; subst; slots.
      - assert (0 ≤ c) as Hc0 by (destruct Hc; subst; slots).
        pose proof (desc_le c j Hc0 Hd).
        destruct Hc; subst; slots. }
    split.
    + constructor.
      * rewrite elem_of_app, Hinr, Hinl.
        intros [(j & Hd & Hj & _)|(j & Hd & Hj & _)].
        -- by apply (Hfresh (right i) j k (or_intror eq_refl) Hd Hj).
        -- by apply (Hfresh (left i) j k (or_introl eq_refl) Hd Hj).
      * apply list.NoDup_app. split; [done|]. split; [|done].
        intros x (j1 & Hd1 & Hj1 & _)%Hinr (j2 & Hd2 & Hj2 & _)%Hinl.
        pose proof (desc_le (right i) j1 ltac:(slots) Hd1).
        pose proof (desc_le (left i) j2 ltac:(slots) Hd2).
        assert (j1 = j2) as -> by (apply (wf_key_inj h j1 j2 x Hwf); (done || slots)).
        by apply (desc_disjoint i j2).
    + intros x. rewrite elem_of_cons, elem_of_app, Hinr, Hinl. split.
      * intros [->|[(j & Hd & Hj)|(j & Hd & Hj)]].
        -- exists i. split; [apply desc_refl|done].
        -- exists j. split; [by apply desc_right|done].
        -- exists j. split; [by apply desc_left|done].
      * intros (j & Hd & Hj & Hqj).
        apply desc_cases in Hd as [->|[Hd|Hd]].
        -- left. congruence.
        -- right. right. eauto.
        -- right. left. eauto.
Qed.

Lemma find_le_spec res :
  ∃ out,
    find_le lt key res h = Some (res ++ out, h)
    ∧ (well_formed h → ordered lt h → strict_weak_order lt →
       NoDup out
       ∧ ∀ k, k ∈ out ↔ contains h k = Some true ∧ lt key k = false).
Proof.
  assert (∃ hgt : nat, (length (m_keys h) ≤ 2 ^ hgt
                        ∧ 2 ^ hgt ≤ 2 * length (m_keys h) + 1)%nat)
    as (hgt & Hlo & Hhi).
  { destruct (decide (length (m_keys h) = 0%nat)) as [->|Hne].
    - exists O. simpl. lia.
    - destruct (pow2_cover (length (m_keys h))) as (hgt & ? & ?); [lia|].
      exists hgt. lia. }
  destruct (find_le_visit hgt 1) as (n & out & Hn & Hrun & Hv); [done| |].
  { rewrite Z.mul_1_l. unfold Vec.size.
    pose proof (Nat2Z.inj_pow 2 hgt) as Hp.
    change (Z.of_nat 2) with 2 in Hp. rewrite <- Hp. lia. }
  exists out. split.
  - unfold find_le. run.
    replace (Z.to_nat (4 * Vec.size (m_keys h) + 1))
      with (n + (4 * length (m_keys h) + 1 - n))%nat.
    + change (Vec.push_back [] 1) with ([] ++ [1]).
      rewrite Hrun. apply find_le_loop_nil.
    + rewrite Nat.pow_succ_r' in Hn. unfold Vec.size. lia.
  - intros Hwf Ho Hlt. destruct (Hv Hwf Ho Hlt) as [Hnd Hin].
    split; [done|]. intros k. rewrite Hin, present_slot by done. split.
    + intros (j & Hd & Hk & Hq). split; [|done]. exists j. split; [|done].
      by apply desc_le in Hd.
    + intros [(j & Hj & Hk) Hq]. exists j. split; [by apply desc_root|done].
Qed.

End Find.

(** ** What the operations leave alone *)

Lemma kc_bind {A B} (m : M A) (f : A → M B) :
  keeps_capacity m → (∀ x, keeps_capacity (f x)) → keeps_capacity (m ≫= f).
Proof.
  intros Hm Hf h y h' (x & h1 & H1 & H2)%bind_Some.
  rewrite (Hf _ _ _ _ H2). by apply (Hm _ _ _ H1).
Qed.

Lemma kc_ret {A} (x : A) : keeps_capacity (mret x).
Proof. by intros h y h' [= _ <-]. Qed.

Lemma kc_fail {A} : keeps_capacity (@fail A).
Proof. by intros h y h'. Qed.

Lemma kc_lift {A} (o : option A) : keeps_capacity (lift o).
Proof. intros h y h'. unfold lift. destruct o; [|done]. by intros [= _ <-]. Qed.

Lemma kc_read {A} (f : heap → A) : keeps_capacity (read f).
Proof. by intros h y h' [= _ <-]. Qed.

Lemma kc_call {A} (f : heap → option A) : keeps_capacity (call f).
Proof.
  intros h y h'. unfold call, lift. destruct (f h); [|done]. by intros [= _ <-].
Qed.

Lemma kc_sassert b : keeps_capacity (sassert b).
Proof. destruct b; [apply kc_ret|apply kc_fail]. Qed.

Lemma kc_keys_size : keeps_capacity keys_size.
Proof. by intros h y h' [= _ <-]. Qed.

Lemma kc_keys_at i : keeps_capacity (keys_at i).
Proof. intros h y h'. unfold keys_at. apply kc_lift. Qed.

Lemma kc_keys_back : keeps_capacity keys_back.
Proof. intros h y h'. unfold keys_back. apply kc_lift. Qed.

Lemma kc_indices_at k : keeps_capacity (indices_at k).
Proof. intros h y h'. unfold indices_at. apply kc_lift. Qed.

Lemma kc_keys_put i x : keeps_capacity (keys_put i x).
Proof.
  intros h y h'. unfold keys_put. destruct (Vec.set _ _ _); [|done].
  by intros [= _ <-].
Qed.

Lemma kc_keys_push_back x : keeps_capacity (keys_push_back x).
Proof. by intros h y h' [= _ <-]. Qed.

Lemma kc_keys_pop_back : keeps_capacity keys_pop_back.
Proof.
  intros h y h'. unfold keys_pop_back. destruct (Vec.pop_back _); [|done].
  by intros [= _ <-].
Qed.

Lemma kc_indices_put k i : keeps_capacity (indices_put k i).
Proof.
  intros h y h'. unfold indices_put, Vec.set.
  destruct (decide _); [|done]. intros [= _ <-]. simpl. apply length_insert.
Qed.

Ltac kc_with tac :=
  repeat first
    [ assumption
    | tac
    | apply kc_ret | apply kc_fail | apply kc_lift | apply kc_read
    | apply kc_call | apply kc_sassert | apply kc_keys_size
    | apply kc_keys_at | apply kc_keys_back | apply kc_indices_at
    | apply kc_keys_put | apply kc_keys_push_back | apply kc_keys_pop_back
    | apply kc_indices_put
    | apply kc_bind; [|intros ?]
    | match goal with
      | |- keeps_capacity (if ?b then _ else _) => destruct b
      | |- keeps_capacity (let x := _ in _) => cbv zeta
      end ].

Ltac kc := kc_with fail.

Section Frames.

Variable lt : Z → Z → bool.

Lemma kc_move_up_loop fuel : ∀ key idx,
  keeps_capacity (move_up_loop lt fuel key idx).
Proof.
  induction fuel as [|f IH]; intros key idx; cbn [move_up_loop];
    kc_with ltac:(apply IH).
Qed.

Lemma kc_move_up idx : keeps_capacity (move_up lt idx).
Proof. unfold move_up. kc_with ltac:(apply kc_move_up_loop). Qed.

Lemma kc_move_down_loop fuel : ∀ key sz idx,
  keeps_capacity (move_down_loop lt fuel key sz idx).
Proof.
  induction fuel as [|f IH]; intros key sz idx; cbn [move_down_loop];
    kc_with ltac:(apply IH).
Qed.

Lemma kc_move_down idx : keeps_capacity (move_down lt idx).
Proof. unfold move_down. kc_with ltac:(apply kc_move_down_loop). Qed.

Lemma kc_insert key : keeps_capacity (insert lt key).
Proof. unfold insert. kc_with ltac:(apply kc_move_up). Qed.

Lemma kc_erase_min : keeps_capacity (erase_min lt).
Proof. unfold erase_min. kc_with ltac:(apply kc_move_down). Qed.

Lemma kc_erase key : keeps_capacity (erase lt key).
Proof.
  unfold erase. kc_with ltac:(apply kc_move_up || apply kc_move_down).
Qed.

Lemma kc_decreased key : keeps_capacity (decreased lt key).
Proof. unfold decreased. kc_with ltac:(apply kc_move_up). Qed.

Lemma kc_increased key : keeps_capacity (increased lt key).
Proof. unfold increased. kc_with ltac:(apply kc_move_down). Qed.

Lemma kc_reset : keeps_capacity reset.
Proof.
  intros h y h'. unfold reset. destruct (empty h); intros [= _ <-]; [done|].
  simpl. apply length_replicate.
Qed.

End Frames.

(** ** Counting the keys present *)

Lemma present_true h k : present h k = true ↔ contains h k = Some true.
Proof.
  unfold present. destruct (contains h k) as [[|]|]; split; congruence.
Qed.

Lemma element_count_spec h :
  well_formed h → element_count h = Vec.size (m_keys h) - 1.
Proof.
  intros Hwf. unfold element_count.
  assert (filter (λ k, present h k = true) (seqZ 0 (size h))
          ≡ₚ drop 1 (m_keys h)) as Hp.
  { apply NoDup_Permutation.
    - apply list.NoDup_filter, NoDup_seqZ.
    - by apply keys_NoDup.
    - intros k. rewrite list_elem_of_filter, elem_of_seqZ, present_true.
      rewrite keys_elem_of by done. split; [tauto|].
      intros Hk. split; [done|]. apply present_iff in Hk. unfold size. lia. }
  rewrite Hp, length_drop. pose proof (proj1 Hwf). unfold Vec.size in *. lia.
Qed.

(** A well-formed heap holds at most as many keys as its capacity: with a
    capacity below [2^30] every slot number that the operations compute,
    [right] of the last slot included, is an [int]. *)
Lemma keys_size_le_capacity h :
  well_formed h → Vec.size (m_keys h) ≤ size h + 1.
Proof.
  intros Hwf. pose proof (element_count_spec h Hwf) as Hc.
  unfold element_count in Hc.
  pose proof (length_filter (λ k, present h k = true) (seqZ 0 (size h))) as Hf.
  rewrite length_seqZ in Hf. unfold size, Vec.size in *. lia.
Qed.

Lemma reserve_size h s h' :
  s < 2 ^ 31 → reserve s h = Some (tt, h') → size h' = Z.max (size h) s.
Proof.
  intros Hs. unfold reserve, size.
  rewrite bind_run with (x := Vec.size (m_indices h)) (h' := h) by done.
  destruct (Vec.size (m_indices h) <? s) eqn:Hlt.
  - apply Z.ltb_lt in Hlt. unfold set_bounds. intros [= <-]. simpl.
    rewrite resize_grow by (unfold Vec.size in *; lia).
    unfold Vec.size in *. rewrite length_app, length_replicate. lia.
  - apply Z.ltb_ge in Hlt. intros [= <-]. lia.
Qed.

(** ** Sifting an element that is already in place *)

Lemma get_lookup (v : list Z) i x :
  Vec.get v i = Some x → v !! Z.to_nat i = Some x.
Proof. unfold Vec.get. by destruct (decide (0 ≤ i)). Qed.

Lemma store_id h idx key :
  key_at h idx = Some key → index_of h key = Some idx → store h idx key = h.
Proof.
  intros Hk%get_lookup Hi%get_lookup. destruct h as [ks ixs]. unfold store.
  simpl in *. f_equal; by apply list_insert_id.
Qed.

Section InPlace.

Variable lt : Z → Z → bool.

Lemma move_up_in_place h idx key :
  well_formed h → 1 ≤ idx → key_at h idx = Some key →
  (∀ pk, 2 ≤ idx → key_at h (parent idx) = Some pk → lt key pk = false) →
  move_up lt idx h = Some (tt, h).
Proof.
  intros Hwf Hidx Hk Hp. pose proof (key_at_Some _ _ _ Hk) as Hr.
  destruct (get_is_Some (m_keys h) (parent idx)) as [pk Hpk]; [slots|].
  fold (key_at h (parent idx)) in Hpk.
  assert ((parent idx =? 0) || negb (lt key pk) = true) as Hc.
  { destruct (Z.eqb_spec (parent idx) 0) as [|Hne]; [done|]. simpl.
    rewrite (Hp pk); [done|slots|done]. }
  pose proof (proj1 (proj2 Hwf) idx key Hidx Hk) as Hi.
  unfold move_up. run_with (keys_at_run _ _ _ Hk).
  run_with (move_up_loop_stop lt (Z.to_nat idx) key idx h pk Hpk Hc).
  rewrite store_run; [|lia|by eapply index_of_Some].
  by rewrite store_id.
Qed.

Lemma move_down_in_place h idx key :
  well_formed h → 1 ≤ idx → key_at h idx = Some key →
  (∀ m mk, min_child lt h (Vec.size (m_keys h)) idx = Some (m, mk) →
           lt key mk = true) →
  move_down lt idx h = Some (tt, h).
Proof.
  intros Hwf Hidx Hk Hm. pose proof (key_at_Some _ _ _ Hk) as Hr.
  pose proof (proj1 (proj2 Hwf) idx key Hidx Hk) as Hi.
  assert (move_down_loop lt (S (Z.to_nat (Vec.size (m_keys h)))) key
            (Vec.size (m_keys h)) idx h = Some (idx, h)) as Hloop.
  { destruct (decide (Vec.size (m_keys h) ≤ left idx)) as [Hl|Hl].
    - by apply move_down_loop_leaf.
    - destruct (min_child_spec lt h (Vec.size (m_keys h)) idx)
        as (m & mk & Hmc & _); [done|done|lia|].
      assert (left idx < Vec.size (m_keys h)) as Hl' by lia.
      rewrite (move_down_loop_body lt _ _ _ _ _ _ _ Hl' Hmc).
      by rewrite (Hm _ _ Hmc). }
  unfold move_down. run_with (keys_at_run _ _ _ Hk). run.
  run_with Hloop.
  rewrite store_run; [|lia|by eapply index_of_Some].
  by rewrite store_id.
Qed.

(** A key that does not sort strictly before the selected child goes down,
    and the child's key takes its slot. *)
Lemma move_down_exchanges h idx key m mk :
  well_formed h → 1 ≤ idx → key_at h idx = Some key →
  min_child lt h (Vec.size (m_keys h)) idx = Some (m, mk) →
  lt key mk = false →
  ∃ h', move_down lt idx h = Some (tt, h')
        ∧ key_at h' idx = Some mk
        ∧ ∃ j, idx < j ∧ key_at h' j = Some key.
Proof.
  intros Hwf Hidx Hk Hmc Hc. pose proof (key_at_Some _ _ _ Hk) as Hr.
  pose proof (hole_open _ _ _ Hwf Hidx Hk) as Hh.
  assert (left idx < Vec.size (m_keys h)) as Hl.
  { unfold min_child in Hmc.
    destruct (key_at h (left idx)) as [lk|] eqn:Hlk; [|done].
    apply key_at_Some in Hlk. lia. }
  destruct (min_child_spec lt h (Vec.size (m_keys h)) idx)
    as (m' & mk' & Hmc' & Hpm & Hmr & Him & Hmk & _); [done|done|done|].
  rewrite Hmc in Hmc'. injection Hmc' as <- <-.
  pose proof Hh as (_ & _ & Hki & _).
  destruct (Hki m mk ltac:(lia) ltac:(lia) Hmk) as [_ Hmki].
  pose proof (index_of_Some _ _ _ Hmki) as Hmkr.
  destruct (hole_shift h idx key m mk Hh ltac:(lia) ltac:(lia) Hmk) as [Hh1 _].
  destruct (move_down_loop_spec lt (Z.to_nat (Vec.size (m_keys h)))
              (store h idx mk) m key (Vec.size (m_keys h)))
    as (j & h2 & Hrun & Hh2 & _ & Hle & Hbelow & _);
    [by rewrite keys_size_store|done|lia|].
  pose proof Hh2 as (Hj & (x0 & _ & Hx0) & _).
  exists (store h2 j key). split.
  - unfold move_down. run_with (keys_at_run _ _ _ Hk). run.
    rewrite (bind_run _ _ _ j h2).
    + rewrite store_run; [done|lia|by eapply index_of_Some].
    + rewrite (move_down_loop_body lt _ _ _ _ _ _ _ Hl Hmc). rewrite Hc.
      pose proof (store_run h idx mk ltac:(lia) Hmkr) as Hs.
      unfold mbind, M_bind in *.
      destruct (keys_put idx mk h) as [[[] h1]|]; [|done].
      destruct (indices_put mk idx h1) as [[[] h3]|]; [|done].
      by injection Hs as ->.
  - split.
    + rewrite key_at_store by lia. rewrite decide_False by lia.
      rewrite Hbelow by lia. rewrite key_at_store by lia.
      by rewrite decide_True.
    + exists j. split; [lia|]. rewrite key_at_store by lia.
      by rewrite decide_True.
Qed.

Lemma decreased_in_place h key :
  well_formed h → ordered lt h → contains h key = Some true →
  decreased lt key h = Some (tt, h).
Proof.
  intros Hwf Ho Hc. pose proof Hc as (idx & Hidx0 & Hidx)%contains_true.
  destruct (wf_slot _ _ _ Hwf Hidx Hidx0) as [Hir Hkey].
  unfold decreased. run_with (call_run (λ h, contains h key) h _ Hc). run.
  run_with (indices_at_run _ _ _ Hidx).
  apply (move_up_in_place h idx key); [done|lia|done|].
  intros pk Hi2 Hpk. by apply (Ho idx).
Qed.

Lemma increased_in_place h key :
  well_formed h → ordered lt h → no_ties lt →
  contains h key = Some true →
  increased lt key h = Some (tt, h).
Proof.
  intros Hwf Ho Hnt Hc. pose proof Hc as (idx & Hidx0 & Hidx)%contains_true.
  destruct (wf_slot _ _ _ Hwf Hidx Hidx0) as [Hir Hkey].
  unfold increased. run_with (call_run (λ h, contains h key) h _ Hc). run.
  run_with (indices_at_run _ _ _ Hidx).
  apply (move_down_in_place h idx key); [done|lia|done|].
  intros m mk Hmc.
  assert (left idx < Vec.size (m_keys h)) as Hl.
  { unfold min_child in Hmc.
    destruct (key_at h (left idx)) as [lk|] eqn:Hlk; [|done].
    apply key_at_Some in Hlk. lia. }
  destruct (min_child_spec lt h (Vec.size (m_keys h)) idx)
    as (m' & mk' & Hmc' & Hpm & Hmr & Him & Hmk & _); [done|lia|done|].
  rewrite Hmc in Hmc'. injection Hmc' as <- <-.
  apply Hnt.
  - apply (wf_key_ne h m idx); (done || lia).
  - apply (Ho m); [lia|done|by rewrite Hpm].
Qed.

End InPlace.

(** ** Insertion followed by erasure *)

Lemma get_of_nat (v : list Z) (i : nat) : Vec.get v (Z.of_nat i) = v !! i.
Proof. unfold Vec.get. rewrite decide_True by lia. by rewrite Nat2Z.id. Qed.

(** A well-formed heap is determined by its position array and its
    capacity. *)
Lemma heap_ext h h' :
  well_formed h → well_formed h' →
  (∀ i, key_at h' i = key_at h i) →
  length (m_indices h') = length (m_indices h) →
  h' = h.
Proof.
  intros Hwf Hwf' Hk Hlen.
  assert (m_keys h' = m_keys h) as Hks.
  { apply list_eq. intros i. rewrite <- !get_of_nat. apply (Hk (Z.of_nat i)). }
  assert (m_indices h' = m_indices h) as His.
  { apply list_eq. intros k. rewrite <- !get_of_nat.
    change (index_of h' (Z.of_nat k) = index_of h (Z.of_nat k)).
    destruct (decide (Z.of_nat k < Vec.size (m_indices h))) as [Hr|Hr].
    - destruct (get_is_Some (m_indices h) (Z.of_nat k)) as [i Hi]; [lia|].
      destruct (get_is_Some (m_indices h') (Z.of_nat k)) as [i' Hi'];
        [unfold Vec.size in *; lia|].
      fold (index_of h (Z.of_nat k)) in Hi.
      fold (index_of h' (Z.of_nat k)) in Hi'. rewrite Hi, Hi'. f_equal.
      destruct (decide (i = 0)) as [->|Hi0].
      + destruct (decide (i' = 0)) as [->|Hi0']; [done|].
        destruct (wf_slot _ _ _ Hwf' Hi' Hi0') as [Hr' Hs]. rewrite Hk in Hs.
        apply (proj1 (proj2 Hwf)) in Hs; [|lia]. congruence.
      + destruct (wf_slot _ _ _ Hwf Hi Hi0) as [Hr' Hs]. rewrite <- Hk in Hs.
        apply (proj1 (proj2 Hwf')) in Hs; [|lia]. congruence.
    - unfold index_of. rewrite !get_None; [done| |];
        unfold Vec.size in *; lia. }
  destruct h, h'. simpl in *. congruence.
Qed.

Section RoundTrip.

Variable lt : Z → Z → bool.
Hypothesis Hlt : strict_weak_order lt.
Hypothesis Hnt : no_ties lt.

(** The heap before the insertion, the inserted key, and the key [b] that
    the first iteration of the sift-up loop moves to the new last slot. *)
Variable H : heap.
Variable key b : Z.
Hypothesis Hwf : well_formed H.
Hypothesis Hord : ordered lt H.

Let n := Vec.size (m_keys H).

Lemma strict_pairs c x y :
  2 ≤ c → key_at H c = Some x → key_at H (parent c) = Some y →
  lt y x = true.
Proof.
  intros Hc Hx Hy. apply Hnt.
  - apply (wf_key_ne H c (parent c)); (done || slots).
  - by apply (Hord c).
Qed.

Lemma round_trip_loop fuel : ∀ h idx j h',
  1 ≤ idx < n →
  Vec.size (m_keys h) = n + 1 →
  Vec.size (m_indices h) = Vec.size (m_indices H) →
  (∀ i, i < n → i ≠ idx → (i < idx ∨ parent i = parent idx) →
        key_at h i = key_at H i) →
  (∀ x, key_at H idx = Some x → lt b x = false) →
  move_up_loop lt fuel key idx h = Some (j, h') →
  1 ≤ j ≤ idx
  ∧ Vec.size (m_keys h') = n + 1
  ∧ (∀ i, idx < i → key_at h' i = key_at h i)
  ∧ (∀ i, i < j → key_at h' i = key_at H i)
  ∧ (∀ x, key_at H j = Some x → lt b x = false)
  ∧ ∀ hd,
      Vec.size (m_keys hd) = n →
      Vec.size (m_indices hd) = Vec.size (m_indices H) →
      (∀ i, i < n → i ≠ j → key_at hd i = key_at h' i) →
      ∃ (k : nat) hd',
        Z.of_nat k ≤ idx - j
        ∧ Vec.size (m_keys hd') = n
        ∧ Vec.size (m_indices hd') = Vec.size (m_indices H)
        ∧ (∀ i, i < n → i ≠ idx → key_at hd' i = key_at h i)
        ∧ ∀ fd, move_down_loop lt (k + fd) b n j hd
                = move_down_loop lt fd b n idx hd'.
Proof.
  induction fuel as [|f IH]; intros h idx j h' Hidx Hks His Hagree Hb Hrun;
    [done|].
  destruct (get_is_Some (m_keys h) (parent idx)) as [pk Hpk]; [slots|].
  fold (key_at h (parent idx)) in Hpk.
  destruct ((parent idx =? 0) || negb (lt key pk)) eqn:Hc.
  - rewrite (move_up_loop_stop lt _ _ _ _ _ Hpk Hc) in Hrun.
    injection Hrun as <- <-.
    split; [lia|]. split; [done|]. split; [done|]. split.
    { intros i Hi. apply Hagree; [lia|lia|left; lia]. }
    split; [done|]. intros hd Hdk Hdi Hd.
    exists O, hd. split; [lia|]. split; [done|]. split; [done|]. done.
  - apply orb_false_iff in Hc as Hc'. destruct Hc' as [Hp0 Hkp].
    apply Z.eqb_neq in Hp0. apply negb_false_iff in Hkp.
    assert (1 ≤ parent idx < idx ∧ 2 ≤ idx) as [Hp Hi2] by slots.
    assert (key_at H (parent idx) = Some pk) as HpkH.
    { rewrite <- Hagree; [done|lia|lia|left; lia]. }
    pose proof (proj1 (proj2 Hwf) (parent idx) pk ltac:(lia) HpkH) as Hpki.
    pose proof (index_of_Some _ _ _ Hpki) as Hpkr.
    rewrite (move_up_loop_step lt _ _ _ _ _ Hpk Hc) in Hrun
      by (rewrite ?His; lia).
    destruct (get_is_Some (m_keys H) idx) as [xi Hxi]; [fold n; lia|].
    fold (key_at H idx) in Hxi.
    destruct (IH (store h idx pk) (parent idx) j h')
      as (Hj & Hks' & Hup & Hlow & Hbj & Hdown); try done.
    + lia.
    + by rewrite keys_size_store.
    + by rewrite indices_size_store.
    + intros i Hin Hip Hcase. rewrite key_at_store by lia.
      rewrite decide_False by slots. apply Hagree; [done|slots|left; slots].
    + intros x Hx. rewrite HpkH in Hx. injection Hx as <-.
      apply (lt_negtrans lt Hlt _ xi); [by apply Hb|by apply (Hord idx)].
    + split; [lia|]. split; [done|]. split.
      { intros i Hi. rewrite Hup by lia. rewrite key_at_store by lia.
        by rewrite decide_False by lia. }
      split; [done|]. split; [done|].
      intros hd Hdk Hdi Hd.
      destruct (Hdown hd Hdk Hdi Hd) as (k & hdp & Hk & Hpk' & Hpi & Hp' & Heq).
      assert (key_at hdp idx = Some pk) as Hdidx.
      { rewrite Hp' by lia. rewrite key_at_store by lia.
        by rewrite decide_True. }
      assert (∀ q, q < n → q ≠ idx → parent q = parent idx →
                   key_at hdp q = key_at H q) as Hsib.
      { intros q Hq Hqi Hqp. rewrite Hp' by slots.
        rewrite key_at_store by lia. rewrite decide_False by done.
        apply Hagree; [done|done|by right]. }
      assert (min_child lt hdp n (parent idx) = Some (idx, pk)) as Hmc.
      { unfold min_child.
        destruct (parent_child idx (parent idx) eq_refl) as [Hl|Hr].
        - rewrite <- Hl, Hdidx. simpl.
          destruct (right (parent idx) <? n) eqn:Hrn; [|done].
          apply Z.ltb_lt in Hrn.
          destruct (get_is_Some (m_keys H) (right (parent idx)))
            as [rk Hrk]; [fold n; slots|].
          fold (key_at H (right (parent idx))) in Hrk.
          rewrite (Hsib (right (parent idx))); [|done|slots|apply parent_right].
          rewrite Hrk. simpl.
          rewrite (lt_asym lt Hlt pk rk); [done|].
          apply (strict_pairs (right (parent idx))); [slots|done|].
          by rewrite parent_right.
        - destruct (get_is_Some (m_keys H) (left (parent idx)))
            as [lk Hlk]; [fold n; slots|].
          fold (key_at H (left (parent idx))) in Hlk.
          rewrite (Hsib (left (parent idx))); [|slots|slots|apply parent_left].
          rewrite Hlk. simpl. rewrite <- Hr.
          rewrite (proj2 (Z.ltb_lt _ _)) by lia. rewrite Hdidx. simpl.
          rewrite (strict_pairs (left (parent idx)) lk pk); [done|slots|done|].
          by rewrite parent_left. }
      exists (S k), (store hdp (parent idx) pk).
      split; [lia|]. split; [by rewrite keys_size_store|].
      split; [by rewrite indices_size_store|]. split.
      { intros i Hin Hii. rewrite key_at_store by lia.
        destruct (decide (i = parent idx)) as [->|Hne]; [done|].
        rewrite Hp' by done. rewrite key_at_store by lia.
        by rewrite decide_False. }
      intros fd. replace (S k + fd)%nat with (k + S fd)%nat by lia.
      rewrite Heq.
      assert (left (parent idx) < n) as Hln by slots.
      rewrite (move_down_loop_body lt _ _ _ _ _ _ _ Hln Hmc).
      assert (lt b pk = false) as ->.
      { apply (lt_negtrans lt Hlt _ xi); [by apply Hb|by apply (Hord idx)]. }
      pose proof (store_run hdp (parent idx) pk ltac:(lia)
                    ltac:(rewrite Hpi; done)) as Hs.
      unfold mbind, M_bind in *.
      destruct (keys_put (parent idx) pk hdp) as [[[] h1]|]; [|done].
      destruct (indices_put pk (parent idx) h1) as [[[] h2]|]; [|done].
      by injection Hs as ->.
Qed.

End RoundTrip.

Section InsertErase.

Variable lt : Z → Z → bool.
Hypothesis Hlt : strict_weak_order lt.
Hypothesis Hnt : no_ties lt.

Variable H : heap.
Variable key : Z.
Hypothesis Hwf : well_formed H.
Hypothesis Hord : ordered lt H.
Hypothesis Hkey : index_of H key = Some 0.

Let n := Vec.size (m_keys H).
Let h1 := Heap (Vec.push_back (m_keys H) key)
               (<[Z.to_nat key := n]> (m_indices H)).

(** The inserted key stays in the slot appended for it. *)
Lemma insert_erase_last :
  (∀ pk, 2 ≤ n → key_at H (parent n) = Some pk → lt key pk = false) →
  insert lt key H = Some (tt, h1) ∧ erase lt key h1 = Some (tt, H).
Proof.
  intros Hstay.
  destruct (pushed_wf H key Hwf Hkey) as (Hwf1 & Hk1 & Hi1).
  fold n in Hk1, Hi1. fold h1 in Hwf1, Hk1, Hi1.
  assert (1 ≤ n) as Hn by apply Hwf.
  assert (Vec.size (m_keys h1) = n + 1) as Hsz1
    by (unfold h1; simpl; by rewrite size_push_back).
  assert (key_at h1 n = Some key) as Hkn
    by (rewrite Hk1; by rewrite decide_True).
  assert (index_of h1 key = Some n) as Hin
    by (rewrite Hi1; by rewrite decide_True).
  split.
  - rewrite insert_unfold by done. fold n. fold h1.
    apply (move_up_in_place lt h1 n key); [done|done|done|].
    intros pk Hn2. rewrite Hk1. rewrite decide_False by slots. by apply Hstay.
  - assert (contains h1 key = Some true) as Hc.
    { apply contains_true. exists n. split; [lia|done]. }
    rewrite (erase_unfold lt h1 key n Hc Hin).
    rewrite Hsz1, Z.add_simpl_r, Z.eqb_refl.
    destruct (popped_wf h1 key Hwf1)
      as (hp & Hrun & Hwfp & Hszp & Hlenp & Hkp & Hip).
    { lia. }
    { by rewrite Hsz1, Z.add_simpl_r. }
    rewrite Hrun. do 2 f_equal. apply heap_ext; [done|done| |].
    + intros i. rewrite Hkp, Hsz1, Z.add_simpl_r, Hk1.
      destruct (decide (i = n)) as [->|]; [|done].
      symmetry. apply get_None. fold n. lia.
    + rewrite Hlenp. unfold h1. simpl. by rewrite length_insert.
Qed.

(** The inserted key moves up; the key [b] of the parent of the appended slot
    takes that slot, and comes back when the inserted key is erased. *)
Lemma insert_erase_moved b :
  2 ≤ n → key_at H (parent n) = Some b → lt key b = true →
  ∃ h3, insert lt key H = Some (tt, h3) ∧ erase lt key h3 = Some (tt, H).
Proof.
  intros Hn2 Hb Hkb.
  destruct (pushed_wf H key Hwf Hkey) as (Hwf1 & Hk1 & Hi1).
  fold n in Hk1, Hi1. fold h1 in Hwf1, Hk1, Hi1.
  assert (1 ≤ parent n < n) as Hp1 by slots.
  assert (Vec.size (m_keys h1) = n + 1) as Hsz1
    by (unfold h1; simpl; by rewrite size_push_back).
  assert (Vec.size (m_indices h1) = Vec.size (m_indices H)) as His1
    by (unfold h1; simpl; by rewrite size_insert).
  assert (key_at h1 n = Some key) as Hkn
    by (rewrite Hk1; by rewrite decide_True).
  assert (key_at h1 (parent n) = Some b) as Hb1
    by (rewrite Hk1; by rewrite decide_False by lia).
  pose proof (proj1 (proj2 Hwf) (parent n) b ltac:(lia) Hb) as Hbi.
  pose proof (index_of_Some _ _ _ Hbi) as Hbr.
  pose proof (index_of_Some _ _ _ Hkey) as Hkr.
  destruct (insert_spec lt H key Hwf Hkey)
    as (h3 & Hins & Hwf3 & Hsz3 & Hlen3 & _ & _).
  exists h3. split; [done|].
  (* the sift-up loop *)
  assert ((parent n =? 0) || negb (lt key b) = false) as Hc.
  { rewrite Hkb. simpl. rewrite orb_false_r. apply Z.eqb_neq. lia. }
  set (h2 := store h1 n b).
  assert (move_up_loop lt (S (Z.to_nat n)) key n h1
          = move_up_loop lt (Z.to_nat n) key (parent n) h2) as Hstep.
  { apply move_up_loop_step; [done|done|lia|lia]. }
  destruct (move_up_loop lt (Z.to_nat n) key (parent n) h2)
    as [[j h']|] eqn:Hloop.
  2:{ rewrite insert_unfold in Hins by done. fold n h1 in Hins.
      unfold move_up in Hins. rewrite (bind_run _ _ _ _ _ (keys_at_run _ _ _ Hkn)) in Hins.
      unfold mbind at 1, M_bind at 1 in Hins. by rewrite Hstep in Hins. }
  destruct (round_trip_loop lt Hlt Hnt H key b Hwf Hord
              (Z.to_nat n) h2 (parent n) j h')
    as (Hj & Hks' & Hup & Hlow & Hbj & Hdown); try done.
  { unfold h2. rewrite keys_size_store. done. }
  { unfold h2. rewrite indices_size_store. done. }
  { intros i Hi _ _. unfold h2. rewrite key_at_store by lia.
    rewrite decide_False by (fold n in Hi; lia). rewrite Hk1.
    by rewrite decide_False by (fold n in Hi; lia). }
  { intros x Hx. rewrite Hb in Hx. injection Hx as <-.
    apply (lt_irrefl lt Hlt). }
  fold n in Hj, Hks', Hlow, Hdown.
  assert (Vec.size (m_indices h') = Vec.size (m_indices H)) as His'.
  { unfold Vec.size. rewrite (kc_move_up_loop lt _ _ _ _ _ _ Hloop).
    unfold h2, store, h1. simpl. by rewrite !length_insert. }
  assert (h3 = store h' j key) as ->.
  { rewrite insert_unfold in Hins by done. fold n h1 in Hins.
    unfold move_up in Hins.
    rewrite (bind_run _ _ _ _ _ (keys_at_run _ _ _ Hkn)) in Hins.
    rewrite (bind_run _ _ _ _ _ Hstep) in Hins.
    rewrite store_run in Hins by (rewrite ?His'; lia). congruence. }
  assert (∀ i, key_at (store h' j key) i
               = if decide (i = j) then Some key else key_at h' i) as Hk3
    by (intros i; apply key_at_store; lia).
  assert (index_of (store h' j key) key = Some j) as Hi3.
  { rewrite index_of_store by (rewrite His'; lia). by rewrite decide_True. }
  assert (Vec.size (m_keys (store h' j key)) = n + 1) as Hsz3'
    by (by rewrite keys_size_store).
  (* erase *)
  assert (contains (store h' j key) key = Some true) as Hc3.
  { apply contains_true. exists j. split; [lia|done]. }
  destruct (erase_spec lt _ key Hwf3 Hc3)
    as (h5 & Her & Hwf5 & Hsz5 & Hlen5 & _ & _).
  rewrite Her. do 2 f_equal.
  rewrite (erase_unfold lt _ key j Hc3 Hi3) in Her.
  rewrite Hsz3', Z.add_simpl_r in Her.
  rewrite (proj2 (Z.eqb_neq j n)) in Her by lia.
  destruct (key_at_back (store h' j key)) as (last & Hback & Hlast); [lia|].
  rewrite Hsz3', Z.add_simpl_r in Hlast.
  assert (last = b) as ->.
  { rewrite Hk3 in Hlast. rewrite decide_False in Hlast by lia.
    rewrite Hup in Hlast by lia. unfold h2 in Hlast.
    rewrite key_at_store in Hlast by lia. rewrite decide_True in Hlast by done.
    congruence. }
  destruct (detached_wf (store h' j key) j key b Hwf3)
    as (hd & Hrund & Hwfd & Hszd & Hlend & Hkd & Hid).
  { rewrite Hsz3'. lia. }
  { rewrite Hk3. by rewrite decide_True. }
  { by rewrite Hsz3', Z.add_simpl_r. }
  rewrite Hsz3', Z.add_simpl_r in Hszd, Hkd.
  assert (Vec.size (m_indices hd) = Vec.size (m_indices H)) as Hisd.
  { unfold Vec.size in *. rewrite Hlend. unfold store. simpl.
    rewrite length_insert. lia. }
  assert (erase_tail :
    (if parent j =? 0 then move_down lt j
     else parent_key ← keys_at (parent j);
          if lt b parent_key then move_up lt j else move_down lt j) hd
    = move_down lt j hd).
  { destruct (parent j =? 0) eqn:Hpj; [done|]. apply Z.eqb_neq in Hpj.
    destruct (get_is_Some (m_keys H) (parent j)) as [pk Hpk];
      [fold n; slots|].
    fold (key_at H (parent j)) in Hpk.
    destruct (get_is_Some (m_keys H) j) as [xj Hxj]; [fold n; lia|].
    fold (key_at H j) in Hxj.
    assert (key_at hd (parent j) = Some pk) as Hpkd.
    { rewrite Hkd. rewrite decide_False by slots.
      rewrite decide_False by slots. rewrite Hk3.
      rewrite decide_False by slots. rewrite Hlow by slots. done. }
    run_with (keys_at_run _ _ _ Hpkd).
    rewrite (lt_negtrans lt Hlt b xj pk); [done|by apply Hbj|].
    apply (Hord j); [slots|done|done]. }
  assert (Her' : move_down lt j hd = Some (tt, h5)).
  { rewrite <- erase_tail. rewrite <- Her.
    apply bind_Some in Hrund as ([] & g2 & Hr1 & Hrund).
    apply bind_Some in Hrund as ([] & g3 & Hr2 & Hrund).
    apply bind_Some in Hrund as ([] & g4 & Hr3 & Hr4).
    run_with Hback. run_with Hr1. run_with Hr2. run_with Hr3.
    by run_with Hr4. }
  clear Her erase_tail.
  (* the sift-down loop *)
  destruct (Hdown hd Hszd Hisd) as (k & hd' & Hk & Hsz' & Hisz' & Hagree & Heq).
  { intros i Hi Hij. rewrite Hkd. rewrite decide_False by done.
    rewrite decide_False by lia. rewrite Hk3. by rewrite decide_False. }
  assert (∀ i, i < n → i ≠ parent n → key_at hd' i = key_at H i) as HagreeH.
  { intros i Hi Hip. rewrite Hagree by done. unfold h2.
    rewrite key_at_store by lia. rewrite decide_False by lia.
    rewrite Hk1. by rewrite decide_False by lia. }
  assert (∀ fd, move_down_loop lt (S fd) b n (parent n) hd'
                = Some (parent n, hd')) as Hlaststep.
  { intros fd. destruct (decide (n ≤ left (parent n))) as [Hl|Hl].
    - by apply move_down_loop_leaf.
    - destruct (get_is_Some (m_keys H) (left (parent n))) as [c Hcl];
        [fold n; slots|].
      fold (key_at H (left (parent n))) in Hcl.
      assert (min_child lt hd' n (parent n) = Some (left (parent n), c))
        as Hmc.
      { unfold min_child. rewrite (HagreeH (left (parent n))) by slots.
        rewrite Hcl. simpl.
        by rewrite (proj2 (Z.ltb_ge _ _)) by slots. }
      assert (left (parent n) < n) as Hl' by lia.
      rewrite (move_down_loop_body lt _ _ _ _ _ _ _ Hl' Hmc).
      rewrite (strict_pairs lt Hnt H Hwf Hord (left (parent n)) c b);
        [done|slots|done|by rewrite parent_left]. }
  assert (key_at hd j = Some b) as Hbd
    by (rewrite Hkd; by rewrite decide_True).
  unfold move_down in Her'.
  rewrite (bind_run _ _ _ _ _ (keys_at_run _ _ _ Hbd)) in Her'.
  unfold keys_size at 1 in Her'. unfold mbind at 1, M_bind at 1 in Her'.
  rewrite Hszd in Her'.
  replace (S (Z.to_nat n)) with (k + S (Z.to_nat n - k))%nat in Her' by lia.
  rewrite (bind_run _ _ _ (parent n) hd') in Her'
    by (rewrite Heq; apply Hlaststep).
  rewrite store_run in Her' by (rewrite ?Hisz'; lia).
  injection Her' as <-.
  apply heap_ext; [done|done| |].
  - intros i. rewrite key_at_store by lia.
    destruct (decide (i = parent n)) as [->|Hne]; [done|].
    destruct (decide (i < n)) as [Hi|Hi]; [by apply HagreeH|].
    unfold key_at. rewrite !get_None; [done|fold n; lia|lia].
  - rewrite Hlen5. unfold store. simpl. rewrite length_insert.
    unfold Vec.size in His'. lia.
Qed.

(** Round trip, in the absence of ties. *)
Lemma insert_erase :
  ∃ h3, insert lt key H = Some (tt, h3) ∧ erase lt key h3 = Some (tt, H).
Proof.
  destruct (decide (2 ≤ n)) as [Hn|Hn].
  - destruct (get_is_Some (m_keys H) (parent n)) as [b Hb]; [fold n; slots|].
    fold (key_at H (parent n)) in Hb.
    destruct (lt key b) eqn:Hkb.
    + by apply (insert_erase_moved b).
    + exists h1. apply insert_erase_last. intros pk _ Hpk. congruence.
  - exists h1. apply insert_erase_last. intros pk ?. lia.
Qed.

End InsertErase.

(** ** The debug check *)

Section Check.

Variable lt : Z → Z → bool.
Variable h : heap.

Lemma check_invariant_core_complete fuel : ∀ idx,
  well_formed h → ordered lt h → 1 ≤ idx →
  Vec.size (m_keys h) ≤ idx + Z.of_nat fuel →
  check_invariant_core lt fuel h idx = true.
Proof.
  induction fuel as [|f IH]; intros idx Hwf Ho Hidx Hf.
  - simpl. by rewrite (proj2 (Z.ltb_ge _ _)) by lia.
  - cbn [check_invariant_core].
    destruct (idx <? Vec.size (m_keys h)) eqn:Hlt; [|done].
    apply Z.ltb_lt in Hlt.
    destruct (get_is_Some (m_keys h) idx) as [k Hk]; [lia|]. rewrite Hk.
    fold (key_at h idx) in Hk.
    pose proof (proj1 (proj2 Hwf) idx k Hidx Hk) as Hi.
    unfold index_of in Hi. rewrite Hi, Z.eqb_refl. simpl.
    rewrite !IH by (done || slots). rewrite !andb_true_r.
    destruct (Z.eqb_spec (parent idx) 0) as [|Hp]; [done|]. simpl.
    destruct (get_is_Some (m_keys h) (parent idx)) as [pk Hpk]; [slots|].
    rewrite Hpk. unfold less_than. rewrite (Ho idx k pk); [done|slots|done|done].
Qed.

Lemma check_invariant_core_sound fuel : ∀ idx,
  check_invariant_core lt fuel h idx = true →
  ∀ j k, desc idx j → key_at h j = Some k →
    index_of h k = Some j
    ∧ ∀ pk, parent j ≠ 0 → key_at h (parent j) = Some pk → lt k pk = false.
Proof.
  induction fuel as [|f IH]; intros idx Hc j k Hd Hk.
  - simpl in Hc. destruct (idx <? Vec.size (m_keys h)) eqn:Hlt; [done|].
    apply Z.ltb_ge in Hlt. apply key_at_Some in Hk.
    destruct (decide (0 ≤ idx)) as [Hi|Hi].
    + pose proof (desc_le idx j Hi Hd). lia.
    + destruct Hd as [d Hd]. pose proof (anc_le d j ltac:(lia)). lia.
  - cbn [check_invariant_core] in Hc.
    destruct (idx <? Vec.size (m_keys h)) eqn:Hlt.
    + destruct (Vec.get (m_keys h) idx) as [k0|] eqn:Hk0; [|done].
      apply andb_true_iff in Hc as [Hc Hr].
      apply andb_true_iff in Hc as [Hc Hl].
      apply andb_true_iff in Hc as [Hi Hp].
      apply desc_cases in Hd as [->|[Hd|Hd]].
      * unfold key_at in Hk. rewrite Hk0 in Hk. injection Hk as <-. split.
        -- unfold index_of. destruct (Vec.get (m_indices h) k0); [|done].
           apply Z.eqb_eq in Hi. by subst.
        -- intros pk Hp0 Hpk. unfold key_at in Hpk. rewrite Hpk in Hp.
           rewrite (proj2 (Z.eqb_neq _ _) Hp0) in Hp. simpl in Hp.
           by apply negb_true_iff in Hp.
      * by apply (IH (left idx)).
      * by apply (IH (right idx)).
    + apply Z.ltb_ge in Hlt. apply key_at_Some in Hk.
      destruct (decide (0 ≤ idx)) as [Hi|Hi].
      * pose proof (desc_le idx j Hi Hd). lia.
      * destruct Hd as [d Hd]. pose proof (anc_le d j ltac:(lia)). lia.
Qed.

Lemma check_invariant_true :
  well_formed h → ordered lt h → check_invariant lt h = true.
Proof.
  intros Hwf Ho. apply check_invariant_core_complete; [done|done|done|].
  unfold Vec.size. lia.
Qed.

Lemma check_invariant_ordered :
  check_invariant lt h = true →
  (∀ i k, 1 ≤ i → key_at h i = Some k → index_of h k = Some i)
  ∧ ordered lt h.
Proof.
  intros Hc. split.
  - intros i k Hi Hk.
    by apply (check_invariant_core_sound _ 1 Hc i k (desc_root i Hi) Hk).
  - intros c a b Hc2 Ha Hb.
    apply (check_invariant_core_sound _ 1 Hc c a (desc_root c ltac:(lia)) Ha);
      [slots|done].
Qed.

End Check.

(** ** Deciding the invariant, and the example comparators *)

Lemma heap_inv_b_sound lt h : heap_inv_b lt h = true → heap_inv lt h.
Proof.
  unfold heap_inv_b. intros Hb.
  apply andb_true_iff in Hb as [Hb Hback].
  apply andb_true_iff in Hb as [Hsz Hc].
  apply Z.leb_le in Hsz.
  destruct (check_invariant_ordered lt h Hc) as [Hki Ho].
  split; [|done]. split; [done|]. split; [done|].
  intros k i Hk Hi. unfold indices_back in Hback.
  rewrite forallb_forall in Hback. specialize (Hback k).
  rewrite Hk in Hback. pose proof (index_of_Some _ _ _ Hk) as Hr.
  rewrite (proj2 (Z.eqb_neq _ _) Hi) in Hback. simpl in Hback.
  assert (In k (seqZ 0 (Vec.size (m_indices h)))) as Hin
    by (apply list_elem_of_In, elem_of_seqZ; lia).
  specialize (Hback Hin). destruct (key_at h i) as [k'|]; [|done].
  f_equal. by apply Z.eqb_eq.
Qed.

Lemma int_lt_swo : strict_weak_order int_lt.
Proof. unfold int_lt. split; intros; lia. Qed.

Lemma int_lt_no_ties : no_ties int_lt.
Proof. unfold int_lt. intros a b; lia. Qed.

Lemma half_lt_swo : strict_weak_order half_lt.
Proof. unfold half_lt. split; intros; lia. Qed.

Lemma StronglySorted_lookup {A} (R : A → A → Prop) (l : list A) :
  StronglySorted R l →
  ∀ (i j : nat) x y, (i < j)%nat → l !! i = Some x → l !! j = Some y → R x y.
Proof.
  induction 1 as [|a l Hs IH Hall]; intros i j x y Hij Hi Hj; [done|].
  destruct j as [|j]; [lia|]. simpl in Hj. destruct i as [|i].
  - simpl in Hi. injection Hi as <-. rewrite Forall_forall in Hall.
    apply Hall. apply list_elem_of_In. by eapply list_elem_of_lookup_2.
  - simpl in Hi. apply (IH i j); (done || lia).
Qed.

(** The example heaps are states that the operations produce. *)

Ltac reach_by_insert h :=
  apply (reach_insert _ _ h);
  [|unfold size, Vec.size; simpl; lia|reflexivity|reflexivity].

Lemma heap_413_reachable :
  reachable int_lt [EInsert 3; EInsert 1; EInsert 4] heap_413.
Proof.
  reach_by_insert (Heap [-1; 1; 4] [0; 1; 0; 0; 2]).
  reach_by_insert (Heap [-1; 4] [0; 0; 0; 0; 1]).
  reach_by_insert (mk_heap 5).
  apply reach_new; [apply int_lt_swo|lia].
Qed.

Lemma heap_01234_reachable :
  reachable int_lt [EInsert 4; EInsert 3; EInsert 2; EInsert 1; EInsert 0]
    heap_01234.
Proof.
  reach_by_insert (Heap [-1; 0; 1; 2; 3] [1; 2; 3; 4; 0]).
  reach_by_insert (Heap [-1; 0; 1; 2] [1; 2; 3; 0; 0]).
  reach_by_insert (Heap [-1; 0; 1] [1; 2; 0; 0; 0]).
  reach_by_insert (Heap [-1; 0] [1; 0; 0; 0; 0]).
  reach_by_insert (mk_heap 5).
  apply reach_new; [apply int_lt_swo|lia].
Qed.

Lemma heap_tie_reachable : reachable half_lt [EInsert 3; EInsert 2] heap_tie.
Proof.
  reach_by_insert (Heap [-1; 2] [0; 0; 1; 0]).
  reach_by_insert (mk_heap 4).
  apply reach_new; [apply half_lt_swo|lia].
Qed.

(** ** The slots that the sift loops write *)

Lemma keys_at_inv i h k h' :
  keys_at i h = Some (k, h') → h' = h ∧ key_at h i = Some k.
Proof.
  unfold keys_at, lift, key_at. destruct (Vec.get _ _); [|done].
  by intros [= <- <-].
Qed.

Lemma indices_at_inv k h i h' :
  indices_at k h = Some (i, h') → h' = h ∧ index_of h k = Some i.
Proof.
  unfold indices_at, lift, index_of. destruct (Vec.get _ _); [|done].
  by intros [= <- <-].
Qed.

Lemma keys_put_key_at i x h u h' j :
  keys_put i x h = Some (u, h') →
  key_at h' j = if decide (j = i) then Some x else key_at h j.
Proof.
  unfold keys_put, Vec.set. destruct (decide (0 ≤ i < _)) as [Hi|]; [|done].
  intros [= _ <-]. unfold key_at. simpl. by apply get_insert.
Qed.

Lemma indices_put_key_at k i h u h' j :
  indices_put k i h = Some (u, h') → key_at h' j = key_at h j.
Proof.
  unfold indices_put. destruct (Vec.set _ _ _); [|done]. by intros [= _ <-].
Qed.

Section Paths.

Variable lt : Z → Z → bool.

(** The loop of [move_up] leaves the slots above the one where it stops
    alone, and it only passes keys that sort after the moving key. *)
Lemma move_up_loop_path fuel : ∀ key idx h j h',
  1 ≤ idx →
  move_up_loop lt fuel key idx h = Some (j, h') →
  1 ≤ j ≤ idx
  ∧ (∀ i, i < j → key_at h' i = key_at h i)
  ∧ (j < idx → ∃ x, key_at h j = Some x ∧ lt key x = true).
Proof.
  induction fuel as [|f IH]; intros key idx h j h' Hidx; cbn [move_up_loop];
    [done|].
  intros (pk & h1 & [-> Hpk]%keys_at_inv & Hrun)%bind_Some.
  destruct ((parent idx =? 0) || negb (less_than lt key pk)) eqn:Hc.
  - injection Hrun as <- <-. split; [lia|]. split; [done|lia].
  - apply orb_false_iff in Hc as [Hp0%Z.eqb_neq Hlt%negb_false_iff].
    apply bind_Some in Hrun as (u1 & h2 & Hp1 & Hrun).
    apply bind_Some in Hrun as (u2 & h3 & Hp2 & Hrun).
    assert (1 ≤ parent idx < idx) as Hp by slots.
    destruct (IH _ _ _ _ _ (proj1 Hp) Hrun) as (Hj & Hsame & Hpass).
    assert (∀ i, i ≠ idx → key_at h3 i = key_at h i) as H3.
    { intros i Hi. rewrite (indices_put_key_at _ _ _ _ _ i Hp2).
      rewrite (keys_put_key_at _ _ _ _ _ i Hp1).
      by destruct (decide (i = idx)). }
    split; [lia|]. split.
    + intros i Hi. rewrite Hsame by done. apply H3. lia.
    + intros _. destruct (decide (j = parent idx)) as [->|Hne].
      * by exists pk.
      * destruct Hpass as (x & Hx & Hkx); [lia|].
        exists x. split; [|done]. rewrite <- H3 by lia. done.
Qed.

(** [move_up] does not replace the key of the root by a key that does not
    sort before it. *)
Lemma move_up_root h idx m h' :
  2 ≤ idx → key_at h 1 = Some m →
  (∀ key, key_at h idx = Some key → lt key m = false) →
  move_up lt idx h = Some (tt, h') →
  key_at h' 1 = Some m.
Proof.
  intros Hidx Hm Hkey. unfold move_up.
  intros (key & h1 & [-> Hk]%keys_at_inv & Hrun)%bind_Some.
  apply bind_Some in Hrun as (j & h2 & Hloop & Hrun).
  apply bind_Some in Hrun as (u & h3 & Hp1 & Hp2).
  assert (1 ≤ idx) as Hidx1 by lia.
  destruct (move_up_loop_path _ _ _ _ _ _ Hidx1 Hloop)
    as (Hj & Hsame & Hpass).
  assert (j ≠ 1) as Hj1.
  { intros ->. destruct Hpass as (x & Hx & Hkx); [lia|].
    rewrite Hm in Hx. injection Hx as <-.
    rewrite (Hkey _ Hk) in Hkx. done. }
  rewrite (indices_put_key_at _ _ _ _ _ 1 Hp2).
  rewrite (keys_put_key_at _ _ _ _ _ 1 Hp1).
  destruct (decide (1 = j)); [lia|]. rewrite Hsame by lia. done.
Qed.

(** The loop of [move_down] leaves the slots above its starting slot
    alone. *)
Lemma move_down_loop_above fuel : ∀ key sz idx h j h',
  0 ≤ idx →
  move_down_loop lt fuel key sz idx h = Some (j, h') →
  idx ≤ j ∧ ∀ i, i < idx → key_at h' i = key_at h i.
Proof.
  induction fuel as [|f IH]; intros key sz idx h j h' Hidx;
    cbn [move_down_loop]; [done|].
  destruct (sz <=? left idx); [by intros [= <- <-]|].
  intros (lk & h1 & [-> Hlk]%keys_at_inv & Hrun)%bind_Some.
  apply bind_Some in Hrun as (m & h1 & Hm & Hrun).
  assert (h1 = h) as ->.
  { destruct (right idx <? sz).
    - apply bind_Some in Hm as (rk & h2 & [-> _]%keys_at_inv & Hm).
      by injection Hm as _ <-.
    - by injection Hm as _ <-. }
  apply bind_Some in Hrun as (u & h1 & Ha & Hrun).
  destruct (parent m =? idx) eqn:Hpm; [|done].
  injection Ha as _ <-. apply Z.eqb_eq in Hpm.
  apply bind_Some in Hrun as (mk & h1 & [-> Hmk]%keys_at_inv & Hrun).
  destruct (less_than lt key mk); [by injection Hrun as <- <-|].
  apply bind_Some in Hrun as (u1 & h2 & Hp1 & Hrun).
  apply bind_Some in Hrun as (u2 & h3 & Hp2 & Hrun).
  assert (idx ≤ m) as Hle by slots.
  assert (0 ≤ m) as Hm0 by lia.
  destruct (IH _ _ _ _ _ _ Hm0 Hrun) as (Hj & Hsame).
  split; [lia|]. intros i Hi. rewrite Hsame by lia.
  rewrite (indices_put_key_at _ _ _ _ _ i Hp2).
  rewrite (keys_put_key_at _ _ _ _ _ i Hp1).
  destruct (decide (i = idx)); [lia|done].
Qed.

Lemma move_down_above h idx h' :
  0 ≤ idx → move_down lt idx h = Some (tt, h') →
  ∀ i, i < idx → key_at h' i = key_at h i.
Proof.
  intros Hidx. unfold move_down.
  intros (key & h1 & [-> Hk]%keys_at_inv & Hrun)%bind_Some.
  apply bind_Some in Hrun as (sz & h1 & Hsz & Hrun).
  injection Hsz as <- <-.
  apply bind_Some in Hrun as (j & h2 & Hloop & Hrun).
  apply bind_Some in Hrun as (u & h3 & Hp1 & Hp2).
  destruct (move_down_loop_above _ _ _ _ _ _ _ Hidx Hloop) as (Hj & Hsame).
  intros i Hi.
  rewrite (indices_put_key_at _ _ _ _ _ i Hp2).
  rewrite (keys_put_key_at _ _ _ _ _ i Hp1).
  destruct (decide (i = j)); [lia|]. by apply Hsame.
Qed.

End Paths.

(** ** Comparators given by a priority table *)

Lemma by_priority_swo p : strict_weak_order (by_priority p).
Proof.
  unfold by_priority. split.
  - intros a b Hab%Z.ltb_lt. apply Z.ltb_ge. lia.
  - intros a b c Hab%Z.ltb_ge Hbc%Z.ltb_ge. apply Z.ltb_ge. lia.
Qed.

Lemma bumped_4_decreased :
  priority_decreased int_lt (by_priority bumped_4) 4.
Proof.
  unfold priority_decreased, by_priority, bumped_4, int_lt.
  split; [|split].
  - intros x y Hx Hy. destruct (Z.eqb_spec x 4); [done|].
    by destruct (Z.eqb_spec y 4).
  - intros x Hx%Z.ltb_ge. simpl. apply Z.ltb_ge.
    destruct (Z.eqb_spec x 4); lia.
  - intros x Hx%Z.ltb_lt. simpl. apply Z.ltb_lt.
    destruct (Z.eqb_spec x 4); lia.
Qed.

(** The keys present in a heap lie in the range of the index array. *)
Lemma contains_range h k :
  contains h k = Some true → 0 ≤ k < size h.
Proof. intros Hc%present_iff. unfold size. tauto. Qed.

Lemma all_tied_swo : strict_weak_order all_tied.
Proof. by split. Qed.

Lemma heap_431_wf : well_formed heap_431.
Proof.
  apply (proj1 (heap_inv_b_sound all_tied heap_431 eq_refl)).
Qed.

(** ** Sifting down in a heap that is in order *)

Lemma move_down_ordered lt h idx :
  well_formed h → ordered lt h → no_ties lt →
  1 ≤ idx < Vec.size (m_keys h) →
  move_down lt idx h = Some (tt, h).
Proof.
  intros Hwf Ho Hnt Hidx.
  destruct (get_is_Some (m_keys h) idx) as [key Hkey]; [lia|].
  fold (key_at h idx) in Hkey.
  apply (move_down_in_place lt h idx key); [done|lia|done|].
  intros m mk Hmc.
  assert (left idx < Vec.size (m_keys h)) as Hl.
  { unfold min_child in Hmc.
    destruct (key_at h (left idx)) as [lk|] eqn:Hlk; [|done].
    apply key_at_Some in Hlk. lia. }
  destruct (min_child_spec lt h (Vec.size (m_keys h)) idx)
    as (m' & mk' & Hmc' & Hpm & Hmr & Him & Hmk & _); [done|lia|done|].
  rewrite Hmc in Hmc'. injection Hmc' as <- <-.
  apply Hnt.
  - apply (wf_key_ne h m idx); (done || lia).
  - apply (Ho m); [lia|done|by rewrite Hpm].
Qed.

Lemma heapify_loop_ordered lt h (i : nat) :
  well_formed h → ordered lt h → no_ties lt →
  Z.of_nat i < Vec.size (m_keys h) →
  heapify_loop lt i h = Some (tt, h).
Proof.
  intros Hwf Ho Hnt. induction i as [|i IH]; intros Hi; [done|].
  cbn [heapify_loop].
  assert (1 ≤ Z.of_nat (S i) < Vec.size (m_keys h)) as Hr by lia.
  rewrite (bind_run _ _ _ _ _
             (move_down_ordered lt h (Z.of_nat (S i)) Hwf Ho Hnt Hr)).
  apply IH. lia.
Qed.

(** ** Membership in a heap without keys *)

Lemma empty_absent h k :
  well_formed h → empty h = true → contains h k ≠ Some true.
Proof.
  intros Hwf He (i & Hi & Hk)%present_slot; [|done].
  apply key_at_Some in Hk. unfold empty in He. apply Z.eqb_eq in He. lia.
Qed.

Lemma contains_in_range h k :
  0 ≤ k < size h → contains h k ≠ Some true → contains h k = Some false.
Proof.
  intros Hk Hc. unfold contains in *. unfold size in Hk.
  rewrite (proj2 (Z.ltb_lt _ _)) in * by lia.
  destruct (get_is_Some (m_indices h) k) as [i Hi]; [lia|].
  rewrite Hi in *. simpl in *. destruct (i =? 0); [done|]. by destruct Hc.
Qed.

(** [contains] reads outside the index array exactly for a negative key. *)
Lemma contains_None h k : contains h k = None ↔ k < 0.
Proof.
  unfold contains. destruct (Z.ltb_spec k (Vec.size (m_indices h))) as [Hk|Hk].
  - destruct (decide (0 ≤ k)) as [Hk0|Hk0].
    + destruct (get_is_Some (m_indices h) k) as [i ->]; [lia|]. simpl.
      split; [done|lia].
    + rewrite get_None by lia. simpl. split; [lia|done].
  - split; [done|]. unfold Vec.size in Hk. lia.
Qed.

Lemma contains_agree h h' :
  (∀ k, contains h' k = Some true ↔ contains h k = Some true) →
  ∀ k, contains h' k = contains h k.
Proof.
  intros Hiff k. pose proof (Hiff k) as Hk.
  pose proof (contains_None h k) as Hn. pose proof (contains_None h' k) as Hn'.
  destruct (contains h k) as [[]|], (contains h' k) as [[]|]; try done;
    first
      [ pose proof (proj1 Hk eq_refl); done
      | pose proof (proj2 Hk eq_refl); done
      | pose proof (proj1 Hn eq_refl) as Hneg;
        pose proof (proj2 Hn' Hneg); done
      | pose proof (proj1 Hn' eq_refl) as Hneg;
        pose proof (proj2 Hn Hneg); done ].
Qed.

(** ** Inserting a list of keys *)

Lemma insert_all_spec lt (l : list Z) : ∀ h,
  strict_weak_order lt → well_formed h → ordered lt h → NoDup l →
  (∀ k, k ∈ l → 0 ≤ k < size h ∧ contains h k = Some false) →
  ∃ h',
    insert_all lt l h = Some (tt, h')
    ∧ well_formed h' ∧ ordered lt h'
    ∧ Vec.size (m_keys h') = Vec.size (m_keys h) + Z.of_nat (length l)
    ∧ size h' = size h
    ∧ (∀ k, contains h' k = Some true ↔ k ∈ l ∨ contains h k = Some true).
Proof.
  intros h Hlt. revert h.
  induction l as [|k l IH]; intros h Hwf Ho Hnd Hl.
  - exists h. split; [done|]. split; [done|]. split; [done|].
    split; [simpl; lia|]. split; [done|].
    intros k. rewrite elem_of_nil. tauto.
  - apply list.NoDup_cons in Hnd as [Hkl Hnd].
    destruct (Hl k) as [Hk Hc]; [by left|].
    assert (index_of h k = Some 0) as Hik.
    { apply contains_false in Hc as [?|?]; [|done|lia].
      unfold size in Hk. lia. }
    destruct (insert_spec lt h k Hwf Hik)
      as (h1 & Hrun & Hwf1 & Hsz1 & Hlen1 & Habs & Ho1).
    specialize (Ho1 Hlt Ho).
    assert (size h1 = size h) as Hcap
      by (unfold size, Vec.size; by rewrite Hlen1).
    assert (∀ x, contains h1 x = Some true
                 ↔ x = k ∨ (¬ False ∧ contains h x = Some true)) as Hmem.
    { intros x. apply (absent_after_contains h h1 _ _ x Habs Hlen1).
      - intros ? ->. unfold size in Hk. done.
      - intros ?. apply _.
      - intros ?. apply _. }
    destruct (IH h1 Hwf1 Ho1 Hnd) as (h' & Hrun' & Hwf' & Ho' & Hsz' & Hcap' & Hmem').
    { intros x Hx. destruct (Hl x) as [Hxr Hxc]; [by right|].
      rewrite Hcap. split; [done|].
      apply contains_in_range; [by rewrite Hcap|].
      intros [->|[_ Hold]]%Hmem; [done|]. by rewrite Hxc in Hold. }
    exists h'. split; [cbn [insert_all]; by rewrite (bind_run _ _ _ _ _ Hrun)|].
    split; [done|]. split; [done|].
    split; [rewrite Hsz', Hsz1; simpl length; lia|].
    split; [by rewrite Hcap'|].
    intros x. rewrite Hmem', Hmem, elem_of_cons. tauto.
Qed.

(** ** The range from [begin()] to [end()] *)

Lemma elements_drop h :
  1 ≤ Vec.size (m_keys h) → elements h = Some (drop 1 (m_keys h)).
Proof.
  intros Hsz. unfold elements, begin, end_. apply mapM_Some.
  apply Forall2_same_length_lookup_2.
  - rewrite length_seqZ, length_drop. unfold Vec.size in *. lia.
  - intros i x y [-> Hi]%lookup_seqZ Hy. rewrite lookup_drop in Hy.
    replace (1 + Z.of_nat i) with (Z.of_nat (1 + i)) by lia.
    by rewrite get_of_nat.
Qed.

(** ** What [check_invariant] checks *)

Lemma check_invariant_core_passes lt h fuel : ∀ idx,
  (∀ i k, 1 ≤ i → key_at h i = Some k → index_of h k = Some i) →
  ordered lt h → 1 ≤ idx →
  Vec.size (m_keys h) ≤ idx + Z.of_nat fuel →
  check_invariant_core lt fuel h idx = true.
Proof.
  induction fuel as [|f IH]; intros idx Hback Ho Hidx Hf.
  - simpl. by rewrite (proj2 (Z.ltb_ge _ _)) by lia.
  - cbn [check_invariant_core].
    destruct (idx <? Vec.size (m_keys h)) eqn:Hlt; [|done].
    apply Z.ltb_lt in Hlt.
    destruct (get_is_Some (m_keys h) idx) as [k Hk]; [lia|]. rewrite Hk.
    fold (key_at h idx) in Hk.
    pose proof (Hback idx k Hidx Hk) as Hi.
    unfold index_of in Hi. rewrite Hi, Z.eqb_refl. simpl.
    rewrite !IH by (done || slots). rewrite !andb_true_r.
    destruct (Z.eqb_spec (parent idx) 0) as [|Hp]; [done|]. simpl.
    destruct (get_is_Some (m_keys h) (parent idx)) as [pk Hpk]; [slots|].
    rewrite Hpk. unfold less_than. rewrite (Ho idx k pk); [done|slots|done|done].
Qed.

(** ** [erase_min] in terms of [erase] *)

Lemma erase_min_as_erase lt h :
  well_formed h →
  erase_min lt h = (m ← call min_value; erase lt m;; mret m) h.
Proof.
  intros Hwf. destruct (empty h) eqn:He'.
  { assert (min_value h = None) as Hmin
      by (unfold min_value; by rewrite He').
    transitivity (@None (Z * heap)).
    - unfold erase_min. run. by rewrite He'.
    - unfold mbind, M_bind, call. by rewrite Hmin. }
  pose proof He' as He. unfold empty in He. apply Z.eqb_neq in He.
  assert (2 ≤ Vec.size (m_keys h)) as Hn by (pose proof (proj1 Hwf); lia).
  destruct (get_is_Some (m_keys h) 1) as [r Hr]; [lia|].
  fold (key_at h 1) in Hr.
  assert (index_of h r = Some 1) as Hir
    by (apply (proj1 (proj2 Hwf)); [lia|done]).
  assert (contains h r = Some true) as Hc
    by (apply contains_true; exists 1; split; [lia|done]).
  assert (min_value h = Some r) as Hmin
    by (unfold min_value; rewrite He'; exact Hr).
  run_with (call_run min_value h r Hmin).
  assert (erase_min lt h
    = ((if Vec.size (m_keys h) =? 2 then
          indices_put r 0;; keys_pop_back;; e' ← read empty; sassert e'
        else
          last_key ← keys_back;
          keys_put 1 last_key;; indices_put last_key 1;;
          indices_put r 0;; keys_pop_back;; move_down lt 1);; mret r) h)
    as ->.
  { unfold erase_min. run. rewrite He'. simpl. run. run.
    rewrite (proj2 (Z.leb_le _ _) Hn). run.
    by run_with (keys_at_run _ _ _ Hr). }
  assert (∀ (m1 m2 : M unit), m1 h = m2 h →
            (m1;; mret r) h = (m2;; mret r) h) as Hcongr.
  { intros m1 m2 Heq. unfold mbind, M_bind. by rewrite Heq. }
  apply Hcongr. rewrite (erase_unfold lt h r 1 Hc Hir).
  replace (1 =? Vec.size (m_keys h) - 1) with (Vec.size (m_keys h) =? 2)
    by (destruct (Z.eqb_spec (Vec.size (m_keys h)) 2);
        destruct (Z.eqb_spec 1 (Vec.size (m_keys h) - 1)); (done || lia)).
  destruct (Vec.size (m_keys h) =? 2) eqn:Hn2.
  - apply Z.eqb_eq in Hn2.
    destruct (popped_wf h r Hwf) as (h1 & Hrun & _ & Hsz1 & _);
      [lia|by rewrite Hn2|].
    rewrite Hrun. rewrite (seq2_run _ _ _ _ _ _ Hrun).
    run. unfold empty. rewrite Hsz1, Hn2. reflexivity.
  - reflexivity.
Qed.

(** ** The sentinel slot *)

Lemma move_up_sentinel lt h idx h' :
  1 ≤ idx → move_up lt idx h = Some (tt, h') → key_at h' 0 = key_at h 0.
Proof.
  intros Hidx. unfold move_up.
  intros (key & h1 & [-> Hk]%keys_at_inv & Hrun)%bind_Some.
  apply bind_Some in Hrun as (j & h2 & Hloop & Hrun).
  apply bind_Some in Hrun as (u & h3 & Hp1 & Hp2).
  destruct (move_up_loop_path _ _ _ _ _ _ _ Hidx Hloop) as (Hj & Hsame & _).
  rewrite (indices_put_key_at _ _ _ _ _ 0 Hp2).
  rewrite (keys_put_key_at _ _ _ _ _ 0 Hp1).
  destruct (decide (0 = j)); [lia|]. apply Hsame. lia.
Qed.

Lemma move_down_sentinel lt h idx h' :
  1 ≤ idx → move_down lt idx h = Some (tt, h') → key_at h' 0 = key_at h 0.
Proof.
  intros Hidx Hrun. apply (move_down_above lt h idx h'); [lia|done|lia].
Qed.

Lemma insert_sentinel lt h k h' :
  well_formed h → index_of h k = Some 0 →
  insert lt k h = Some (tt, h') → key_at h' 0 = key_at h 0.
Proof.
  intros Hwf Hik Hrun. rewrite (insert_unfold lt h k Hik) in Hrun.
  destruct (pushed_wf h k Hwf Hik) as (_ & Hkeys & _). cbv zeta in Hkeys.
  pose proof (proj1 Hwf) as Hsz.
  rewrite (move_up_sentinel lt _ _ _ Hsz Hrun), Hkeys.
  destruct (decide (0 = Vec.size (m_keys h))); [lia|done].
Qed.

Lemma erase_sentinel lt h k h' :
  well_formed h → contains h k = Some true →
  erase lt k h = Some (tt, h') → key_at h' 0 = key_at h 0.
Proof.
  intros Hwf Hc Hrun.
  pose proof Hc as (idx & Hidx0 & Hidx)%contains_true.
  destruct (wf_slot h k idx Hwf Hidx Hidx0) as (Hrange & Hkidx).
  rewrite (erase_unfold lt h k idx Hc Hidx) in Hrun.
  destruct (Z.eqb_spec idx (Vec.size (m_keys h) - 1)) as [Hlast|Hnl].
  - destruct (popped_wf h k Hwf) as (h1 & Hrun1 & _ & _ & _ & Hk1 & _);
      [lia|by rewrite <- Hlast|].
    cbv zeta in Hk1. rewrite Hrun1 in Hrun. injection Hrun as <-.
    rewrite Hk1. destruct (decide (0 = Vec.size (m_keys h) - 1)); [lia|done].
  - destruct (key_at_back h) as (last & Hback & Hlast); [lia|].
    destruct (detached_wf h idx k last Hwf)
      as (h1 & Hrun1 & _ & _ & _ & Hk1 & _); [lia|done|done|].
    cbv zeta in Hk1.
    rewrite (bind_run _ _ _ _ _ Hback) in Hrun.
    rewrite (seq4_run _ _ _ _ _ _ _ _ Hrun1) in Hrun.
    assert (key_at h1 0 = key_at h 0) as H0.
    { rewrite Hk1. destruct (decide (0 = idx)); [lia|].
      destruct (decide (0 = Vec.size (m_keys h) - 1)); [lia|done]. }
    assert (1 ≤ idx) as Hidx1 by lia.
    rewrite <- H0.
    destruct (parent idx =? 0);
      [by apply (move_down_sentinel lt h1 idx h')|].
    apply bind_Some in Hrun as (pk & h2 & [-> Hpk]%keys_at_inv & Hrun).
    destruct (lt last pk).
    + by apply (move_up_sentinel lt h1 idx h').
    + by apply (move_down_sentinel lt h1 idx h').
Qed.

Lemma erase_min_sentinel lt h r h' :
  well_formed h → erase_min lt h = Some (r, h') → key_at h' 0 = key_at h 0.
Proof.
  intros Hwf Hrun. rewrite (erase_min_as_erase lt h Hwf) in Hrun.
  apply bind_Some in Hrun as (m & h1 & Hm & Hrun).
  unfold call, lift in Hm. destruct (min_value h) as [m'|] eqn:Hmin; [|done].
  injection Hm as <- <-.
  apply bind_Some in Hrun as (u & h1 & Herase & Hret).
  injection Hret as _ <-. destruct u.
  apply (erase_sentinel lt h m' h1); [done| |done].
  unfold min_value in Hmin. destruct (empty h); [done|].
  apply present_slot; [done|]. by exists 1.
Qed.

Lemma resift_sentinel (sift : Z → M unit) h k h' :
  (∀ idx h h', 1 ≤ idx → sift idx h = Some (tt, h') →
               key_at h' 0 = key_at h 0) →
  well_formed h →
  (c ← call (λ h, contains h k); sassert c;; idx ← indices_at k; sift idx) h
  = Some (tt, h') →
  key_at h' 0 = key_at h 0.
Proof.
  intros Hsift Hwf Hrun.
  apply bind_Some in Hrun as (c & h1 & Hc & Hrun).
  unfold call, lift in Hc. destruct (contains h k) as [c'|] eqn:Hck; [|done].
  injection Hc as <- <-.
  apply bind_Some in Hrun as (u & h1 & Ha & Hrun).
  destruct c'; [|done]. injection Ha as _ <-.
  apply bind_Some in Hrun as (idx & h1 & [-> Hidx]%indices_at_inv & Hrun).
  apply contains_true in Hck as (i & Hi & Hki).
  rewrite Hidx in Hki. injection Hki as ->.
  destruct (wf_slot h k i Hwf Hidx Hi) as (Hrange & _).
  apply (Hsift i); [lia|done].
Qed.

Lemma heapify_loop_sentinel lt (i : nat) : ∀ h h',
  heapify_loop lt i h = Some (tt, h') → key_at h' 0 = key_at h 0.
Proof.
  induction i as [|i IH]; intros h h'; cbn [heapify_loop].
  - by intros [= <-].
  - intros (u & h1 & Hdown & Hrun)%bind_Some. destruct u.
    rewrite (IH _ _ Hrun).
    apply (move_down_sentinel lt h (Z.of_nat (S i)) h1); [lia|done].
Qed.

Lemma kc_heapify_loop lt (i : nat) : keeps_capacity (heapify_loop lt i).
Proof.
  induction i as [|i IH]; cbn [heapify_loop];
    kc_with ltac:(first [apply IH | apply kc_move_down]).
Qed.

Lemma kc_heapify lt : keeps_capacity (heapify lt).
Proof. unfold heapify. kc_with ltac:(apply kc_heapify_loop). Qed.

(** In every reachable heap slot 0 still holds the sentinel that the
    constructor stored, and the capacity is that of an [int]. *)
Lemma reachable_sentinel lt log h :
  reachable lt log h → key_at h 0 = Some (-1) ∧ size h < 2 ^ 31.
Proof.
  assert (∀ {A} (m : M A) h x h',
            keeps_capacity m → m h = Some (x, h') → size h' = size h)
    as Hkc.
  { intros A m h0 x h' Hm Hrun. unfold size, Vec.size.
    by rewrite (Hm _ _ _ Hrun). }
  induction 1 as
    [lt s Hlt Hs
    |lt log h k h' Hr [IH0 IHs] Hk Hc Hrun
    |lt log h k h' Hr [IH0 IHs] He Hrun
    |lt log h k h' Hr [IH0 IHs] Hc Hrun
    |lt lt' log h k h' Hr [IH0 IHs] Hc Hlt' Hp Hrun
    |lt lt' log h k h' Hr [IH0 IHs] Hc Hlt' Hp Hrun
    |lt lt' log h h' Hr [IH0 IHs] Hlt' Hrun
    |lt log h s h' Hr [IH0 IHs] Hs Hrun
    |lt log h h' Hr [IH0 IHs] Hrun
    |lt log log' h other Hr [IH0 IHs] Hr' [IH0' IHs']].
  - split; [done|].
    rewrite (proj1 (proj2 (proj2 (mk_heap_spec lt s Hs)))). lia.
  - destruct (reachable_inv _ _ _ Hr) as (_ & Hwf & _).
    rewrite (Hkc _ _ _ _ _ (kc_insert lt k) Hrun). split; [|done].
    rewrite <- IH0. apply (insert_sentinel lt h k h'); [done| |done].
    apply contains_false in Hc as [?|?]; [|done|lia]. unfold size in Hk. lia.
  - destruct (reachable_inv _ _ _ Hr) as (_ & Hwf & _).
    rewrite (Hkc _ _ _ _ _ (kc_erase_min lt) Hrun). split; [|done].
    rewrite <- IH0. by apply (erase_min_sentinel lt h k h').
  - destruct (reachable_inv _ _ _ Hr) as (_ & Hwf & _).
    rewrite (Hkc _ _ _ _ _ (kc_erase lt k) Hrun). split; [|done].
    rewrite <- IH0. by apply (erase_sentinel lt h k h').
  - destruct (reachable_inv _ _ _ Hr) as (_ & Hwf & _).
    rewrite (Hkc _ _ _ _ _ (kc_decreased lt' k) Hrun). split; [|done].
    rewrite <- IH0.
    apply (resift_sentinel (move_up lt') h k h'); [|done|done].
    intros idx h1 h2. apply move_up_sentinel.
  - destruct (reachable_inv _ _ _ Hr) as (_ & Hwf & _).
    rewrite (Hkc _ _ _ _ _ (kc_increased lt' k) Hrun). split; [|done].
    rewrite <- IH0.
    apply (resift_sentinel (move_down lt') h k h'); [|done|done].
    intros idx h1 h2. apply move_down_sentinel.
  - rewrite (Hkc _ _ _ _ _ (kc_heapify lt') Hrun). split; [|done].
    rewrite <- IH0. unfold heapify in Hrun.
    apply bind_Some in Hrun as (sz & h1 & [= <- <-] & Hrun).
    by apply (heapify_loop_sentinel lt' _ _ _ Hrun).
  - destruct (reachable_inv _ _ _ Hr) as (_ & Hwf & _).
    rewrite (reserve_size h s h' Hs Hrun). split; [|lia].
    destruct (reserve_spec h s Hwf Hs) as (h'' & Hrun' & _ & Hkeys & _).
    rewrite Hrun in Hrun'. injection Hrun' as <-.
    unfold key_at. by rewrite Hkeys.
  - rewrite (Hkc _ _ _ _ _ kc_reset Hrun). split; [|done].
    unfold reset in Hrun. destruct (empty h).
    + by injection Hrun as <-.
    + by injection Hrun as <-.
  - done.
Qed.

(** A heap without keys whose sentinel is in place is in the state in which
    the constructor leaves it. *)
Lemma empty_fresh h :
  well_formed h → empty h = true → key_at h 0 = Some (-1) →
  size h < 2 ^ 31 →
  h = mk_heap (size h).
Proof.
  intros Hwf He H0 Hs. unfold empty in He. apply Z.eqb_eq in He.
  assert (∀ k i, index_of h k = Some i → i = 0) as Hzero.
  { intros k i Hk. destruct (decide (i = 0)) as [|Hi]; [done|].
    destruct (wf_slot _ _ _ Hwf Hk Hi) as [? _]. lia. }
  destruct h as [ks ixs]. unfold mk_heap, size, Vec.size, Vec.resize in *.
  simpl in *. f_equal.
  - destruct ks as [|x [|y ks]]; simpl in He; [lia| |lia].
    unfold key_at, Vec.get in H0. simpl in H0. by injection H0 as ->.
  - rewrite Z.mod_small by lia. rewrite Nat2Z.id, take_nil. simpl.
    rewrite Nat.sub_0_r. symmetry. apply replicate_as_Forall.
    split; [done|]. apply Forall_lookup. intros i x Hx.
    symmetry. apply (Hzero (Z.of_nat i)). unfold index_of. simpl.
    by rewrite get_of_nat.
Qed.

Lemma sunk_1_increased :
  priority_increased int_lt (by_priority sunk_1) 1.
Proof.
  unfold priority_increased, by_priority, sunk_1, int_lt.
  split; [|split].
  - intros x y Hx Hy. destruct (Z.eqb_spec x 1); [done|].
    by destruct (Z.eqb_spec y 1).
  - intros x Hx%Z.ltb_ge. simpl. apply Z.ltb_ge.
    destruct (Z.eqb_spec x 1); lia.
  - intros x Hx%Z.ltb_lt. simpl. apply Z.ltb_lt.
    destruct (Z.eqb_spec x 1); lia.
Qed.

(** * The properties of the specification *)

(** C1 (invariant preservation).  In every heap reachable by valid
    operations, every occupied slot [i] holds a key whose index entry is [i],
    every occupied slot [i > 1] holds a key that the comparator does not
    place before the key of the parent slot, and [check_invariant] passes. *)
Theorem invariant_preservation lt log h :
  reachable lt log h →
  (∀ i, 1 ≤ i < Vec.size (m_keys h) →
        ∃ k, key_at h i = Some k ∧ index_of h k = Some i)
  ∧ (∀ i, 1 < i < Vec.size (m_keys h) →
          ∃ a b, key_at h i = Some a ∧ key_at h (parent i) = Some b
                 ∧ lt a b = false)
  ∧ check_invariant lt h = true.
Proof.
  intros (Hlt & Hwf & Ho & _)%reachable_inv. split; [|split].
  - intros i Hi. destruct (get_is_Some (m_keys h) i) as [k Hk]; [lia|].
    exists k. split; [done|]. apply (proj1 (proj2 Hwf)); [lia|done].
  - intros i Hi. destruct (get_is_Some (m_keys h) i) as [a Ha]; [lia|].
    destruct (get_is_Some (m_keys h) (parent i)) as [b Hb]; [slots|].
    exists a, b. split; [done|]. split; [done|]. apply (Ho i); (done || lia).
  - by apply check_invariant_true.
Qed.

Lemma invariant_preservation_witness :
  reachable int_lt [EInsert 3; EInsert 1; EInsert 4] heap_413
  ∧ check_invariant int_lt heap_413 = true.
Proof.
  assert (reachable int_lt [EInsert 3; EInsert 1; EInsert 4] heap_413) as Hr.
  { apply (reach_insert _ _ (Heap [-1; 1; 4] [0; 1; 0; 0; 2]));
      [|unfold size, Vec.size; simpl; lia|reflexivity|reflexivity].
    apply (reach_insert _ _ (Heap [-1; 4] [0; 0; 0; 0; 1]));
      [|unfold size, Vec.size; simpl; lia|reflexivity|reflexivity].
    apply (reach_insert _ _ (mk_heap 5));
      [|unfold size, Vec.size; simpl; lia|reflexivity|reflexivity].
    apply reach_new; [apply int_lt_swo|lia]. }
  split; [exact Hr|].
  apply (invariant_preservation int_lt _ heap_413 Hr).
Defined.

(** C2 (extraction order).  Calling [erase_min] until the heap is empty
    returns the keys of the heap, each once, in a sequence in which no key
    sorts before an earlier one; two keys of distinct priority come out in
    comparator order. *)
Theorem extraction_order lt h :
  strict_weak_order lt → heap_inv lt h →
  ∃ out h',
    erase_all lt (length (m_keys h)) h = Some (out, h')
    ∧ empty h' = true
    ∧ out ≡ₚ drop 1 (m_keys h)
    ∧ (∀ k, k ∈ out ↔ contains h k = Some true)
    ∧ (∀ (i j : nat) a b, (i < j)%nat → out !! i = Some a → out !! j = Some b →
                          lt b a = false)
    ∧ (∀ (i j : nat) a b, out !! i = Some a → out !! j = Some b →
                          lt a b = true → (i < j)%nat).
Proof.
  intros Hlt [Hwf Ho]. pose proof (proj1 Hwf) as Hsz.
  destruct (erase_all_spec lt Hlt (length (m_keys h) - 1) h (length (m_keys h)))
    as (out & h' & Hrun & He & _ & Hnd & Hin & Hs);
    [done|done|unfold Vec.size in *; lia|lia|].
  exists out, h'. split; [done|]. split; [done|].
  assert (∀ (i j : nat) a b, (i < j)%nat → out !! i = Some a →
            out !! j = Some b → lt b a = false) as Hsorted.
  { intros i j a b. by apply (StronglySorted_lookup _ _ Hs). }
  split; [|split; [done|split; [done|]]].
  - apply NoDup_Permutation; [done|by apply keys_NoDup|].
    intros k. by rewrite Hin, keys_elem_of.
  - intros i j a b Hi Hj Hab.
    destruct (Nat.lt_trichotomy i j) as [Hij|[->|Hij]]; [done| |].
    + rewrite Hi in Hj. injection Hj as <-.
      rewrite (lt_irrefl lt Hlt) in Hab. done.
    + rewrite (Hsorted j i b a Hij Hj Hi) in Hab. done.
Qed.

Lemma extraction_order_witness :
  strict_weak_order int_lt ∧ heap_inv int_lt heap_413
  ∧ ∃ out h',
      erase_all int_lt (length (m_keys heap_413)) heap_413 = Some (out, h')
      ∧ empty h' = true
      ∧ out ≡ₚ drop 1 (m_keys heap_413)
      ∧ (∀ k, k ∈ out ↔ contains heap_413 k = Some true)
      ∧ (∀ (i j : nat) a b, (i < j)%nat → out !! i = Some a →
                            out !! j = Some b → int_lt b a = false)
      ∧ (∀ (i j : nat) a b, out !! i = Some a → out !! j = Some b →
                            int_lt a b = true → (i < j)%nat).
Proof.
  assert (heap_inv int_lt heap_413) as Hinv
    by (apply heap_inv_b_sound; vm_compute; reflexivity).
  split; [apply int_lt_swo|]. split; [exact Hinv|].
  apply (extraction_order int_lt heap_413 int_lt_swo Hinv).
Defined.

(** Tied keys come out in either order, depending on the history of the
    heap. *)
Example extraction_order_ties :
  erase_all half_lt 3 heap_tie = Some ([2; 3], Heap [-1] [0; 0; 0; 0])
  ∧ erase_all half_lt 3 (Heap [-1; 3; 2] [0; 0; 2; 1])
    = Some ([3; 2], Heap [-1] [0; 0; 0; 0]).
Proof. split; vm_compute; reflexivity. Qed.

(** C3, as the specification states it, fails: after [erase(3)] the heap
    holds 0 and 4, and [erase_min] returns 0 and leaves 4 behind. *)
Lemma scenario_counterexample :
  ¬ ∃ obs h h',
      scenario (mk_heap 5) = Some (obs, h)
      ∧ erase_min int_lt h = Some (4, h')
      ∧ empty h' = true.
Proof.
  intros (obs & h & h' & Hs & He & _).
  vm_compute in Hs. injection Hs as _ <-. vm_compute in He. discriminate.
Qed.

(** C3 (amended scenario).  Capacity 5, ascending integer order: after
    [insert(4)], [insert(1)], [insert(3)], [min_value()] is 1; [erase_min()]
    returns 1 and [min_value()] is 3; after [insert(0)], [min_value()] is 0;
    after [erase(3)], [erase_min()] returns 0 and leaves 4 as the minimum of a
    non-empty heap; one more [erase_min()] returns 4 and the heap is empty. *)
Theorem scenario_amended :
  scenario (mk_heap 5)
  = Some ((1, 1, 3, 0), Heap [-1; 0; 4] [1; 0; 0; 0; 2])
  ∧ erase_min int_lt (Heap [-1; 0; 4] [1; 0; 0; 0; 2])
    = Some (0, Heap [-1; 4] [0; 0; 0; 0; 1])
  ∧ min_value (Heap [-1; 4] [0; 0; 0; 0; 1]) = Some 4
  ∧ empty (Heap [-1; 4] [0; 0; 0; 0; 1]) = false
  ∧ erase_min int_lt (Heap [-1; 4] [0; 0; 0; 0; 1])
    = Some (4, Heap [-1] [0; 0; 0; 0; 0])
  ∧ empty (Heap [-1] [0; 0; 0; 0; 0]) = true.
Proof. repeat split; vm_compute; reflexivity. Qed.

(** C4, as the specification states it, fails for sift-down: the root of
    [heap_tie] is tied with its only child, and [move_down] exchanges them. *)
Lemma sift_down_tie_counterexample :
  reachable half_lt [EInsert 3; EInsert 2] heap_tie
  ∧ key_at heap_tie 1 = Some 2
  ∧ min_child half_lt heap_tie (Vec.size (m_keys heap_tie)) 1 = Some (2, 3)
  ∧ tied half_lt 2 3
  ∧ move_down half_lt 1 heap_tie = Some (tt, Heap [-1; 3; 2] [0; 0; 2; 1])
  ∧ Heap [-1; 3; 2] [0; 0; 2; 1] ≠ heap_tie.
Proof.
  split; [apply heap_tie_reachable|].
  repeat split; try (vm_compute; reflexivity). discriminate.
Qed.

(** C4 (amended tie policy).  Sift-up stops, without any exchange, at a
    parent that the moving key does not sort strictly before, so in
    particular at a tie.  Sift-down selects the left child when the two
    children are tied, and stops without any exchange only when the moving
    key sorts strictly before the selected child; when the moving key is tied
    with that child (or sorts after it), the child's key moves up into the
    slot and the moving key goes down. *)
Theorem sift_tie_policy lt h idx key :
  well_formed h → 1 ≤ idx → key_at h idx = Some key →
  (∀ pk, key_at h (parent idx) = Some pk → lt key pk = false →
         move_up lt idx h = Some (tt, h))
  ∧ (∀ lk rk, key_at h (left idx) = Some lk → key_at h (right idx) = Some rk →
              lt rk lk = false →
              min_child lt h (Vec.size (m_keys h)) idx = Some (left idx, lk))
  ∧ (∀ m mk, min_child lt h (Vec.size (m_keys h)) idx = Some (m, mk) →
             lt key mk = true →
             move_down lt idx h = Some (tt, h))
  ∧ (∀ m mk, min_child lt h (Vec.size (m_keys h)) idx = Some (m, mk) →
             lt key mk = false →
             ∃ h', move_down lt idx h = Some (tt, h')
                   ∧ key_at h' idx = Some mk
                   ∧ ∃ j, idx < j ∧ key_at h' j = Some key).
Proof.
  intros Hwf Hidx Hk. split; [|split; [|split]].
  - intros pk Hpk Hc. apply (move_up_in_place lt h idx key); try done.
    intros pk' _ Hpk'. congruence.
  - intros lk rk Hl Hr Hc. unfold min_child. rewrite Hl, Hr. simpl.
    rewrite Hc. by destruct (right idx <? Vec.size (m_keys h)).
  - intros m mk Hmc Hc. apply (move_down_in_place lt h idx key); try done.
    intros m' mk' Hmc'. congruence.
  - intros m mk Hmc Hc. by apply (move_down_exchanges lt h idx key m mk).
Qed.

Lemma sift_tie_policy_witness :
  well_formed heap_tie ∧ 1 ≤ 1 ∧ key_at heap_tie 1 = Some 2
  ∧ ∃ h', move_down half_lt 1 heap_tie = Some (tt, h')
          ∧ key_at h' 1 = Some 3
          ∧ ∃ j, 1 < j ∧ key_at h' j = Some 2.
Proof.
  assert (well_formed heap_tie) as Hwf
    by (apply (heap_inv_b_sound half_lt); vm_compute; reflexivity).
  split; [exact Hwf|]. split; [lia|]. split; [reflexivity|].
  apply (sift_tie_policy half_lt heap_tie 1 2 Hwf ltac:(lia) eq_refl) with 2;
    reflexivity.
Defined.

(** C5 (range query).  On a heap that satisfies the invariant, [find_le]
    appends to [result] the present keys [k] with [not (lt t k)], each once
    and nothing else; on a heap that holds 0, 1, 2, 3, 4 under ascending
    integer order, [find_le(2, result)] appends 0, 1, 2 in some order. *)
Theorem find_le_exact :
  (∀ lt h t result,
     strict_weak_order lt → heap_inv lt h →
     ∃ out,
       find_le lt t result h = Some (result ++ out, h)
       ∧ NoDup out
       ∧ ∀ k, k ∈ out ↔ contains h k = Some true ∧ lt t k = false)
  ∧ (∀ h result,
       heap_inv int_lt h →
       (∀ k, contains h k = Some true ↔ k ∈ [0; 1; 2; 3; 4]) →
       ∃ out,
         find_le int_lt 2 result h = Some (result ++ out, h)
         ∧ out ≡ₚ [0; 1; 2]).
Proof.
  assert (∀ lt h t result,
     strict_weak_order lt → heap_inv lt h →
     ∃ out,
       find_le lt t result h = Some (result ++ out, h)
       ∧ NoDup out
       ∧ ∀ k, k ∈ out ↔ contains h k = Some true ∧ lt t k = false) as Hgen.
  { intros lt h t result Hlt [Hwf Ho].
    destruct (find_le_spec lt t h result) as (out & Hrun & Hout).
    destruct (Hout Hwf Ho Hlt) as [Hnd Hin]. by exists out. }
  split; [exact Hgen|].
  intros h result Hinv Hkeys.
  destruct (Hgen int_lt h 2 result int_lt_swo Hinv) as (out & Hrun & Hnd & Hin).
  exists out. split; [done|].
  apply NoDup_Permutation; [done|by compute_done|].
  intros k. rewrite Hin, Hkeys. unfold int_lt. rewrite Z.ltb_ge.
  rewrite !elem_of_cons, !elem_of_nil. lia.
Qed.

Lemma find_le_exact_witness :
  heap_inv int_lt heap_01234
  ∧ (∀ k, contains heap_01234 k = Some true ↔ k ∈ [0; 1; 2; 3; 4])
  ∧ find_le int_lt 2 [] heap_01234 = Some ([0; 2; 1], heap_01234)
  ∧ ∃ out,
      find_le int_lt 2 [] heap_01234 = Some ([] ++ out, heap_01234)
      ∧ out ≡ₚ [0; 1; 2].
Proof.
  assert (heap_inv int_lt heap_01234) as Hinv
    by (apply heap_inv_b_sound; vm_compute; reflexivity).
  assert (∀ k, contains heap_01234 k = Some true ↔ k ∈ [0; 1; 2; 3; 4])
    as Hkeys.
  { intros k. rewrite <- (keys_elem_of heap_01234 k (proj1 Hinv)). done. }
  split; [exact Hinv|]. split; [exact Hkeys|]. split; [reflexivity|].
  apply (proj2 find_le_exact heap_01234 [] Hinv Hkeys).
Defined.

(** C6, as the specification states it, fails when keys are tied: inserting
    0 into [heap_tie] and erasing it again exchanges the tied keys 2 and 3. *)
Lemma insert_erase_counterexample :
  reachable half_lt [EInsert 3; EInsert 2] heap_tie
  ∧ 0 ≤ 0 < size heap_tie
  ∧ contains heap_tie 0 = Some false
  ∧ insert half_lt 0 heap_tie = Some (tt, Heap [-1; 0; 3; 2] [1; 0; 3; 2])
  ∧ erase half_lt 0 (Heap [-1; 0; 3; 2] [1; 0; 3; 2])
    = Some (tt, Heap [-1; 3; 2] [0; 0; 2; 1])
  ∧ Heap [-1; 3; 2] [0; 0; 2; 1] ≠ heap_tie.
Proof.
  split; [apply heap_tie_reachable|].
  split; [unfold size, Vec.size; simpl; lia|].
  repeat split; try (vm_compute; reflexivity). discriminate.
Qed.

(** C6 (amended round trip).  Under a comparator without ties between
    distinct keys, on a heap that satisfies the invariant, [insert(k)] of an
    absent key in range followed by [erase(k)] yields the position array and
    the index array of the heap before the insertion. *)
Theorem insert_erase_round_trip lt h k :
  strict_weak_order lt → no_ties lt → heap_inv lt h →
  0 ≤ k < size h → contains h k = Some false →
  ∃ h1, insert lt k h = Some (tt, h1) ∧ erase lt k h1 = Some (tt, h).
Proof.
  intros Hlt Hnt [Hwf Ho] Hk Hc. apply contains_false in Hc; [|lia].
  unfold size in Hk. destruct Hc as [?|Hc]; [lia|].
  by apply insert_erase.
Qed.

Lemma insert_erase_round_trip_witness :
  strict_weak_order int_lt ∧ no_ties int_lt ∧ heap_inv int_lt heap_413
  ∧ 0 ≤ 0 < size heap_413 ∧ contains heap_413 0 = Some false
  ∧ ∃ h1, insert int_lt 0 heap_413 = Some (tt, h1)
          ∧ erase int_lt 0 h1 = Some (tt, heap_413).
Proof.
  assert (heap_inv int_lt heap_413) as Hinv
    by (apply heap_inv_b_sound; vm_compute; reflexivity).
  split; [apply int_lt_swo|]. split; [apply int_lt_no_ties|].
  split; [exact Hinv|]. split; [unfold size, Vec.size; simpl; lia|].
  split; [reflexivity|].
  apply (insert_erase_round_trip int_lt heap_413 0 int_lt_swo int_lt_no_ties
           Hinv); [unfold size, Vec.size; simpl; lia|reflexivity].
Defined.

(** C7, as the specification states it, fails for [increased] when keys are
    tied: the priority of 2 is unchanged, and [increased(2)] exchanges it
    with its tied child 3. *)
Lemma increased_tie_counterexample :
  reachable half_lt [EInsert 3; EInsert 2] heap_tie
  ∧ contains heap_tie 2 = Some true
  ∧ increased half_lt 2 heap_tie = Some (tt, Heap [-1; 3; 2] [0; 0; 2; 1])
  ∧ Heap [-1; 3; 2] [0; 0; 2; 1] ≠ heap_tie.
Proof.
  split; [apply heap_tie_reachable|].
  repeat split; try (vm_compute; reflexivity). discriminate.
Qed.

(** C7 (amended idempotent re-priority).  On a heap that satisfies the
    invariant, for a present key whose priority has not changed,
    [decreased(k)] leaves both arrays unchanged, and so does [increased(k)]
    when the comparator has no ties between distinct keys. *)
Theorem reprioritize_in_place lt h k :
  heap_inv lt h → contains h k = Some true →
  decreased lt k h = Some (tt, h)
  ∧ (no_ties lt → increased lt k h = Some (tt, h)).
Proof.
  intros [Hwf Ho] Hc. split.
  - by apply decreased_in_place.
  - intros Hnt. by apply increased_in_place.
Qed.

Lemma reprioritize_in_place_witness :
  heap_inv int_lt heap_413 ∧ contains heap_413 1 = Some true
  ∧ decreased int_lt 1 heap_413 = Some (tt, heap_413)
  ∧ (no_ties int_lt → increased int_lt 1 heap_413 = Some (tt, heap_413)).
Proof.
  assert (heap_inv int_lt heap_413) as Hinv
    by (apply heap_inv_b_sound; vm_compute; reflexivity).
  split; [exact Hinv|]. split; [reflexivity|].
  apply (reprioritize_in_place int_lt heap_413 1 Hinv eq_refl).
Defined.

(** C8 (membership consistency).  After any sequence of valid operations,
    [contains(k)] is true exactly when [k] is within capacity, was inserted
    and has not been removed by [erase(k)] or returned by [erase_min] since,
    all after the last [reset]; and exactly when the index entry of [k] exists
    and is not the sentinel 0. *)
Theorem membership_consistency lt log h k :
  reachable lt log h →
  (contains h k = Some true ↔ 0 ≤ k < size h ∧ live log k = true)
  ∧ (contains h k = Some true ↔ ∃ i, index_of h k = Some i ∧ i ≠ 0).
Proof.
  intros (_ & _ & _ & Hc)%reachable_inv. split.
  - rewrite <- Hc. split; [|tauto]. intros Hk. split; [|done].
    by apply present_iff in Hk as [? _].
  - rewrite contains_true. split; intros (i & ? & ?); exists i; tauto.
Qed.

Lemma membership_consistency_witness :
  reachable int_lt [ERemove 1; EInsert 3; EInsert 1; EInsert 4]
    (Heap [-1; 3; 4] [0; 0; 0; 1; 2])
  ∧ (contains (Heap [-1; 3; 4] [0; 0; 0; 1; 2]) 1 = Some true
     ↔ 0 ≤ 1 < size (Heap [-1; 3; 4] [0; 0; 0; 1; 2])
       ∧ live [ERemove 1; EInsert 3; EInsert 1; EInsert 4] 1 = true)
  ∧ (contains (Heap [-1; 3; 4] [0; 0; 0; 1; 2]) 1 = Some true
     ↔ ∃ i, index_of (Heap [-1; 3; 4] [0; 0; 0; 1; 2]) 1 = Some i ∧ i ≠ 0).
Proof.
  assert (reachable int_lt [ERemove 1; EInsert 3; EInsert 1; EInsert 4]
            (Heap [-1; 3; 4] [0; 0; 0; 1; 2])) as Hr.
  { apply (reach_erase_min _ _ heap_413); [|reflexivity|reflexivity].
    apply (reach_insert _ _ (Heap [-1; 1; 4] [0; 1; 0; 0; 2]));
      [|unfold size, Vec.size; simpl; lia|reflexivity|reflexivity].
    apply (reach_insert _ _ (Heap [-1; 4] [0; 0; 0; 0; 1]));
      [|unfold size, Vec.size; simpl; lia|reflexivity|reflexivity].
    apply (reach_insert _ _ (mk_heap 5));
      [|unfold size, Vec.size; simpl; lia|reflexivity|reflexivity].
    apply reach_new; [apply int_lt_swo|lia]. }
  split; [exact Hr|].
  apply (membership_consistency int_lt _ _ 1 Hr).
Defined.

(** C9 ([size] is the capacity).  [size()] is the length of the index array,
    which is the capacity the heap was constructed with or that [reserve]
    raised it to; [insert], [erase], [erase_min] and [reset] do not change
    it; the number of keys present is the length of the position array minus
    one. *)
Theorem size_is_capacity lt h :
  well_formed h →
  size h = Z.of_nat (length (m_indices h))
  ∧ (∀ s, 0 ≤ s < 2 ^ 31 → size (mk_heap s) = s)
  ∧ (∀ s h', s < 2 ^ 31 → reserve s h = Some (tt, h') →
             size h' = Z.max (size h) s)
  ∧ (∀ k h', insert lt k h = Some (tt, h') → size h' = size h)
  ∧ (∀ k h', erase lt k h = Some (tt, h') → size h' = size h)
  ∧ (∀ r h', erase_min lt h = Some (r, h') → size h' = size h)
  ∧ (∀ h', reset h = Some (tt, h') → size h' = size h)
  ∧ element_count h = Vec.size (m_keys h) - 1.
Proof.
  intros Hwf.
  split; [done|]. split; [intros s Hs; by apply (mk_heap_spec lt s)|].
  split; [intros s h' Hs Hr; by apply reserve_size|].
  unfold size, Vec.size.
  split; [intros k h' Hr; by rewrite (kc_insert lt k _ _ _ Hr)|].
  split; [intros k h' Hr; by rewrite (kc_erase lt k _ _ _ Hr)|].
  split; [intros r h' Hr; by rewrite (kc_erase_min lt _ _ _ Hr)|].
  split; [intros h' Hr; by rewrite (kc_reset _ _ _ Hr)|].
  by apply element_count_spec.
Qed.

Lemma size_is_capacity_witness :
  well_formed heap_413
  ∧ size heap_413 = 5
  ∧ element_count heap_413 = 3
  ∧ ∀ k h', insert int_lt k heap_413 = Some (tt, h') → size h' = size heap_413.
Proof.
  assert (well_formed heap_413) as Hwf
    by (apply (heap_inv_b_sound int_lt); vm_compute; reflexivity).
  split; [exact Hwf|].
  destruct (size_is_capacity int_lt heap_413 Hwf)
    as (Hsz & _ & _ & Hins & _ & _ & _ & Hcnt).
  split; [exact Hsz|]. split; [exact Hcnt|]. exact Hins.
Defined.

(** C10 ([find_le] only appends).  On every heap [find_le] returns, leaves
    the position array and the index array as they were, and returns the
    result vector it was given with the collected keys appended. *)
Theorem find_le_frame lt t result h :
  ∃ out, find_le lt t result h = Some (result ++ out, h).
Proof.
  destruct (find_le_spec lt t h result) as (out & Hrun & _). by exists out.
Qed.

(** * Further properties of the operations *)

(** X1.  On a non-empty heap that satisfies the invariant, [min_value]
    returns a key that is present and that no present key sorts before. *)
Theorem min_value_least lt h :
  strict_weak_order lt → heap_inv lt h → empty h = false →
  ∃ m, min_value h = Some m
       ∧ contains h m = Some true
       ∧ ∀ k, contains h k = Some true → lt k m = false.
Proof.
  intros Hlt [Hwf Ho] He. unfold min_value. rewrite He.
  unfold empty in He. apply Z.eqb_neq in He. pose proof (proj1 Hwf).
  destruct (get_is_Some (m_keys h) 1) as [m Hm]; [lia|].
  exists m. split; [done|]. split.
  - apply present_slot; [done|]. by exists 1.
  - intros k (i & Hi & Hk)%present_slot; [|done].
    by apply (root_minimal lt Hlt h m Ho Hm i k).
Qed.

Lemma min_value_least_witness :
  strict_weak_order int_lt ∧ heap_inv int_lt heap_413
  ∧ empty heap_413 = false
  ∧ ∃ m, min_value heap_413 = Some m
         ∧ contains heap_413 m = Some true
         ∧ ∀ k, contains heap_413 k = Some true → int_lt k m = false.
Proof.
  assert (heap_inv int_lt heap_413) as Hinv
    by (apply heap_inv_b_sound; vm_compute; reflexivity).
  split; [apply int_lt_swo|]. split; [exact Hinv|]. split; [reflexivity|].
  apply (min_value_least int_lt heap_413 int_lt_swo Hinv). reflexivity.
Defined.

(** X2.  [erase_min] is [erase] applied to the key that [min_value] returns:
    on every heap whose two vectors are consistent, both fail on the empty
    heap and both leave the same heap behind otherwise. *)
Theorem erase_min_is_erase_of_min_value lt h :
  well_formed h →
  erase_min lt h = (m ← call min_value; erase lt m;; mret m) h.
Proof. apply erase_min_as_erase. Qed.

Lemma erase_min_is_erase_of_min_value_witness :
  well_formed heap_413
  ∧ erase_min int_lt heap_413
    = (m ← call min_value; erase int_lt m;; mret m) heap_413.
Proof.
  assert (heap_inv int_lt heap_413) as [Hwf _]
    by (apply heap_inv_b_sound; vm_compute; reflexivity).
  split; [exact Hwf|].
  apply (erase_min_is_erase_of_min_value int_lt heap_413 Hwf).
Defined.

(** X3.  After [insert(k)] of an absent key of the range, [min_value] is [k]
    if the heap was empty or [k] sorts before the old minimum, and the old
    minimum otherwise; a key tied with the minimum does not displace it. *)
Theorem insert_min_value lt h k :
  strict_weak_order lt → heap_inv lt h →
  0 ≤ k < size h → contains h k = Some false →
  ∃ h',
    insert lt k h = Some (tt, h')
    ∧ min_value h' = Some (match min_value h with
                           | Some m => if lt k m then k else m
                           | None => k
                           end).
Proof.
  intros Hlt [Hwf Ho] Hk Hc.
  assert (index_of h k = Some 0) as Hik.
  { apply contains_false in Hc as [?|?]; [|done|lia]. unfold size in Hk. lia. }
  destruct (insert_spec lt h k Hwf Hik)
    as (h' & Hrun & Hwf' & Hsz' & Hlen' & Habs & Ho').
  specialize (Ho' Hlt Ho).
  exists h'. split; [done|].
  pose proof (proj1 Hwf) as Hn.
  assert (empty h' = false) as He'
    by (unfold empty; apply Z.eqb_neq; lia).
  destruct (get_is_Some (m_keys h') 1) as [r' Hr']; [lia|].
  fold (key_at h' 1) in Hr'.
  assert (min_value h' = Some r') as -> by (unfold min_value; by rewrite He').
  f_equal.
  assert (contains h' r' = Some true) as Hcr'
    by (apply present_slot; [done|]; by exists 1).
  assert (∀ x, contains h' x = Some true
               ↔ x = k ∨ (¬ False ∧ contains h x = Some true)) as Hmem.
  { intros x. apply (absent_after_contains h h' _ _ x Habs Hlen').
    - intros ? ->. unfold size in Hk. done.
    - intros ?. apply _.
    - intros ?. apply _. }
  destruct (empty h) eqn:He.
  - unfold min_value. rewrite He.
    apply Hmem in Hcr' as [->|[_ Hold]]; [done|].
    apply present_slot in Hold as (i & Hi & Hx); [|done].
    apply key_at_Some in Hx. unfold empty in He. apply Z.eqb_eq in He. lia.
  - unfold empty in He. apply Z.eqb_neq in He.
    destruct (get_is_Some (m_keys h) 1) as [m Hm]; [lia|].
    fold (key_at h 1) in Hm.
    assert (min_value h = Some m) as ->.
    { unfold min_value, empty.
      by rewrite (proj2 (Z.eqb_neq _ _) He). }
    destruct (lt k m) eqn:Hkm.
    + apply Hmem in Hcr' as [->|[_ Hold]]; [done|].
      apply present_slot in Hold as (i & Hi & Hx); [|done].
      assert (contains h' k = Some true) as Hck by (apply Hmem; by left).
      apply present_slot in Hck as (j & Hj & Hkj); [|done].
      pose proof (root_minimal lt Hlt h' r' Ho' Hr' j k Hj Hkj) as H1.
      pose proof (root_minimal lt Hlt h m Ho Hm i r' Hi Hx) as H2.
      rewrite (lt_negtrans lt Hlt _ _ _ H1 H2) in Hkm. done.
    + rewrite (insert_unfold lt h k Hik) in Hrun.
      destruct (pushed_wf h k Hwf Hik) as (_ & Hkeys & _).
      cbv zeta in Hkeys.
      assert (Some r' = Some m) as [= ->]; [|done].
      rewrite <- Hr'.
      refine (move_up_root lt _ (Vec.size (m_keys h)) m h' _ _ _ Hrun);
        [lia| |].
      * rewrite Hkeys. destruct (decide (1 = Vec.size (m_keys h))); [lia|done].
      * intros key. rewrite Hkeys.
        destruct (decide (Vec.size (m_keys h) = Vec.size (m_keys h)));
          [|done].
        by intros [= <-].
Qed.

Lemma insert_min_value_witness :
  strict_weak_order int_lt ∧ heap_inv int_lt heap_413
  ∧ 0 ≤ 0 < size heap_413 ∧ contains heap_413 0 = Some false
  ∧ ∃ h',
      insert int_lt 0 heap_413 = Some (tt, h')
      ∧ min_value h' = Some (match min_value heap_413 with
                             | Some m => if int_lt 0 m then 0 else m
                             | None => 0
                             end).
Proof.
  assert (heap_inv int_lt heap_413) as Hinv
    by (apply heap_inv_b_sound; vm_compute; reflexivity).
  assert (0 ≤ 0 < size heap_413) as Hk
    by (unfold size, Vec.size; simpl; lia).
  split; [apply int_lt_swo|]. split; [exact Hinv|]. split; [exact Hk|].
  split; [reflexivity|].
  apply (insert_min_value int_lt heap_413 0 int_lt_swo Hinv Hk). reflexivity.
Defined.

(** X4.  [erase(k)] of a present key other than the one [min_value] returns
    leaves the value of [min_value] as it is, also when other keys are tied
    with the minimum. *)
Theorem erase_keeps_min_value lt h k m :
  strict_weak_order lt → heap_inv lt h →
  contains h k = Some true → min_value h = Some m → k ≠ m →
  ∃ h', erase lt k h = Some (tt, h') ∧ min_value h' = Some m.
Proof.
  intros Hlt [Hwf Ho] Hc Hmin Hne.
  destruct (erase_spec lt h k Hwf Hc) as (h' & Hrun & Hwf' & Hsz' & _).
  exists h'. split; [done|].
  unfold min_value in Hmin. destruct (empty h) eqn:He; [done|].
  fold (key_at h 1) in Hmin.
  pose proof Hc as (idx & Hidx0 & Hidx)%contains_true.
  destruct (wf_slot h k idx Hwf Hidx Hidx0) as (Hrange & Hkidx).
  assert (idx ≠ 1) as Hidx1.
  { intros ->. rewrite Hmin in Hkidx. by injection Hkidx as ->. }
  assert (key_at h' 1 = Some m) as Hroot.
  { rewrite (erase_unfold lt h k idx Hc Hidx) in Hrun.
    destruct (Z.eqb_spec idx (Vec.size (m_keys h) - 1)) as [Hlast|Hnl].
    - destruct (popped_wf h k Hwf) as (h1 & Hrun1 & _ & _ & _ & Hk1 & _);
        [lia|by rewrite <- Hlast|].
      cbv zeta in Hk1. rewrite Hrun1 in Hrun. injection Hrun as <-.
      rewrite Hk1. destruct (decide (1 = Vec.size (m_keys h) - 1)); [lia|done].
    - destruct (key_at_back h) as (last & Hback & Hlast); [lia|].
      destruct (detached_wf h idx k last Hwf)
        as (h1 & Hrun1 & _ & _ & _ & Hk1 & _); [lia|done|done|].
      cbv zeta in Hk1.
      rewrite (bind_run _ _ _ _ _ Hback) in Hrun.
      rewrite (seq4_run _ _ _ _ _ _ _ _ Hrun1) in Hrun.
      assert (key_at h1 1 = Some m) as Hm1.
      { rewrite Hk1. destruct (decide (1 = idx)); [lia|].
        destruct (decide (1 = Vec.size (m_keys h) - 1)); [lia|done]. }
      assert (2 ≤ idx) as Hidx2 by lia.
      destruct (Z.eqb_spec (parent idx) 0) as [Hp0|Hp0]; [slots|].
      apply bind_Some in Hrun as (pk & h2 & [-> Hpk]%keys_at_inv & Hrun).
      destruct (lt last pk).
      + apply (move_up_root lt h1 idx m h'); [done|done| |done].
        intros key. rewrite Hk1. destruct (decide (idx = idx)); [|done].
        intros [= <-].
        apply (root_minimal lt Hlt h m Ho Hmin (Vec.size (m_keys h) - 1));
          [lia|done].
      + rewrite (move_down_above lt h1 idx h' ltac:(lia) Hrun 1) by lia.
        done. }
  unfold min_value, empty.
  rewrite (proj2 (Z.eqb_neq (Vec.size (m_keys h')) 1)) by lia. exact Hroot.
Qed.

Lemma erase_keeps_min_value_witness :
  strict_weak_order int_lt ∧ heap_inv int_lt heap_413
  ∧ contains heap_413 4 = Some true ∧ min_value heap_413 = Some 1 ∧ 4 ≠ 1
  ∧ ∃ h', erase int_lt 4 heap_413 = Some (tt, h') ∧ min_value h' = Some 1.
Proof.
  assert (heap_inv int_lt heap_413) as Hinv
    by (apply heap_inv_b_sound; vm_compute; reflexivity).
  split; [apply int_lt_swo|]. split; [exact Hinv|]. split; [reflexivity|].
  split; [reflexivity|]. split; [lia|].
  apply (erase_keeps_min_value int_lt heap_413 4 1 int_lt_swo Hinv);
    [reflexivity|reflexivity|lia].
Defined.

(** X5.  When the priority of a present key [k] has been decreased so that
    [k] now sorts before every other present key, [decreased(k)] restores
    the invariant under the new order and makes [k] the value of
    [min_value]. *)
Theorem decreased_to_front lt lt' h k :
  strict_weak_order lt → strict_weak_order lt' → heap_inv lt h →
  contains h k = Some true → priority_decreased lt lt' k →
  (∀ x, contains h x = Some true → x ≠ k → lt' k x = true) →
  ∃ h',
    decreased lt' k h = Some (tt, h')
    ∧ heap_inv lt' h'
    ∧ (∀ x, contains h' x = contains h x)
    ∧ min_value h' = Some k.
Proof.
  intros Hlt Hlt' [Hwf Ho] Hc Hdec Hfront.
  destruct (decreased_spec lt' lt h k Hwf Hc) as (h' & Hrun & Hwf' & Hfr & Ho').
  specialize (Ho' Hlt Hlt' Hdec Ho).
  exists h'. split; [done|]. split; [done|]. split.
  { intros x. by apply same_frame_contains. }
  pose proof Hc as (i & Hi & Hki)%present_slot; [|done].
  pose proof (key_at_Some _ _ _ Hki) as Hirange.
  pose proof (same_frame_keys_size _ _ Hfr) as Hsz.
  assert (empty h' = false) as He' by (unfold empty; apply Z.eqb_neq; lia).
  destruct (get_is_Some (m_keys h') 1) as [r' Hr']; [lia|].
  fold (key_at h' 1) in Hr'.
  unfold min_value. rewrite He'. fold (key_at h' 1). rewrite Hr'. f_equal.
  destruct (decide (r' = k)) as [->|Hne]; [done|].
  assert (contains h r' = Some true) as Hcr.
  { rewrite <- (same_frame_contains h h' r' Hfr).
    apply present_slot; [done|]. by exists 1. }
  assert (contains h' k = Some true) as Hck
    by (by rewrite (same_frame_contains h h' k Hfr)).
  apply present_slot in Hck as (j & Hj & Hkj); [|done].
  pose proof (root_minimal lt' Hlt' h' r' Ho' Hr' j k Hj Hkj) as H1.
  rewrite (Hfront r' Hcr Hne) in H1. done.
Qed.

Lemma decreased_to_front_witness :
  strict_weak_order int_lt ∧ strict_weak_order (by_priority bumped_4)
  ∧ heap_inv int_lt heap_413 ∧ contains heap_413 4 = Some true
  ∧ priority_decreased int_lt (by_priority bumped_4) 4
  ∧ ∃ h',
      decreased (by_priority bumped_4) 4 heap_413 = Some (tt, h')
      ∧ heap_inv (by_priority bumped_4) h'
      ∧ (∀ x, contains h' x = contains heap_413 x)
      ∧ min_value h' = Some 4.
Proof.
  assert (heap_inv int_lt heap_413) as Hinv
    by (apply heap_inv_b_sound; vm_compute; reflexivity).
  split; [apply int_lt_swo|]. split; [apply by_priority_swo|].
  split; [exact Hinv|]. split; [reflexivity|].
  split; [apply bumped_4_decreased|].
  apply (decreased_to_front int_lt (by_priority bumped_4) heap_413 4
           int_lt_swo (by_priority_swo bumped_4) Hinv);
    [reflexivity|apply bumped_4_decreased|].
  intros x Hx%contains_range Hne. unfold size, Vec.size in Hx. simpl in Hx.
  unfold by_priority, bumped_4. simpl.
  destruct (Z.eqb_spec x 4); [done|]. apply Z.ltb_lt. lia.
Defined.

(** X6.  When the priority of a present key [k] has been increased so
    that another present key now sorts before it, [increased(k)] restores
    the invariant under the new order, keeps the keys present, and [k] is
    not the value of [min_value] afterwards. *)
Theorem increased_from_front lt lt' h k x :
  strict_weak_order lt → strict_weak_order lt' → heap_inv lt h →
  contains h k = Some true → priority_increased lt lt' k →
  contains h x = Some true → lt' x k = true →
  ∃ h',
    increased lt' k h = Some (tt, h')
    ∧ heap_inv lt' h'
    ∧ (∀ y, contains h' y = contains h y)
    ∧ ∃ m, min_value h' = Some m ∧ m ≠ k.
Proof.
  intros Hlt Hlt' [Hwf Ho] Hc Hinc Hx Hxk.
  destruct (increased_spec lt' lt h k Hwf Hc) as (h' & Hrun & Hwf' & Hfr & Ho').
  specialize (Ho' Hlt Hlt' Hinc Ho).
  exists h'. split; [done|]. split; [done|]. split.
  { intros y. by apply same_frame_contains. }
  pose proof Hc as (i & Hi & Hki)%present_slot; [|done].
  pose proof (key_at_Some _ _ _ Hki) as Hirange.
  pose proof (same_frame_keys_size _ _ Hfr) as Hsz.
  assert (empty h' = false) as He' by (unfold empty; apply Z.eqb_neq; lia).
  destruct (get_is_Some (m_keys h') 1) as [r' Hr']; [lia|].
  fold (key_at h' 1) in Hr'.
  exists r'. split; [unfold min_value; by rewrite He'|].
  intros ->.
  assert (contains h' x = Some true) as Hcx
    by (by rewrite (same_frame_contains h h' x Hfr)).
  apply present_slot in Hcx as (j & Hj & Hxj); [|done].
  pose proof (root_minimal lt' Hlt' h' k Ho' Hr' j x Hj Hxj) as H1.
  rewrite Hxk in H1. done.
Qed.

Lemma increased_from_front_witness :
  strict_weak_order int_lt ∧ strict_weak_order (by_priority sunk_1)
  ∧ heap_inv int_lt heap_413 ∧ contains heap_413 1 = Some true
  ∧ priority_increased int_lt (by_priority sunk_1) 1
  ∧ contains heap_413 3 = Some true ∧ by_priority sunk_1 3 1 = true
  ∧ ∃ h',
      increased (by_priority sunk_1) 1 heap_413 = Some (tt, h')
      ∧ heap_inv (by_priority sunk_1) h'
      ∧ (∀ y, contains h' y = contains heap_413 y)
      ∧ ∃ m, min_value h' = Some m ∧ m ≠ 1.
Proof.
  assert (heap_inv int_lt heap_413) as Hinv
    by (apply heap_inv_b_sound; vm_compute; reflexivity).
  split; [apply int_lt_swo|]. split; [apply by_priority_swo|].
  split; [exact Hinv|]. split; [reflexivity|].
  split; [apply sunk_1_increased|]. split; [reflexivity|].
  split; [reflexivity|].
  apply (increased_from_front int_lt (by_priority sunk_1) heap_413 1 3
           int_lt_swo (by_priority_swo sunk_1) Hinv);
    [reflexivity|apply sunk_1_increased|reflexivity|reflexivity].
Defined.

(** X7.  [heapify] puts any consistent arrangement of the keys into heap
    order for the comparator: it returns, the invariant holds afterwards,
    and the capacity and the keys present are the same as before. *)
Theorem heapify_establishes_order lt h :
  strict_weak_order lt → well_formed h →
  ∃ h',
    heapify lt h = Some (tt, h')
    ∧ heap_inv lt h'
    ∧ size h' = size h
    ∧ (∀ k, contains h' k = contains h k)
    ∧ drop 1 (m_keys h') ≡ₚ drop 1 (m_keys h).
Proof.
  intros Hlt Hwf.
  destruct (heapify_spec lt h Hwf) as (h' & Hrun & Hwf' & Hfr & Ho').
  exists h'. split; [done|]. split; [by split; [|apply Ho']|].
  split; [by apply same_frame_indices_size|].
  split; [intros k; by apply same_frame_contains|].
  apply NoDup_Permutation; [by apply keys_NoDup|by apply keys_NoDup|].
  intros k. rewrite !keys_elem_of by done.
  by rewrite (same_frame_contains h h' k Hfr).
Qed.

Lemma heapify_establishes_order_witness :
  strict_weak_order int_lt ∧ well_formed heap_431
  ∧ ∃ h',
      heapify int_lt heap_431 = Some (tt, h')
      ∧ heap_inv int_lt h'
      ∧ size h' = size heap_431
      ∧ (∀ k, contains h' k = contains heap_431 k)
      ∧ drop 1 (m_keys h') ≡ₚ drop 1 (m_keys heap_431).
Proof.
  split; [apply int_lt_swo|]. split; [apply heap_431_wf|].
  apply (heapify_establishes_order int_lt heap_431 int_lt_swo heap_431_wf).
Defined.

(** X8.  On a heap that already satisfies the invariant, under a comparator
    without ties between distinct keys, [heapify] changes neither vector. *)
Theorem heapify_in_place lt h :
  heap_inv lt h → no_ties lt → heapify lt h = Some (tt, h).
Proof.
  intros [Hwf Ho] Hnt. pose proof (proj1 Hwf) as Hsz.
  unfold heapify. run. apply heapify_loop_ordered; [done|done|done|].
  rewrite Z.quot_div_nonneg by lia. rewrite Z2Nat.id; [|Z.div_mod_to_equations; lia].
  Z.div_mod_to_equations. lia.
Qed.

Lemma heapify_in_place_witness :
  heap_inv int_lt heap_01234 ∧ no_ties int_lt
  ∧ heapify int_lt heap_01234 = Some (tt, heap_01234).
Proof.
  assert (heap_inv int_lt heap_01234) as Hinv
    by (apply heap_inv_b_sound; vm_compute; reflexivity).
  split; [exact Hinv|]. split; [apply int_lt_no_ties|].
  apply (heapify_in_place int_lt heap_01234 Hinv int_lt_no_ties).
Defined.

(** X9.  [reset] (and [clear], which calls it) empties the heap and keeps
    its capacity: afterwards no key is present, every key of the range is
    absent and can be inserted again, and the invariant holds for any
    comparator. *)
Theorem reset_clears lt h :
  well_formed h →
  ∃ h',
    reset h = Some (tt, h')
    ∧ clear h = Some (tt, h')
    ∧ empty h' = true
    ∧ size h' = size h
    ∧ heap_inv lt h'
    ∧ element_count h' = 0
    ∧ (∀ k, 0 ≤ k < size h → contains h' k = Some false)
    ∧ (∀ k, 0 ≤ k < size h → ∃ h'', insert lt k h' = Some (tt, h'')).
Proof.
  intros Hwf.
  destruct (reset_spec h Hwf) as (h' & Hrun & Hwf' & Hsz' & Hlen' & Hzero).
  assert (size h' = size h) as Hcap by (unfold size, Vec.size; by rewrite Hlen').
  assert (∀ k, 0 ≤ k < size h → index_of h' k = Some 0) as Hindex.
  { intros k Hk.
    destruct (get_is_Some (m_indices h') k) as [i Hi];
      [unfold size in Hcap, Hk; lia|].
    unfold index_of. rewrite Hi. f_equal. by apply (Hzero k). }
  exists h'. split; [done|]. split; [done|].
  split; [unfold empty; by apply Z.eqb_eq|]. split; [done|].
  split; [|split; [|split]].
  - split; [done|]. intros c a b Hc Ha _. apply key_at_Some in Ha. lia.
  - rewrite element_count_spec by done. lia.
  - intros k Hk. apply contains_false; [lia|]. right. by apply Hindex.
  - intros k Hk.
    destruct (insert_spec lt h' k Hwf' (Hindex k Hk)) as (h'' & Hins & _).
    by exists h''.
Qed.

Lemma reset_clears_witness :
  well_formed heap_413
  ∧ ∃ h',
      reset heap_413 = Some (tt, h')
      ∧ clear heap_413 = Some (tt, h')
      ∧ empty h' = true
      ∧ size h' = size heap_413
      ∧ heap_inv int_lt h'
      ∧ element_count h' = 0
      ∧ (∀ k, 0 ≤ k < size heap_413 → contains h' k = Some false)
      ∧ (∀ k, 0 ≤ k < size heap_413 →
              ∃ h'', insert int_lt k h' = Some (tt, h'')).
Proof.
  assert (heap_inv int_lt heap_413) as [Hwf _]
    by (apply heap_inv_b_sound; vm_compute; reflexivity).
  split; [exact Hwf|]. apply (reset_clears int_lt heap_413 Hwf).
Defined.

(** X10.  [reserve(s)] never shrinks the heap and never touches its
    contents: the position array, the invariant and the answer of
    [contains] for every key are kept, and a request that does not exceed
    the capacity changes nothing at all. *)
Theorem reserve_keeps_contents lt h s :
  heap_inv lt h → s < 2 ^ 31 →
  ∃ h',
    reserve s h = Some (tt, h')
    ∧ heap_inv lt h'
    ∧ m_keys h' = m_keys h
    ∧ size h ≤ size h'
    ∧ (∀ k, contains h' k = contains h k)
    ∧ (s ≤ size h → h' = h).
Proof.
  intros [Hwf Ho] Hs.
  destruct (reserve_spec h s Hwf Hs) as (h' & Hrun & Hwf' & Hkeys & Hcap & Hidx).
  exists h'. split; [done|]. split; [|split; [done|split; [done|split]]].
  - split; [done|]. intros c a b Hc. unfold key_at. rewrite Hkeys.
    by apply Ho.
  - apply contains_agree. intros k. rewrite !contains_true.
    split; intros (i & Hi & Hki); exists i; (split; [done|]);
      by apply (Hidx k i Hi).
  - intros Hle. unfold reserve, indices_size in Hrun.
    revert Hrun. unfold mbind, M_bind. unfold size in Hle.
    rewrite (proj2 (Z.ltb_ge _ _) Hle). by intros [= <-].
Qed.

Lemma reserve_keeps_contents_witness :
  heap_inv int_lt heap_413 ∧ 8 < 2 ^ 31
  ∧ ∃ h',
      reserve 8 heap_413 = Some (tt, h')
      ∧ heap_inv int_lt h'
      ∧ m_keys h' = m_keys heap_413
      ∧ size heap_413 ≤ size h'
      ∧ (∀ k, contains h' k = contains heap_413 k)
      ∧ (8 ≤ size heap_413 → h' = heap_413).
Proof.
  assert (heap_inv int_lt heap_413) as Hinv
    by (apply heap_inv_b_sound; vm_compute; reflexivity).
  assert (8 < 2 ^ 31) as Hs by lia.
  split; [exact Hinv|]. split; [exact Hs|].
  apply (reserve_keeps_contents int_lt heap_413 8 Hinv Hs).
Defined.

(** X11.  [set_bounds(s)] cuts the index array down to [s] entries without
    removing any key: when a present key [k] is not below [s], it stays in
    the position array, [contains(k)] becomes false, and [check_invariant]
    no longer passes. *)
Theorem set_bounds_truncates lt h s k :
  well_formed h → 0 ≤ s < 2 ^ 31 → s ≤ k → contains h k = Some true →
  ∃ h',
    set_bounds s h = Some (tt, h')
    ∧ size h' = s
    ∧ m_keys h' = m_keys h
    ∧ k ∈ drop 1 (m_keys h')
    ∧ contains h' k = Some false
    ∧ check_invariant lt h' = false.
Proof.
  intros Hwf Hs Hsk Hc. pose proof (contains_range h k Hc) as Hk.
  eexists. split; [reflexivity|]. simpl.
  assert (size (Heap (m_keys h) (Vec.resize (m_indices h) s 0)) = s) as Hsz.
  { unfold size, Vec.size, Vec.resize in *. simpl.
    rewrite Z.mod_small by lia. rewrite length_app, length_take, length_replicate.
    lia. }
  split; [done|]. split; [done|].
  split; [by apply keys_elem_of|]. split.
  - unfold contains. unfold size in Hsz. simpl in *. rewrite Hsz.
    by rewrite (proj2 (Z.ltb_ge _ _)) by lia.
  - destruct (check_invariant lt _) eqn:Hchk; [|done].
    apply check_invariant_ordered in Hchk as [Hback _].
    apply present_slot in Hc as (i & Hi & Hki); [|done].
    specialize (Hback i k Hi Hki). apply index_of_Some in Hback.
    unfold size in Hsz. lia.
Qed.

Lemma set_bounds_truncates_witness :
  well_formed heap_413 ∧ 0 ≤ 2 < 2 ^ 31 ∧ 2 ≤ 4
  ∧ contains heap_413 4 = Some true
  ∧ ∃ h',
      set_bounds 2 heap_413 = Some (tt, h')
      ∧ size h' = 2
      ∧ m_keys h' = m_keys heap_413
      ∧ 4 ∈ drop 1 (m_keys h')
      ∧ contains h' 4 = Some false
      ∧ check_invariant int_lt h' = false.
Proof.
  assert (heap_inv int_lt heap_413) as [Hwf _]
    by (apply heap_inv_b_sound; vm_compute; reflexivity).
  assert (0 ≤ 2 < 2 ^ 31) as Hs by lia.
  assert (2 ≤ 4) as Hk by lia.
  split; [exact Hwf|]. split; [exact Hs|]. split; [exact Hk|].
  split; [reflexivity|].
  apply (set_bounds_truncates int_lt heap_413 2 4 Hwf Hs Hk). reflexivity.
Defined.

(** X12.  [erase], [decreased] and [increased] assert that their key is
    present: called with a key for which [contains] does not answer true,
    each of them fails that assertion. *)
Theorem absent_key_rejected lt h k :
  contains h k ≠ Some true →
  erase lt k h = None ∧ decreased lt k h = None ∧ increased lt k h = None.
Proof.
  intros Hc.
  assert (∀ (m : Z → M unit),
            (c ← call (λ h, contains h k); sassert c;; idx ← indices_at k;
             m idx) h = None) as Hfail.
  { intros m. unfold mbind, M_bind, call, lift.
    destruct (contains h k) as [[]|]; done. }
  split; [|split].
  - unfold erase. unfold mbind, M_bind, call, lift.
    destruct (contains h k) as [[]|]; done.
  - apply (Hfail (move_up lt)).
  - apply (Hfail (move_down lt)).
Qed.

Lemma absent_key_rejected_witness :
  contains heap_413 0 ≠ Some true
  ∧ erase int_lt 0 heap_413 = None
  ∧ decreased int_lt 0 heap_413 = None
  ∧ increased int_lt 0 heap_413 = None.
Proof.
  assert (contains heap_413 0 ≠ Some true) as Hc by (vm_compute; discriminate).
  split; [exact Hc|]. apply (absent_key_rejected int_lt heap_413 0 Hc).
Defined.

(** X13.  On a heap without keys, [min_value] and [erase_min] fail their
    assertion, while [reset], [heapify], [find_le], the extraction loop and
    the iteration from [begin()] to [end()] return at once and leave the
    heap (and the result vector) as they found it. *)
Theorem empty_heap_behaviour lt h :
  empty h = true →
  min_value h = None
  ∧ erase_min lt h = None
  ∧ reset h = Some (tt, h)
  ∧ heapify lt h = Some (tt, h)
  ∧ (∀ t result, find_le lt t result h = Some (result, h))
  ∧ (∀ fuel, erase_all lt fuel h = Some ([], h))
  ∧ elements h = Some [].
Proof.
  intros He. destruct h as [ks ixs]. pose proof He as He'.
  unfold empty, Vec.size in He'. simpl in He'. apply Z.eqb_eq in He'.
  destruct ks as [|x [|y ks]]; simpl in He'; [lia| |lia].
  repeat split; try reflexivity.
  intros fuel. destruct fuel; reflexivity.
Qed.

Lemma empty_heap_behaviour_witness :
  empty (mk_heap 5) = true
  ∧ min_value (mk_heap 5) = None
  ∧ erase_min int_lt (mk_heap 5) = None
  ∧ reset (mk_heap 5) = Some (tt, mk_heap 5)
  ∧ heapify int_lt (mk_heap 5) = Some (tt, mk_heap 5)
  ∧ (∀ t result, find_le int_lt t result (mk_heap 5)
                 = Some (result, mk_heap 5))
  ∧ (∀ fuel, erase_all int_lt fuel (mk_heap 5) = Some ([], mk_heap 5))
  ∧ elements (mk_heap 5) = Some [].
Proof.
  split; [reflexivity|].
  apply (empty_heap_behaviour int_lt (mk_heap 5)). reflexivity.
Defined.

(** X14.  [insert(k)] of a key that is not present fails its range
    assertion exactly when [k] lies outside [0 .. size() - 1]; inside the
    range it returns. *)
Theorem insert_checks_range lt h k :
  well_formed h → contains h k ≠ Some true →
  insert lt k h = None ↔ ¬ (0 ≤ k < size h).
Proof.
  intros Hwf Hc. split.
  - intros Hnone Hk.
    pose proof (contains_in_range h k Hk Hc) as Hf.
    apply contains_false in Hf as [?|Hik]; [unfold size in Hk; lia| |lia].
    destruct (insert_spec lt h k Hwf Hik) as (h' & Hrun & _).
    by rewrite Hrun in Hnone.
  - intros Hk. unfold insert, mbind, M_bind, call, lift, is_valid_value.
    fold (size h).
    destruct (Z.leb_spec 0 k), (Z.ltb_spec k (size h)); (done || lia).
Qed.

Lemma insert_checks_range_witness :
  well_formed heap_413 ∧ contains heap_413 5 ≠ Some true
  ∧ (insert int_lt 5 heap_413 = None ↔ ¬ (0 ≤ 5 < size heap_413)).
Proof.
  assert (heap_inv int_lt heap_413) as [Hwf _]
    by (apply heap_inv_b_sound; vm_compute; reflexivity).
  assert (contains heap_413 5 ≠ Some true) as Hc by (vm_compute; discriminate).
  split; [exact Hwf|]. split; [exact Hc|].
  apply (insert_checks_range int_lt heap_413 5 Hwf Hc).
Defined.

(** X15.  Heap sort: inserting a list of distinct keys of the range into a
    fresh heap and extracting with [erase_min] until the heap is empty
    returns a permutation of the list in which no key sorts before an
    earlier one. *)
Theorem heap_sort lt s l :
  strict_weak_order lt → 0 ≤ s < 2 ^ 31 →
  NoDup l → (∀ k, k ∈ l → 0 ≤ k < s) →
  ∃ h1 out h2,
    insert_all lt l (mk_heap s) = Some (tt, h1)
    ∧ erase_all lt (length l) h1 = Some (out, h2)
    ∧ empty h2 = true
    ∧ out ≡ₚ l
    ∧ StronglySorted (λ a b, lt b a = false) out.
Proof.
  intros Hlt Hs Hnd Hl.
  destruct (mk_heap_spec lt s Hs) as (Hwf0 & Ho0 & Hsz0 & Hz0).
  assert (∀ k, contains (mk_heap s) k ≠ Some true) as Hnone.
  { intros k (i & Hi & Hki)%contains_true. by apply Hz0 in Hki. }
  destruct (insert_all_spec lt l (mk_heap s) Hlt Hwf0 Ho0 Hnd)
    as (h1 & Hrun1 & Hwf1 & Ho1 & Hsz1 & _ & Hmem1).
  { intros k Hk. rewrite Hsz0. split; [by apply Hl|].
    apply contains_in_range; [rewrite Hsz0; by apply Hl|done]. }
  destruct (erase_all_spec lt Hlt (length l) h1 (length l) Hwf1 Ho1)
    as (out & h2 & Hrun2 & He2 & _ & Hnd2 & Hmem2 & Hsorted); [|done|].
  { rewrite Hsz1. unfold mk_heap, Vec.size. simpl. lia. }
  exists h1, out, h2. split; [done|]. split; [done|]. split; [done|].
  split; [|done].
  apply NoDup_Permutation; [done|done|].
  intros k. rewrite Hmem2, Hmem1. split; [|by left].
  intros [?|?]; [done|]. by destruct (Hnone k).
Qed.

Lemma heap_sort_witness :
  strict_weak_order int_lt ∧ 0 ≤ 5 < 2 ^ 31
  ∧ NoDup [3; 0; 4; 1] ∧ (∀ k, k ∈ [3; 0; 4; 1] → 0 ≤ k < 5)
  ∧ ∃ h1 out h2,
      insert_all int_lt [3; 0; 4; 1] (mk_heap 5) = Some (tt, h1)
      ∧ erase_all int_lt (length [3; 0; 4; 1]) h1 = Some (out, h2)
      ∧ empty h2 = true
      ∧ out ≡ₚ [3; 0; 4; 1]
      ∧ StronglySorted (λ a b, int_lt b a = false) out.
Proof.
  assert (0 ≤ 5 < 2 ^ 31) as Hs by lia.
  assert (NoDup [3; 0; 4; 1]) as Hnd.
  { repeat (apply NoDup_cons_2;
            [rewrite ?elem_of_cons, elem_of_nil; lia|]).
    apply NoDup_nil_2. }
  assert (∀ k, k ∈ [3; 0; 4; 1] → 0 ≤ k < 5) as Hl.
  { intros k Hk. repeat (apply elem_of_cons in Hk as [->|Hk]; [lia|]).
    by apply elem_of_nil in Hk. }
  split; [apply int_lt_swo|]. split; [exact Hs|]. split; [exact Hnd|].
  split; [exact Hl|].
  apply (heap_sort int_lt 5 [3; 0; 4; 1] int_lt_swo Hs Hnd Hl).
Defined.

(** X16.  Iterating from [begin()] to [end()] visits every present key
    exactly once and nothing else, as many keys as the element count, and
    starts with the key that [min_value] returns. *)
Theorem elements_are_present_keys h :
  well_formed h →
  ∃ l,
    elements h = Some l
    ∧ NoDup l
    ∧ (∀ k, k ∈ l ↔ contains h k = Some true)
    ∧ Z.of_nat (length l) = element_count h
    ∧ head l = min_value h.
Proof.
  intros Hwf. pose proof (proj1 Hwf) as Hsz.
  exists (drop 1 (m_keys h)). split; [by apply elements_drop|].
  split; [by apply keys_NoDup|]. split; [intros k; by apply keys_elem_of|].
  split.
  - rewrite element_count_spec by done. rewrite length_drop.
    unfold Vec.size in *. lia.
  - rewrite head_lookup, lookup_drop. unfold min_value, empty.
    destruct (Z.eqb_spec (Vec.size (m_keys h)) 1) as [He|He].
    + apply lookup_ge_None_2. unfold Vec.size in He. simpl. lia.
    + symmetry. apply (get_of_nat (m_keys h) 1).
Qed.

Lemma elements_are_present_keys_witness :
  well_formed heap_413
  ∧ ∃ l,
      elements heap_413 = Some l
      ∧ NoDup l
      ∧ (∀ k, k ∈ l ↔ contains heap_413 k = Some true)
      ∧ Z.of_nat (length l) = element_count heap_413
      ∧ head l = min_value heap_413.
Proof.
  assert (heap_inv int_lt heap_413) as [Hwf _]
    by (apply heap_inv_b_sound; vm_compute; reflexivity).
  split; [exact Hwf|]. apply (elements_are_present_keys heap_413 Hwf).
Defined.

(** X17.  [check_invariant] passes exactly when every slot from 1 on holds a
    key whose index entry is that slot and the keys are in heap order.  The
    index entries of keys that are in no slot are not looked at. *)
Theorem check_invariant_iff lt h :
  check_invariant lt h = true
  ↔ (∀ i k, 1 ≤ i → key_at h i = Some k → index_of h k = Some i)
    ∧ ordered lt h.
Proof.
  split; [apply check_invariant_ordered|].
  intros [Hback Ho]. unfold check_invariant.
  apply check_invariant_core_passes; [done|done|lia|].
  unfold Vec.size. lia.
Qed.



(** X19.  In every reachable heap, slot 0 of the position array still holds
    the sentinel -1 of the constructor; a reachable heap without keys is
    exactly the heap that the constructor builds for the same capacity, and
    [reset] returns to that heap. *)
Theorem reset_is_fresh lt log h :
  reachable lt log h →
  get_key h 0 = Some (-1)
  ∧ (empty h = true → h = mk_heap (size h))
  ∧ reset h = Some (tt, mk_heap (size h)).
Proof.
  intros Hr. destruct (reachable_sentinel lt log h Hr) as [H0 Hs].
  destruct (reachable_inv lt log h Hr) as (_ & Hwf & _).
  split; [done|]. split; [intros He; by apply empty_fresh|].
  unfold reset. destruct (empty h) eqn:He.
  - by rewrite <- empty_fresh.
  - do 2 f_equal. unfold mk_heap, size, Vec.size, Vec.resize in *.
    rewrite Z.mod_small by lia. rewrite Nat2Z.id, take_nil. simpl.
    by rewrite Nat.sub_0_r.
Qed.

Lemma reset_is_fresh_witness :
  reachable int_lt [EInsert 3; EInsert 1; EInsert 4] heap_413
  ∧ get_key heap_413 0 = Some (-1)
  ∧ (empty heap_413 = true → heap_413 = mk_heap (size heap_413))
  ∧ reset heap_413 = Some (tt, mk_heap (size heap_413)).
Proof.
  split; [apply heap_413_reachable|].
  apply (reset_is_fresh int_lt _ heap_413 heap_413_reachable).
Defined.

(** X20.  Under a comparator without ties, inserting an absent key that
    sorts before every present key and then calling [erase_min] returns that
    key and leaves both vectors exactly as they were before the insert. *)
Theorem insert_erase_min_round_trip lt h k :
  strict_weak_order lt → no_ties lt → heap_inv lt h →
  0 ≤ k < size h → contains h k = Some false →
  (∀ x, contains h x = Some true → lt k x = true) →
  ∃ h1,
    insert lt k h = Some (tt, h1)
    ∧ min_value h1 = Some k
    ∧ erase_min lt h1 = Some (k, h).
Proof.
  intros Hlt Hnt [Hwf Ho] Hk Hc Hfront.
  assert (index_of h k = Some 0) as Hik.
  { apply contains_false in Hc as [?|?]; [|done|lia]. unfold size in Hk. lia. }
  destruct (insert_erase lt Hlt Hnt h k Hwf Ho Hik) as (h1 & Hins & Hera).
  destruct (insert_spec lt h k Hwf Hik)
    as (h1' & Hrun & Hwf1 & Hsz1 & Hlen1 & Habs & Ho1).
  rewrite Hins in Hrun. injection Hrun as <-. specialize (Ho1 Hlt Ho).
  pose proof (proj1 Hwf) as Hn.
  assert (empty h1 = false) as He1 by (unfold empty; apply Z.eqb_neq; lia).
  destruct (get_is_Some (m_keys h1) 1) as [r Hr]; [lia|].
  fold (key_at h1 1) in Hr.
  assert (∀ x, contains h1 x = Some true
               ↔ x = k ∨ (¬ False ∧ contains h x = Some true)) as Hmem.
  { intros x. apply (absent_after_contains h h1 _ _ x Habs Hlen1).
    - intros ? ->. unfold size in Hk. done.
    - intros ?. apply _.
    - intros ?. apply _. }
  assert (r = k) as ->.
  { assert (contains h1 r = Some true) as Hcr
      by (apply present_slot; [done|]; by exists 1).
    apply Hmem in Hcr as [->|[_ Hold]]; [done|].
    assert (contains h1 k = Some true) as Hck by (apply Hmem; by left).
    apply present_slot in Hck as (j & Hj & Hkj); [|done].
    pose proof (root_minimal lt Hlt h1 r Ho1 Hr j k Hj Hkj) as H1.
    rewrite (Hfront r Hold) in H1. done. }
  assert (min_value h1 = Some k) as Hmin
    by (unfold min_value; by rewrite He1).
  exists h1. split; [done|]. split; [done|].
  rewrite (erase_min_as_erase lt h1 Hwf1).
  rewrite (bind_run _ _ _ _ _ (call_run min_value h1 k Hmin)).
  by rewrite (bind_run _ _ _ _ _ Hera).
Qed.

Lemma insert_erase_min_round_trip_witness :
  strict_weak_order int_lt ∧ no_ties int_lt ∧ heap_inv int_lt heap_413
  ∧ 0 ≤ 0 < size heap_413 ∧ contains heap_413 0 = Some false
  ∧ ∃ h1,
      insert int_lt 0 heap_413 = Some (tt, h1)
      ∧ min_value h1 = Some 0
      ∧ erase_min int_lt h1 = Some (0, heap_413).
Proof.
  assert (heap_inv int_lt heap_413) as Hinv
    by (apply heap_inv_b_sound; vm_compute; reflexivity).
  assert (0 ≤ 0 < size heap_413) as Hk
    by (unfold size, Vec.size; simpl; lia).
  split; [apply int_lt_swo|]. split; [apply int_lt_no_ties|].
  split; [exact Hinv|]. split; [exact Hk|]. split; [reflexivity|].
  apply (insert_erase_min_round_trip int_lt heap_413 0
           int_lt_swo int_lt_no_ties Hinv Hk); [reflexivity|].
  intros x Hx. pose proof (contains_range _ _ Hx) as Hr.
  unfold size, Vec.size in Hr. simpl in Hr.
  destruct (decide (x = 0)) as [->|Hne]; [vm_compute in Hx; discriminate|].
  apply Z.ltb_lt. lia.
Defined.

(** X21.  In every reachable heap the index array has no stale entries: a
    non-zero entry [get_index(k)] is the number of an occupied slot, and
    [get_key] of that slot is [k]. *)
Theorem get_index_points_at_key lt log h k i :
  reachable lt log h →
  get_index h k = Some i → i ≠ 0 →
  1 ≤ i < Vec.size (m_keys h) ∧ get_key h i = Some k.
Proof.
  intros (_ & Hwf & _)%reachable_inv Hk Hi.
  by apply (wf_slot h k i Hwf).
Qed.

Lemma get_index_points_at_key_witness :
  reachable int_lt [EInsert 3; EInsert 1; EInsert 4] heap_413
  ∧ get_index heap_413 4 = Some 2 ∧ 2 ≠ 0
  ∧ 1 ≤ 2 < Vec.size (m_keys heap_413) ∧ get_key heap_413 2 = Some 4.
Proof.
  assert (2 ≠ 0) as Hi by lia.
  split; [apply heap_413_reachable|]. split; [reflexivity|].
  split; [exact Hi|].
  apply (get_index_points_at_key int_lt _ heap_413 4 2 heap_413_reachable);
    [reflexivity|exact Hi].
Defined.

(** X22.  Slot arithmetic: for a slot number below [2^30] the shifts do not
    overflow an [int], [parent] undoes [left] and [right], and a slot from 2
    on is the left or the right child of its parent; hence the assertion
    [parent(min_idx) == idx] in [move_down] holds. *)
Theorem slot_arithmetic i :
  0 ≤ i < 2 ^ 30 →
  (0 ≤ left i ≤ right i ∧ right i < 2 ^ 31)
  ∧ parent (left i) = i ∧ parent (right i) = i
  ∧ (1 ≤ i → i < left i)
  ∧ (2 ≤ i → 1 ≤ parent i < i
             ∧ (i = left (parent i) ∨ i = right (parent i))).
Proof.
  intros Hi. split; [slots|]. split; [apply parent_left|].
  split; [apply parent_right|]. split; [intros ?; slots|].
  intros Hi2. split; [slots|]. by apply parent_child.
Qed.

Lemma slot_arithmetic_witness :
  0 ≤ 5 < 2 ^ 30
  ∧ (0 ≤ left 5 ≤ right 5 ∧ right 5 < 2 ^ 31)
  ∧ parent (left 5) = 5 ∧ parent (right 5) = 5
  ∧ (1 ≤ 5 → 5 < left 5)
  ∧ (2 ≤ 5 → 1 ≤ parent 5 < 5
             ∧ (5 = left (parent 5) ∨ 5 = right (parent 5))).
Proof.
  assert (0 ≤ 5 < 2 ^ 30) as Hi by lia.
  split; [exact Hi|]. apply (slot_arithmetic 5 Hi).
Defined.

